(** * GPU operator kernels of the HIP backend: a shallow embedding

    The kernels of [caffe2/operators/*_hip.cc] are embedded as Rocq
    functions over device buffers.  A device pointer is a map from
    addresses (element offsets) to values; [int] values are integers
    with C's truncating division, and the window bounds of the pooling
    kernels, which are computed from operator arguments, are 32 bits
    wide and wrap around; [float] is IEEE binary32 with
    round-to-nearest-even, taken from the parameterised specification
    of the Standard Library.

    Part I holds the embedding, Part II the properties. *)

From Stdlib Require Import String ZArith List Lia Bool Permutation.
From Stdlib Require Import SpecFloat.
Import ListNotations.

Local Open Scope Z_scope.

(** * Part I: the embedding *)

(** ** C integer arithmetic *)

Module CInt.

(** [a / b] and [a % b] of C++ truncate towards zero. *)
Definition div (a b : Z) : Z := Z.quot a b.
Definition rem (a b : Z) : Z := Z.rem a b.

(** [min] and [max] of the device runtime. *)
Definition min (a b : Z) : Z := if a <? b then a else b.
Definition max (a b : Z) : Z := if a <? b then b else a.

(** An [int] has 32 bits.  [wrap x] is the value a 32-bit register
    holds for the integer [x]: a sum, difference or product that leaves
    the range [INT_MIN .. INT_MAX] wraps around, as two's-complement
    arithmetic does on the device. *)
Definition INT_MIN : Z := - 2 ^ 31.
Definition INT_MAX : Z := 2 ^ 31 - 1.

Definition wrap (x : Z) : Z := (x + 2 ^ 31) mod 2 ^ 32 - 2 ^ 31.

(** The integers an [int] represents. *)
Definition fits (x : Z) : Prop := INT_MIN <= x <= INT_MAX.

Definition add (a b : Z) : Z := wrap (a + b).
Definition sub (a b : Z) : Z := wrap (a - b).
Definition mul (a b : Z) : Z := wrap (a * b).

End CInt.

(** ** IEEE binary32 *)

Module F32.

Definition prec : Z := 24.
Definition emax : Z := 128.

Definition float : Type := spec_float.

Definition zero : float := S754_zero false.
Definition one : float := SFone prec emax.
Definition FLT_MAX : float := SFmax_float prec emax.

Definition add (x y : float) : float := SFadd prec emax x y.
Definition sub (x y : float) : float := SFsub prec emax x y.
Definition mul (x y : float) : float := SFmul prec emax x y.
Definition fdiv (x y : float) : float := SFdiv prec emax x y.
Definition sqrt (x : float) : float := SFsqrt prec emax x.
(** [fmaf(x, y, z)], the fused multiply-add: the product of [x] and
    [y], not rounded, is added to [z], and the sum is rounded once.
    Where the product is exact, a zero, an infinity or a NaN, this is
    the sum of the product and [z]; a product added to a zero is the
    rounded product. *)
Definition fma (x y z : float) : float :=
  match x, y with
  | S754_finite sx mx ex, S754_finite sy my ey =>
      match z with
      | S754_zero _ => SFmul prec emax x y
      | _ =>
          SFadd prec emax (S754_finite (xorb sx sy) (mx * my) (ex + ey)) z
      end
  | _, _ => SFadd prec emax (SFmul prec emax x y) z
  end.

Definition neg (x : float) : float := SFopp x.
Definition fabsf (x : float) : float := SFabs x.

(** The comparisons [x < y], [x > y], [x <= y] and [x == y]; all are
    false as soon as an operand is a NaN. *)
Definition lt (x y : float) : bool := SFltb x y.
Definition le (x y : float) : bool := SFleb x y.
Definition gt (x y : float) : bool := lt y x.
Definition ge (x y : float) : bool := le y x.
Definition eq (x y : float) : bool := SFeqb x y.

(** Conversion of an integer constant. *)
Definition of_Z (n : Z) : float := binary_normalize prec emax n 0 false.

End F32.

(** ** Device memory and kernel launches *)

Module Device.

(** A device pointer: the buffer it points into, addressed by element
    offset.  Kernels receive raw pointers and no shape. *)
Definition ptr (T : Type) : Type := Z -> T.

Definition store {T} (p : ptr T) (i : Z) (v : T) : ptr T :=
  fun j => if j =? i then v else p j.

(** [p + off] *)
Definition offset {T} (p : ptr T) (off : Z) : ptr T :=
  fun j => p (off + j).

(** The indices [0 .. n-1]. *)
Definition iota (n : Z) : list Z := map Z.of_nat (seq 0 (Z.to_nat n)).

(** The iterations of a loop body taking effect one after the other,
    in the order [sched]. *)
Definition run_iterations {S : Type}
    (sched : list Z) (body : Z -> S -> S) (s : S) : S :=
  fold_left (fun st i => body i st) sched s.

(** [HIP_1D_KERNEL_LOOP(i, n) { body }]: the threads of the grid stride
    over the indices, and an index is processed when it passes the
    loop test [i < n].  The order in which the iterations take effect
    is not fixed; a schedule of the launch is any arrangement of the
    indices [0 .. n-1]. *)
Definition is_schedule (nthreads : Z) (sched : list Z) : Prop :=
  Permutation sched (iota nthreads).

Definition HIP_1D_KERNEL_LOOP {S : Type}
    (sched : list Z) (n : Z) (body : Z -> S -> S) (s : S) : S :=
  run_iterations (filter (fun i => i <? n) sched) body s.

(** A kernel that receives [base + off] writes into the buffer behind
    [base]: run [k] on the shifted view and map its writes back. *)
Definition at_offset {T} (off : Z) (k : ptr T -> ptr T) (base : ptr T)
    : ptr T :=
  fun j => k (offset base off) (j - off).

(** The integers [a, a+1, ..., b-1] of a loop
    [for (int h = a; h < b; ++h)]. *)
Definition range (a b : Z) : list Z := map (fun k => a + k) (iota (b - a)).

Definition for_range {S : Type} (a b : Z) (body : Z -> S -> S) (s : S) : S :=
  fold_left (fun st h => body h st) (range a b) s.

(** The values [start, start+step, ...] below [stop] of a strided loop
    [for (int j = start; j < stop; j += step)]. *)
Definition strided (start stop step : Z) : list Z :=
  map (fun q => start + q * step) (iota ((stop - start + step - 1) / step)).

(** [math::Set(n, v, p)]: fill [p[0..n)] with [v]. *)
Definition math_Set {T} (n : Z) (v : T) (p : ptr T) : ptr T :=
  fun j => if (0 <=? j) && (j <? n) then v else p j.

End Device.

(** ** Tensors and operator results *)

Module Framework.
Import Device.

(** A tensor of the framework: its shape and its buffer. *)
Record Tensor (T : Type) : Type := mkTensor { dims : list Z; data : ptr T }.
Arguments mkTensor {T} _ _.
Arguments dims {T} _.
Arguments data {T} _.

Definition ndim {T} (t : Tensor T) : Z := Z.of_nat (length (dims t)).
Definition dim32 {T} (t : Tensor T) (i : Z) : Z := nth (Z.to_nat i) (dims t) 0.
Definition size {T} (t : Tensor T) : Z := fold_right Z.mul 1 (dims t).
Definition size_from_dim {T} (k : nat) (t : Tensor T) : Z :=
  fold_right Z.mul 1 (skipn k (dims t)).

(** An operator invocation either completes or is aborted: by a failed
    [CAFFE_ENFORCE] / [CAFFE_THROW], which carry a message, or by a
    hardware fault such as an integer division by zero. *)
Inductive error : Type :=
  | EnforceNotMet (msg : string)
  | DivisionByZero.

Inductive result (A : Type) : Type :=
  | Ok (a : A)
  | Err (e : error).
Arguments Ok {A} _.
Arguments Err {A} _.

Definition bind {A B} (r : result A) (k : A -> result B) : result B :=
  match r with
  | Ok a => k a
  | Err e => Err e
  end.

Notation "x <- r ;; k" := (bind r (fun x => k))
  (at level 61, r at next level, right associativity).
Notation "r ;;; k" := (bind r (fun _ => k))
  (at level 61, right associativity).

Definition CAFFE_ENFORCE (cond : bool) (msg : string) : result unit :=
  if cond then Ok tt else Err (EnforceNotMet msg).

Definition CAFFE_ENFORCE_EQ (a b : Z) (msg : string) : result unit :=
  CAFFE_ENFORCE (a =? b) msg.

Definition CAFFE_THROW {A} (msg : string) : result A :=
  Err (EnforceNotMet msg).

(** Integer division as the hardware performs it. *)
Definition int_div (a b : Z) : result Z :=
  if b =? 0 then Err DivisionByZero else Ok (CInt.div a b).

(** [for (int i = 0; i < X.ndim(); ++i)
      CAFFE_ENFORCE_EQ(X.dim32(i), Y.dim32(i), msg)] *)
Fixpoint enforce_same_dims (xs ys : list Z) (msg : string) : result unit :=
  match xs with
  | [] => Ok tt
  | x :: xs' =>
      CAFFE_ENFORCE_EQ x (hd 0 ys) msg ;;;
      enforce_same_dims xs' (tl ys) msg
  end.

End Framework.

(** ** One-hot encoding ([one_hot_ops_hip.cc]) *)

Module OneHot.
Import Device.

(** [TIndex] is a 64-bit integer; [indices] holds [batch_size] of them. *)
Definition OneHotOpKernel_body (index_size : Z) (indices : ptr Z)
    (i : Z) (output : ptr F32.float) : ptr F32.float :=
  store output (i * index_size + indices i) F32.one.

Definition OneHotOpKernel (sched : list Z) (batch_size index_size : Z)
    (indices : ptr Z) (output : ptr F32.float) : ptr F32.float :=
  HIP_1D_KERNEL_LOOP sched batch_size
    (OneHotOpKernel_body index_size indices) output.

(** [DoOneHotOp]: zero the [output_size] elements of the output, then
    launch the kernel over [batch_size] threads. *)
Definition DoOneHotOp (sched : list Z) (batch_size index_size : Z)
    (indices : ptr Z) (output_size : Z) (output : ptr F32.float)
    : ptr F32.float :=
  let output_ptr := math_Set output_size F32.zero output in
  OneHotOpKernel sched batch_size index_size indices output_ptr.

End OneHot.

(** ** Distance and similarity operators ([distance_op_hip.cc]) *)

Module Distance.
Import Device Framework.

(** [1e-12] as a [float]: the binary32 value nearest to it. *)
Definition kEps : F32.float := S754_finite false 9223372 (-63).

(** Modelled from the spec: [math::Maximum], [math::Mul] and
    [math::InvSqrt] of caffe2/utils/math are not part of the sources at
    hand.  They are the element-wise operations behind "the epsilon
    clamp" and the product and inverse square root of the cosine
    formula; [fmaxf] returns the other operand when one is a NaN. *)
Definition fmaxf (x y : F32.float) : F32.float :=
  match x, y with
  | S754_nan, _ => y
  | _, S754_nan => x
  | _, _ => if F32.lt x y then y else x
  end.

Definition rsqrtf (x : F32.float) : F32.float := F32.fdiv F32.one (F32.sqrt x).

Definition math_Maximum (N : Z) (alpha : F32.float) (x y : ptr F32.float)
    : ptr F32.float :=
  fun j => if (0 <=? j) && (j <? N) then fmaxf (x j) alpha else y j.

Definition math_Mul (N : Z) (a b y : ptr F32.float) : ptr F32.float :=
  fun j => if (0 <=? j) && (j <? N) then F32.mul (a j) (b j) else y j.

Definition math_InvSqrt (N : Z) (x y : ptr F32.float) : ptr F32.float :=
  fun j => if (0 <=? j) && (j <? N) then rsqrtf (x j) else y j.

Section BlockKernels.

(** The threads of a block and the block-wide sum of cub, whose order
    of summation is its own business. *)
Variable CAFFE_HIP_NUM_THREADS : Z.
Variable BlockReduce_Sum : list F32.float -> F32.float.

(** A loop [for (int i = hipBlockIdx_x; i < N; i += hipGridDim_x)]: every
    row is handled once, by one block, in an order given by [rows]. *)
Definition block_rows {S : Type} (rows : list Z) (N : Z)
    (body : Z -> S -> S) (s : S) : S :=
  run_iterations (filter (fun i => i <? N) rows) body s.

(** The value a thread accumulates over its columns
    [j = hipThreadIdx_x, hipThreadIdx_x + hipBlockDim_x, ...]. *)
Definition thread_sum (D : Z) (term : Z -> F32.float) (tid : Z) : F32.float :=
  fold_left (fun acc j => F32.add acc (term j))
    (strided tid D CAFFE_HIP_NUM_THREADS) F32.zero.

Definition block_sum (D : Z) (term : Z -> F32.float) : F32.float :=
  BlockReduce_Sum (map (thread_sum D term) (iota CAFFE_HIP_NUM_THREADS)).

Definition SquaredL2DistanceKernel (rows : list Z) (N D : Z)
    (X Y : ptr F32.float) (distance : ptr F32.float) : ptr F32.float :=
  block_rows rows N (fun i distance =>
    let total_dist := block_sum D (fun j =>
      let diff := F32.sub (X (i * D + j)) (Y (i * D + j)) in
      F32.mul diff diff) in
    store distance i (F32.fdiv total_dist (F32.add F32.one F32.one)))
  distance.

Definition L1DistanceKernel (rows : list Z) (N D : Z)
    (X Y : ptr F32.float) (distance : ptr F32.float) : ptr F32.float :=
  block_rows rows N (fun i distance =>
    let aggregate := block_sum D (fun j =>
      F32.fabsf (F32.sub (X (i * D + j)) (Y (i * D + j)))) in
    store distance i aggregate)
  distance.

Definition DotProductKernel_row (D : Z) (X Y : ptr F32.float) (i : Z)
    : F32.float :=
  let offset := i * D in
  block_sum D (fun j => F32.mul (X (offset + j)) (Y (offset + j))).

Definition DotProductKernel (rows : list Z) (N D : Z)
    (X Y : ptr F32.float) (result : ptr F32.float) : ptr F32.float :=
  block_rows rows N (fun i result =>
    store result i (DotProductKernel_row D X Y i))
  result.

(** [SquaredL2DistanceOp<float, HIPContext>::RunOnDevice] *)
Definition SquaredL2DistanceOp_RunOnDevice (rows : list Z)
    (X Y : Tensor F32.float) (distance : ptr F32.float)
    : result (Tensor F32.float) :=
  CAFFE_ENFORCE_EQ (ndim X) (ndim Y) "X.ndim() == Y.ndim()" ;;;
  enforce_same_dims (dims X) (dims Y) "Mismatch in dimensions" ;;;
  let N := if ndim X >? 0 then dim32 X 0 else 1 in
  D <- int_div (size X) N ;;
  Ok (mkTensor [N]
        (SquaredL2DistanceKernel rows N D (data X) (data Y) distance)).

(** [L1DistanceOp<float, HIPContext>::RunOnDevice] *)
Definition L1DistanceOp_RunOnDevice (rows : list Z)
    (X Y : Tensor F32.float) (distance : ptr F32.float)
    : result (Tensor F32.float) :=
  CAFFE_ENFORCE_EQ (ndim X) (ndim Y) "X.ndim() == Y.ndim()" ;;;
  enforce_same_dims (dims X) (dims Y) "X.dim32(i) == Y.dim32(i)" ;;;
  let N := if ndim X >? 0 then dim32 X 0 else 1 in
  D <- (if N >? 0 then int_div (size X) N else Ok 0) ;;
  Ok (mkTensor [N] (L1DistanceKernel rows N D (data X) (data Y) distance)).

(** [DotProductOp<float, HIPContext>::RunOnDevice] *)
Definition DotProductOp_RunOnDevice (rows : list Z)
    (X Y : Tensor F32.float) (result_data : ptr F32.float)
    : result (Tensor F32.float) :=
  CAFFE_ENFORCE_EQ (ndim X) (ndim Y) "X.ndim() == Y.ndim()" ;;;
  enforce_same_dims (dims X) (dims Y) "X.dim32(i) == Y.dim32(i)" ;;;
  ND <- (if size X >? 0
         then let N := if ndim X >? 0 then dim32 X 0 else 1 in
              D <- int_div (size X) N ;; Ok (N, D)
         else Ok (0, 0)) ;;
  let '(N, D) := ND in
  Ok (mkTensor [N] (DotProductKernel rows N D (data X) (data Y) result_data)).

(** [CosineSimilarityOp<float, HIPContext>::RunOnDevice].  [aux] is the
    operator's scratch buffer of [2 * N] floats: [x2] points at its
    start, [y2] at offset [N], and [scale] is [x2] again.  The three
    launches may order their rows differently. *)
Definition CosineSimilarityOp_RunOnDevice (rows1 rows2 rows3 : list Z)
    (X Y : Tensor F32.float) (result_buf aux_buf : ptr F32.float)
    : result (Tensor F32.float * ptr F32.float) :=
  CAFFE_ENFORCE_EQ (ndim X) (ndim Y) "X.ndim() == Y.ndim()" ;;;
  enforce_same_dims (dims X) (dims Y) "X.dim32(i) == Y.dim32(i)" ;;;
  let N := if ndim X >? 0 then dim32 X 0 else 1 in
  let D := size_from_dim 1 X in
  let X_data := data X in
  let Y_data := data Y in
  (* x2 = aux_data, y2 = aux_data + N, scale = x2 *)
  let aux := at_offset 0 (DotProductKernel rows1 N D X_data X_data) aux_buf in
  let aux := at_offset N (DotProductKernel rows2 N D Y_data Y_data) aux in
  let result_data := DotProductKernel rows3 N D X_data Y_data result_buf in
  let aux := at_offset 0 (math_Maximum N kEps (offset aux 0)) aux in
  let aux := at_offset N (math_Maximum N kEps (offset aux N)) aux in
  let aux := at_offset 0 (math_Mul N (offset aux 0) (offset aux N)) aux in
  let aux := at_offset 0 (math_InvSqrt N (offset aux 0)) aux in
  let result_data := math_Mul N result_data (offset aux 0) result_data in
  Ok (mkTensor [N] result_data, aux).

End BlockKernels.

(** [L1DistanceGradientKernel]; the state is the pair of output buffers
    [dX] and [dY]. *)
Definition L1DistanceGradientKernel_body (N D : Z)
    (X Y dDistance : ptr F32.float) (i : Z)
    (st : ptr F32.float * ptr F32.float) : ptr F32.float * ptr F32.float :=
  let '(dX, dY) := st in
  let k := CInt.div i D in
  if F32.lt (F32.sub (X i) (Y i)) (F32.neg kEps) then
    (store dX i (F32.neg (dDistance k)), store dY i (dDistance k))
  else if F32.gt (F32.sub (X i) (Y i)) kEps then
    (store dX i (dDistance k), store dY i (F32.neg (dDistance k)))
  else
    (store dX i F32.zero, store dY i F32.zero).

Definition L1DistanceGradientKernel (sched : list Z) (N D : Z)
    (X Y dDistance : ptr F32.float) (st : ptr F32.float * ptr F32.float)
    : ptr F32.float * ptr F32.float :=
  HIP_1D_KERNEL_LOOP sched (N * D)
    (L1DistanceGradientKernel_body N D X Y dDistance) st.

(** *** The gradient operators *)

(** Modelled from the spec: [math::Sub], [math::Scale], [math::Sqrt]
    and [math::Div] of caffe2/utils/math are not part of the sources at
    hand.  They are the element-wise difference behind "elementwise
    (X - Y)", the scaling by a constant behind "the Y-side gradient is
    the negation of the X-side", and the element-wise square root and
    quotient of the norms in the cosine gradient. *)
Definition math_Sub (N : Z) (a b y : ptr F32.float) : ptr F32.float :=
  fun j => if (0 <=? j) && (j <? N) then F32.sub (a j) (b j) else y j.

Definition math_Scale (N : Z) (alpha : F32.float) (x y : ptr F32.float)
    : ptr F32.float :=
  fun j => if (0 <=? j) && (j <? N) then F32.mul (x j) alpha else y j.

Definition math_Sqrt (N : Z) (x y : ptr F32.float) : ptr F32.float :=
  fun j => if (0 <=? j) && (j <? N) then F32.sqrt (x j) else y j.

Definition math_Div (N : Z) (a b y : ptr F32.float) : ptr F32.float :=
  fun j => if (0 <=? j) && (j <? N) then F32.fdiv (a j) (b j) else y j.

(** [StripedScaleKernel].  [x] and [y] are pointers into one buffer
    [mem], given by their offsets in it: the gradient operator passes
    the same pointer for both, so a thread reads the cell it
    overwrites.  [alpha] belongs to another tensor. *)
Definition StripedScaleKernel (sched : list Z) (N D : Z)
    (alpha : ptr F32.float) (x y : Z) (mem : ptr F32.float)
    : ptr F32.float :=
  HIP_1D_KERNEL_LOOP sched (N * D) (fun i mem =>
    let k := CInt.div i D in
    store mem (y + i) (F32.mul (mem (x + i)) (alpha k))) mem.

(** [SquaredL2DistanceGradientOp<float, HIPContext>::RunOnDevice]: the
    difference is written to [dX], scaled there in place, and its
    negation written to [dY]. *)
Definition SquaredL2DistanceGradientOp_RunOnDevice (sched : list Z)
    (X Y dDistance : Tensor F32.float) (dX_buf dY_buf : ptr F32.float)
    : result (Tensor F32.float * Tensor F32.float) :=
  let N := if ndim X >? 0 then dim32 X 0 else 1 in
  D <- (if N >? 0 then int_div (size X) N else Ok 0) ;;
  CAFFE_ENFORCE (ndim X =? ndim Y) "X.ndim() == Y.ndim()" ;;;
  enforce_same_dims (dims X) (dims Y) "Mismatch on dimensions: " ;;;
  CAFFE_ENFORCE_EQ (ndim dDistance) 1 "dDistance.ndim() == 1" ;;;
  CAFFE_ENFORCE_EQ (dim32 dDistance 0) N "dDistance.dim32(0) == N" ;;;
  let dX := math_Sub (size X) (data X) (data Y) dX_buf in
  let dX := StripedScaleKernel sched N D (data dDistance) 0 0 dX in
  let dY := math_Scale (size X) (F32.of_Z (-1)) dX dY_buf in
  Ok (mkTensor (dims X) dX, mkTensor (dims Y) dY).

(** [L1DistanceGradientOp<float, HIPContext>::RunOnDevice] *)
Definition L1DistanceGradientOp_RunOnDevice (sched : list Z)
    (X Y dDistance : Tensor F32.float) (dX_buf dY_buf : ptr F32.float)
    : result (Tensor F32.float * Tensor F32.float) :=
  let N := if ndim X >? 0 then dim32 X 0 else 1 in
  D <- (if N >? 0 then int_div (size X) N else Ok 0) ;;
  CAFFE_ENFORCE (ndim X =? ndim Y) "X.ndim() == Y.ndim()" ;;;
  enforce_same_dims (dims X) (dims Y) "Mismatch on dimensions: " ;;;
  CAFFE_ENFORCE_EQ (ndim dDistance) 1 "dDistance.ndim() == 1" ;;;
  CAFFE_ENFORCE_EQ (dim32 dDistance 0) N "dDistance.dim32(0) == N" ;;;
  let '(dX, dY) :=
    L1DistanceGradientKernel sched N D (data X) (data Y) (data dDistance)
      (dX_buf, dY_buf) in
  Ok (mkTensor (dims X) dX, mkTensor (dims Y) dY).

(** [DotProductGradientKernel]; the state is the pair of output buffers
    [dX] and [dY]. *)
Definition DotProductGradientKernel (sched : list Z) (N D : Z)
    (X Y dDot : ptr F32.float) (st : ptr F32.float * ptr F32.float)
    : ptr F32.float * ptr F32.float :=
  HIP_1D_KERNEL_LOOP sched (N * D) (fun i '(dX, dY) =>
    let scale := dDot (CInt.div i D) in
    (store dX i (F32.mul (Y i) scale), store dY i (F32.mul (X i) scale)))
  st.

(** [DotProductGradientOp<float, HIPContext>::RunOnDevice] *)
Definition DotProductGradientOp_RunOnDevice (sched : list Z)
    (X Y dDot : Tensor F32.float) (dX_buf dY_buf : ptr F32.float)
    : result (Tensor F32.float * Tensor F32.float) :=
  ND <- (if size X >? 0
         then let N := if ndim X >? 0 then dim32 X 0 else 1 in
              D <- int_div (size X) N ;; Ok (N, D)
         else Ok (0, 0)) ;;
  let '(N, D) := ND in
  CAFFE_ENFORCE (ndim X =? ndim Y) "X.ndim() == Y.ndim()" ;;;
  enforce_same_dims (dims X) (dims Y) "X.dim32(i) == Y.dim32(i)" ;;;
  CAFFE_ENFORCE (ndim dDot =? 1) "dDot.ndim() == 1" ;;;
  CAFFE_ENFORCE (dim32 dDot 0 =? N) "dDot.dim32(0) == N" ;;;
  let '(dX, dY) :=
    DotProductGradientKernel sched N D (data X) (data Y) (data dDot)
      (dX_buf, dY_buf) in
  Ok (mkTensor (dims X) dX, mkTensor (dims Y) dY).

(** [BatchedMul]: [X] has [N * D] elements, [Y] has [N]. *)
Definition BatchedMul (sched : list Z) (N D : Z) (X Y : ptr F32.float)
    (result : ptr F32.float) : ptr F32.float :=
  HIP_1D_KERNEL_LOOP sched (N * D) (fun i result =>
    store result i (F32.mul (X i) (Y (CInt.div i D)))) result.

(** [Scale2AxpyScale].  The operator passes four pointers into its
    scratch buffer; they are given by their offsets in it. *)
Definition Scale2AxpyScale (sched : list Z) (N : Z)
    (scale XY XN result : Z) (aux : ptr F32.float) : ptr F32.float :=
  HIP_1D_KERNEL_LOOP sched N (fun i aux =>
    store aux (result + i)
      (F32.fdiv (F32.mul (F32.neg (aux (scale + i))) (aux (XY + i)))
                (F32.mul (aux (XN + i)) (aux (XN + i))))) aux.

(** [y += x * a] in one expression.  The compiler may contract the
    product and the sum into one fused multiply-add, and the device
    compiler does so by default ([-ffp-contract=fast]); with
    contraction off the product is rounded before it is added.
    [contract] tells which of the two the build does. *)
Definition multiply_add (contract : bool) (x a y : F32.float) : F32.float :=
  if contract then F32.fma x a y else F32.add y (F32.mul x a).

(** [BatchedAxpy]: [Y[i] += X[i] * alpha[i / D]], a thread reading the
    cell it overwrites. *)
Definition BatchedAxpy (contract : bool) (sched : list Z) (N D : Z)
    (alpha X : ptr F32.float) (Y : ptr F32.float) : ptr F32.float :=
  HIP_1D_KERNEL_LOOP sched (N * D) (fun i Y =>
    store Y i (multiply_add contract (X i) (alpha (CInt.div i D)) (Y i))) Y.

(** The orders in which the rows of the three reductions and the
    indices of the six element-wise launches of the cosine gradient
    take effect. *)
Record CosineGradientSchedules : Type := mkCosineGradientSchedules {
  rows_xn : list Z; rows_yn : list Z; rows_xy : list Z;
  mul_dX : list Z; scale_dX : list Z; axpy_dX : list Z;
  mul_dY : list Z; scale_dY : list Z; axpy_dY : list Z
}.

Section GradientOps.
Variable CAFFE_HIP_NUM_THREADS : Z.
Variable BlockReduce_Sum : list F32.float -> F32.float.
Variable fp_contract : bool.

(** [CosineSimilarityGradientOp<float, HIPContext>::RunOnDevice].
    [aux] is the operator's scratch buffer of [6 * N] floats, holding
    [xn], [yn], [xy], [xyn], [scale] and [axpy_scale] one after the
    other; [axpy_scale] is written once for [dX] and again for [dY].
    [fp_contract] is the build's choice for the multiply-add of
    [BatchedAxpy]. *)
Definition CosineSimilarityGradientOp_RunOnDevice
    (s : CosineGradientSchedules) (X Y dCos : Tensor F32.float)
    (dX_buf dY_buf aux_buf : ptr F32.float)
    : result (Tensor F32.float * Tensor F32.float * ptr F32.float) :=
  let dot := DotProductKernel CAFFE_HIP_NUM_THREADS BlockReduce_Sum in
  let N := if ndim X >? 0 then dim32 X 0 else 1 in
  let D := size_from_dim 1 X in
  CAFFE_ENFORCE (ndim X =? ndim Y) "X.ndim() == Y.ndim()" ;;;
  enforce_same_dims (dims X) (dims Y) "X.dim32(i) == Y.dim32(i)" ;;;
  CAFFE_ENFORCE (ndim dCos =? 1) "dCos.ndim() == 1" ;;;
  CAFFE_ENFORCE (dim32 dCos 0 =? N) "dCos.dim32(0) == N" ;;;
  let X_data := data X in
  let Y_data := data Y in
  let dCos_data := data dCos in
  let xn := 0 in
  let yn := N in
  let xy := 2 * N in
  let xyn := 3 * N in
  let scale := 4 * N in
  let axpy_scale := 5 * N in
  (* ||x|| *)
  let aux := at_offset xn (dot (rows_xn s) N D X_data X_data) aux_buf in
  let aux := at_offset xn (math_Maximum N kEps (offset aux xn)) aux in
  let aux := at_offset xn (math_Sqrt N (offset aux xn)) aux in
  (* ||y|| *)
  let aux := at_offset yn (dot (rows_yn s) N D Y_data Y_data) aux in
  let aux := at_offset yn (math_Maximum N kEps (offset aux yn)) aux in
  let aux := at_offset yn (math_Sqrt N (offset aux yn)) aux in
  (* ||x|| * ||y|| *)
  let aux :=
    at_offset xyn (math_Mul N (offset aux xn) (offset aux yn)) aux in
  let aux := at_offset xy (dot (rows_xy s) N D X_data Y_data) aux in
  let aux :=
    at_offset scale (math_Div N dCos_data (offset aux xyn)) aux in
  (* dX *)
  let dX := BatchedMul (mul_dX s) N D Y_data (offset aux scale) dX_buf in
  let aux := Scale2AxpyScale (scale_dX s) N scale xy xn axpy_scale aux in
  let dX :=
    BatchedAxpy fp_contract (axpy_dX s) N D (offset aux axpy_scale) X_data
      dX in
  (* dY *)
  let dY := BatchedMul (mul_dY s) N D X_data (offset aux scale) dY_buf in
  let aux := Scale2AxpyScale (scale_dY s) N scale xy yn axpy_scale aux in
  let dY :=
    BatchedAxpy fp_contract (axpy_dY s) N D (offset aux axpy_scale) Y_data
      dY in
  Ok (mkTensor (dims X) dX, mkTensor (dims Y) dY, aux).

End GradientOps.

End Distance.


(** ** Max pooling with argmax index ([max_pool_with_index_hip.cc]) *)

Module MaxPool.
Import Device Framework.

(** The element types of the kernels and their conversions
    [convert::To<Dtype, float>] and [convert::To<float, Dtype>]. *)
Class Dtype (T : Type) : Type := {
  to_float : T -> F32.float;
  of_float : F32.float -> T
}.

#[export] Instance Dtype_float : Dtype F32.float := {
  to_float x := x;
  of_float x := x
}.

(** Modelled from the spec: [float16] and its conversions
    (caffe2/utils/conversions.h is not part of the sources at hand):
    the "half-precision float" of the data model, IEEE binary16, widened
    exactly and narrowed with rounding to nearest. *)
Inductive float16 : Type := Half (x : spec_float).

Definition half_to_float (h : float16) : F32.float :=
  match h with
  | Half (S754_finite s m e) => binary_round F32.prec F32.emax s m e
  | Half x => x
  end.

Definition float_to_half (x : F32.float) : float16 :=
  match x with
  | S754_finite s m e => Half (binary_round 11 16 s m e)
  | _ => Half x
  end.

#[export] Instance Dtype_float16 : Dtype float16 := {
  to_float := half_to_float;
  of_float := float_to_half
}.

Section Kernels.
Context {T : Type} `{Dtype T}.

(** The body of the two nested window loops: keep the running maximum
    and the flat index at which it was found. *)
Definition scan_cell (bottom_slice : ptr T) (width h w : Z)
    (acc : F32.float * Z) : F32.float * Z :=
  let '(maxval, maxidx) := acc in
  if F32.gt (to_float (bottom_slice (h * width + w))) maxval then
    let maxidx := h * width + w in
    (to_float (bottom_slice maxidx), maxidx)
  else (maxval, maxidx).

Definition scan_window (bottom_slice : ptr T) (width : Z)
    (hstart hend wstart wend : Z) (acc : F32.float * Z) : F32.float * Z :=
  for_range hstart hend (fun h =>
    for_range wstart wend (fun w => scan_cell bottom_slice width h w)) acc.

(** What one thread of [MaxPoolForward] computes for its [index]: the
    value for [top_data[index]] and for [mask[index]].  The bounds of
    the window are computed from the operator's arguments in 32-bit
    [int]; the offsets into the buffers, which stay within the element
    count of a tensor, are exact. *)
Definition MaxPoolForward_cell (bottom_data : ptr T)
    (num channels height width pooled_height pooled_width : Z)
    (kernel_h kernel_w stride_h stride_w pad_h pad_w : Z) (index : Z)
    : T * Z :=
  let pw := CInt.rem index pooled_width in
  let ph := CInt.rem (CInt.div index pooled_width) pooled_height in
  let c := CInt.rem (CInt.div (CInt.div index pooled_width) pooled_height)
             channels in
  let n := CInt.div (CInt.div (CInt.div index pooled_width) pooled_height)
             channels in
  let hstart := CInt.sub (CInt.mul ph stride_h) pad_h in
  let wstart := CInt.sub (CInt.mul pw stride_w) pad_w in
  let hend := CInt.min (CInt.add hstart kernel_h) height in
  let wend := CInt.min (CInt.add wstart kernel_w) width in
  let hstart := CInt.max hstart 0 in
  let wstart := CInt.max wstart 0 in
  let maxval := F32.neg F32.FLT_MAX in
  let maxidx := -1 in
  let bottom_slice :=
    offset bottom_data ((n * channels + c) * height * width) in
  let '(maxval, maxidx) :=
    scan_window bottom_slice width hstart hend wstart wend (maxval, maxidx) in
  (of_float maxval, maxidx).

Definition MaxPoolForward (sched : list Z) (nthreads : Z) (bottom_data : ptr T)
    (num channels height width pooled_height pooled_width : Z)
    (kernel_h kernel_w stride_h stride_w pad_h pad_w : Z)
    (top_data : ptr T) (mask : ptr Z) : ptr T * ptr Z :=
  HIP_1D_KERNEL_LOOP sched nthreads (fun index '(top_data, mask) =>
    let '(v, idx) :=
      MaxPoolForward_cell bottom_data num channels height width
        pooled_height pooled_width kernel_h kernel_w stride_h stride_w
        pad_h pad_w index in
    (store top_data index v, store mask index idx))
  (top_data, mask).

(** What one thread of [MaxPoolBackward] computes for its [index]; the
    range of output cells it visits is computed in 32-bit [int]. *)
Definition MaxPoolBackward_cell (top_diff : ptr T) (mask : ptr Z)
    (num channels height width pooled_height pooled_width : Z)
    (kernel_h kernel_w stride_h stride_w pad_h pad_w : Z) (index : Z) : T :=
  let w := CInt.rem index width in
  let h := CInt.rem (CInt.div index width) height in
  let c := CInt.rem (CInt.div (CInt.div index width) height) channels in
  let n := CInt.div (CInt.div (CInt.div index width) height) channels in
  let phstart :=
    if CInt.add h pad_h <? kernel_h then 0
    else CInt.add
           (CInt.div (CInt.sub (CInt.add h pad_h) kernel_h) stride_h) 1 in
  let phend :=
    CInt.min (CInt.add (CInt.div (CInt.add h pad_h) stride_h) 1)
      pooled_height in
  let pwstart :=
    if CInt.add w pad_w <? kernel_w then 0
    else CInt.add
           (CInt.div (CInt.sub (CInt.add w pad_w) kernel_w) stride_w) 1 in
  let pwend :=
    CInt.min (CInt.add (CInt.div (CInt.add w pad_w) stride_w) 1)
      pooled_width in
  let gradient := F32.zero in
  let offset_ := (n * channels + c) * pooled_height * pooled_width in
  let top_diff_slice := offset top_diff offset_ in
  let mask_slice := offset mask offset_ in
  let gradient :=
    for_range phstart phend (fun ph =>
      for_range pwstart pwend (fun pw gradient =>
        if mask_slice (ph * pooled_width + pw) =? h * width + w then
          F32.add gradient (to_float (top_diff_slice (ph * pooled_width + pw)))
        else gradient)) gradient in
  of_float gradient.

Definition MaxPoolBackward (sched : list Z) (nthreads : Z)
    (top_diff : ptr T) (mask : ptr Z)
    (num channels height width pooled_height pooled_width : Z)
    (kernel_h kernel_w stride_h stride_w pad_h pad_w : Z)
    (bottom_diff : ptr T) : ptr T :=
  HIP_1D_KERNEL_LOOP sched nthreads (fun index bottom_diff =>
    store bottom_diff index
      (MaxPoolBackward_cell top_diff mask num channels height width
         pooled_height pooled_width kernel_h kernel_w stride_h stride_w
         pad_h pad_w index))
  bottom_diff.

End Kernels.

(** *** The operators *)

(** A blob of the workspace: a tensor together with the type of its
    elements. *)
Inductive Blob : Type :=
  | FloatBlob (t : Tensor F32.float)
  | Float16Blob (t : Tensor float16)
  | Int32Blob (t : Tensor Z)
  | DoubleBlob (t : Tensor spec_float).

Definition blob_dims (b : Blob) : list Z :=
  match b with
  | FloatBlob t => dims t
  | Float16Blob t => dims t
  | Int32Blob t => dims t
  | DoubleBlob t => dims t
  end.

Definition blob_ndim (b : Blob) : Z := Z.of_nat (length (blob_dims b)).

(** The configuration [ConvPoolOpBase] keeps for the operator. *)
Record PoolArgs : Type := mkPoolArgs {
  kernel_h : Z; kernel_w : Z;
  stride_h : Z; stride_w : Z;
  pad_t : Z; pad_l : Z; pad_b : Z; pad_r : Z
}.

(** Modelled from the spec: [ConvPoolOpBase::SetOutputSize] is not part
    of the sources at hand; "output spatial size =
    floor((input + pad_total - kernel)/stride) + 1". *)
Definition pooled_size (input pad_total kernel stride : Z) : Z :=
  (input + pad_total - kernel) / stride + 1.

Definition SetOutputSize (a : PoolArgs) (xdims : list Z) : list Z :=
  [nth 0 xdims 0; nth 1 xdims 0;
   pooled_size (nth 2 xdims 0) (pad_t a + pad_b a) (kernel_h a) (stride_h a);
   pooled_size (nth 3 xdims 0) (pad_l a + pad_r a) (kernel_w a) (stride_w a)].

(** The buffers an operator may write. *)
Record Outputs : Type := mkOutputs {
  out_Y : Blob;
  out_mask : Tensor Z
}.

Section Operators.
Variable a : PoolArgs.

(** [MaxPoolWithIndexOp::DoRunWithType<T>] *)
Definition DoRunWithType {T} `{Dtype T} (sched : list Z)
    (X : Tensor T) (Y_buf : ptr T) (mask_buf : ptr Z)
    : Tensor T * Tensor Z :=
  let ydims := SetOutputSize a (dims X) in
  let output_size := fold_right Z.mul 1 ydims in
  let '(top, mask) :=
    MaxPoolForward sched output_size (data X)
      (dim32 X 0) (dim32 X 1) (dim32 X 2) (dim32 X 3)
      (nth 2 ydims 0) (nth 3 ydims 0)
      (kernel_h a) (kernel_w a) (stride_h a) (stride_w a) (pad_t a) (pad_l a)
      Y_buf mask_buf in
  (mkTensor ydims top, mkTensor [output_size] mask).

(** [MaxPoolWithIndexOp::RunOnDevice]: the outputs are given as they
    were before the call; a failed run returns no outputs. *)
Definition MaxPoolWithIndexOp_RunOnDevice (sched : list Z)
    (X : Blob) (Y_buf32 : ptr F32.float) (Y_buf16 : ptr float16)
    (mask_buf : ptr Z) : result Outputs :=
  CAFFE_ENFORCE (blob_ndim X =? 4) "Operator only supports 4D tensors" ;;;
  match X with
  | FloatBlob t =>
      let '(Y, mask) := DoRunWithType sched t Y_buf32 mask_buf in
      Ok (mkOutputs (FloatBlob Y) mask)
  | Float16Blob t =>
      let '(Y, mask) := DoRunWithType sched t Y_buf16 mask_buf in
      Ok (mkOutputs (Float16Blob Y) mask)
  | _ => CAFFE_THROW "Unsupported input type"
  end.

(** [MaxPoolWithIndexGradientOp::DoRunWithType<T>] *)
Definition GradientDoRunWithType {T} `{Dtype T} (sched : list Z)
    (X dY : Tensor T) (mask : Tensor Z) (dX_buf : ptr T)
    : result (Tensor T) :=
  CAFFE_ENFORCE (ndim X =? 4) "Operator only supports 4D tensors" ;;;
  Ok (mkTensor (dims X)
        (MaxPoolBackward sched (size X) (data dY) (data mask)
           (dim32 X 0) (dim32 X 1) (dim32 X 2) (dim32 X 3)
           (dim32 dY 2) (dim32 dY 3)
           (kernel_h a) (kernel_w a) (stride_h a) (stride_w a)
           (pad_t a) (pad_l a) dX_buf)).

(** [MaxPoolWithIndexGradientOp::RunOnDevice]: [dY] has the element
    type of [X]. *)
Definition MaxPoolWithIndexGradientOp_RunOnDevice (sched : list Z)
    (X : Blob) (dY32 : Tensor F32.float) (dY16 : Tensor float16)
    (mask : Tensor Z) (dX_buf32 : ptr F32.float) (dX_buf16 : ptr float16)
    : result Blob :=
  match X with
  | FloatBlob t =>
      dX <- GradientDoRunWithType sched t dY32 mask dX_buf32 ;;
      Ok (FloatBlob dX)
  | Float16Blob t =>
      dX <- GradientDoRunWithType sched t dY16 mask dX_buf16 ;;
      Ok (Float16Blob dX)
  | _ => CAFFE_THROW "Unsupported input type"
  end.

End Operators.

End MaxPool.

(** ** Image padding ([pad_op_hip.cc]) *)

Module PadOp.
Import Device Framework.

Inductive PadMode : Type := CONSTANT | REFLECT | EDGE.

Section Kernels.
Context {T : Type}.

(** The reflection both reflect kernels apply to a coordinate:
    [h = max(h, -h); h = min(h, 2 * height - h - 2);] *)
Definition reflect_coord (h height : Z) : Z :=
  let h := CInt.max h (- h) in
  CInt.min h (2 * height - h - 2).

(** The clamp of the edge kernels: [min(height - 1, max(ph - pad_t, 0))]. *)
Definition edge_coord (h height : Z) : Z :=
  CInt.min (height - 1) (CInt.max h 0).

(** *** Reflect mode, forward: the value a thread stores at [index],
    in the NCHW layout *)

Definition PadImageReflectNCHW_cell (bottom_data : ptr T)
    (num channels height width padded_height padded_width pad_t pad_l : Z)
    (index : Z) : T :=
  let nc := CInt.div index padded_width in
  let pw := CInt.rem index padded_width in
  let ph := CInt.rem nc padded_height in
  let nc := CInt.div nc padded_height in
  let h := ph - pad_t in
  let w := pw - pad_l in
  let h := reflect_coord h height in
  let w := reflect_coord w width in
  bottom_data ((nc * height + h) * width + w).

(** and in the NHWC layout. *)

Definition PadImageReflectNHWC_cell (bottom_data : ptr T)
    (num height width channels padded_height padded_width pad_t pad_l : Z)
    (index : Z) : T :=
  let n := CInt.div index channels in
  let c := CInt.rem index channels in
  let pw := CInt.rem n padded_width in
  let n := CInt.div n padded_width in
  let ph := CInt.rem n padded_height in
  let n := CInt.div n padded_height in
  let h := ph - pad_t in
  let w := pw - pad_l in
  let h := reflect_coord h height in
  let w := reflect_coord w width in
  bottom_data (((n * height + h) * width + w) * channels + c).

(** A forward kernel: every thread stores its value at [top_data[index]]. *)
Definition forward_kernel (cell : Z -> T) (sched : list Z) (nthreads : Z)
    (top_data : ptr T) : ptr T :=
  HIP_1D_KERNEL_LOOP sched nthreads (fun index top_data =>
    store top_data index (cell index)) top_data.

Definition PadImageReflectNCHW sched nthreads bottom_data
    num channels height width padded_height padded_width pad_t pad_l
    top_data : ptr T :=
  forward_kernel
    (PadImageReflectNCHW_cell bottom_data num channels height width
       padded_height padded_width pad_t pad_l)
    sched nthreads top_data.

Definition PadImageReflectNHWC sched nthreads bottom_data
    num height width channels padded_height padded_width pad_t pad_l
    top_data : ptr T :=
  forward_kernel
    (PadImageReflectNHWC_cell bottom_data num height width channels
       padded_height padded_width pad_t pad_l)
    sched nthreads top_data.

(** *** Gradient kernels, NCHW *)

(** The addition [atomicAdd] performs on [T]. *)
Variable add : T -> T -> T.

Definition atomicAdd (p : ptr T) (address : Z) (val : T) : ptr T :=
  store p address (add (p address) val).

(** Constant mode gathers: thread [index] of the input-gradient reads
    the one padded cell that lies over it. *)
Definition PadImageGradientConstNCHW_cell (top_diff : ptr T)
    (num channels height width padded_height padded_width pad_t pad_l : Z)
    (index : Z) : T :=
  let nc := CInt.div index width in
  let pw := CInt.rem index width + pad_l in
  let ph := CInt.rem nc height + pad_t in
  let nc := CInt.div nc height in
  top_diff ((nc * padded_height + ph) * padded_width + pw).

Definition PadImageGradientConstNCHW sched (nthreads : Z) top_diff
    num channels height width padded_height padded_width pad_t pad_l
    (bottom_diff : ptr T) : ptr T :=
  HIP_1D_KERNEL_LOOP sched nthreads (fun index bottom_diff =>
    store bottom_diff index
      (PadImageGradientConstNCHW_cell top_diff num channels height width
         padded_height padded_width pad_t pad_l index)) bottom_diff.

(** Reflect and edge modes scatter: thread [index] of the padded
    gradient adds its value to the input cell it was copied from. *)
Definition PadImageGradientReflectNCHW_target
    (num channels height width padded_height padded_width pad_t pad_l : Z)
    (index : Z) : Z :=
  let nc := CInt.div index padded_width in
  let pw := CInt.rem index padded_width in
  let ph := CInt.rem nc padded_height in
  let nc := CInt.div nc padded_height in
  let h := ph - pad_t in
  let w := pw - pad_l in
  let h := reflect_coord h height in
  let w := reflect_coord w width in
  (nc * height + h) * width + w.

Definition PadImageGradientEdgeNCHW_target
    (num channels height width padded_height padded_width pad_t pad_l : Z)
    (index : Z) : Z :=
  let nc := CInt.div index padded_width in
  let pw := CInt.rem index padded_width in
  let ph := CInt.rem nc padded_height in
  let nc := CInt.div nc padded_height in
  let h := edge_coord (ph - pad_t) height in
  let w := edge_coord (pw - pad_l) width in
  (nc * height + h) * width + w.

Definition PadImageGradientReflectNCHW sched (nthreads : Z) (top_diff : ptr T)
    num channels height width padded_height padded_width pad_t pad_l
    (bottom_diff : ptr T) : ptr T :=
  HIP_1D_KERNEL_LOOP sched nthreads (fun index bottom_diff =>
    atomicAdd bottom_diff
      (PadImageGradientReflectNCHW_target num channels height width
         padded_height padded_width pad_t pad_l index)
      (top_diff index)) bottom_diff.

Definition PadImageGradientEdgeNCHW sched (nthreads : Z) (top_diff : ptr T)
    num channels height width padded_height padded_width pad_t pad_l
    (bottom_diff : ptr T) : ptr T :=
  HIP_1D_KERNEL_LOOP sched nthreads (fun index bottom_diff =>
    atomicAdd bottom_diff
      (PadImageGradientEdgeNCHW_target num channels height width
         padded_height padded_width pad_t pad_l index)
      (top_diff index)) bottom_diff.

End Kernels.

(** *** The gradient operator *)

Record PadArgs : Type := mkPadArgs {
  mode_ : PadMode;
  pad_t : Z; pad_l : Z; pad_b : Z; pad_r : Z
}.

(** [PadImageGradientOp<float, HIPContext>::RunOnDeviceWithOrderNCHW].
    The launch is over the cells of [dX] in constant mode and over the
    cells of [dY] in the other two modes. *)
Definition PadImageGradientOp_RunOnDeviceWithOrderNCHW (a : PadArgs)
    (sched : list Z) (dY : Tensor F32.float) (dX_buf : ptr F32.float)
    : Tensor F32.float :=
  let dX_dims :=
    [dim32 dY 0; dim32 dY 1;
     dim32 dY 2 - pad_t a - pad_b a; dim32 dY 3 - pad_l a - pad_r a] in
  let input_size := size dY in
  let padded_height := dim32 dY 2 in
  let padded_width := dim32 dY 3 in
  let output_size := fold_right Z.mul 1 dX_dims in
  let num := nth 0 dX_dims 0 in
  let channels := nth 1 dX_dims 0 in
  let height := nth 2 dX_dims 0 in
  let width := nth 3 dX_dims 0 in
  let dYdata := data dY in
  let dXdata := math_Set output_size F32.zero dX_buf in
  mkTensor dX_dims
    match mode_ a with
    | CONSTANT =>
        PadImageGradientConstNCHW sched output_size dYdata
          num channels height width padded_height padded_width
          (pad_t a) (pad_l a) dXdata
    | REFLECT =>
        PadImageGradientReflectNCHW F32.add sched input_size dYdata
          num channels height width padded_height padded_width
          (pad_t a) (pad_l a) dXdata
    | EDGE =>
        PadImageGradientEdgeNCHW F32.add sched input_size dYdata
          num channels height width padded_height padded_width
          (pad_t a) (pad_l a) dXdata
    end.

(** *** Constant and edge mode, forward *)

Section ForwardKernels.
Context {T : Type}.

Definition PadImageConstNCHW_cell (bottom_data : ptr T)
    (num channels height width padded_height padded_width pad_t pad_l : Z)
    (value : T) (index : Z) : T :=
  let nc := CInt.div index padded_width in
  let pw := CInt.rem index padded_width in
  let ph := CInt.rem nc padded_height in
  let nc := CInt.div nc padded_height in
  let h := ph - pad_t in
  let w := pw - pad_l in
  if (h <? 0) || (w <? 0) || (h >=? height) || (w >=? width)
  then value
  else bottom_data ((nc * height + h) * width + w).

Definition PadImageEdgeNCHW_cell (bottom_data : ptr T)
    (num channels height width padded_height padded_width pad_t pad_l : Z)
    (index : Z) : T :=
  let nc := CInt.div index padded_width in
  let pw := CInt.rem index padded_width in
  let ph := CInt.rem nc padded_height in
  let nc := CInt.div nc padded_height in
  let h := edge_coord (ph - pad_t) height in
  let w := edge_coord (pw - pad_l) width in
  bottom_data ((nc * height + h) * width + w).

Definition PadImageConstNHWC_cell (bottom_data : ptr T)
    (num height width channels padded_height padded_width pad_t pad_l : Z)
    (value : T) (index : Z) : T :=
  let n := CInt.div index channels in
  let c := CInt.rem index channels in
  let pw := CInt.rem n padded_width in
  let n := CInt.div n padded_width in
  let ph := CInt.rem n padded_height in
  let n := CInt.div n padded_height in
  let h := ph - pad_t in
  let w := pw - pad_l in
  if (h <? 0) || (w <? 0) || (h >=? height) || (w >=? width)
  then value
  else bottom_data (((n * height + h) * width + w) * channels + c).

Definition PadImageEdgeNHWC_cell (bottom_data : ptr T)
    (num height width channels padded_height padded_width pad_t pad_l : Z)
    (index : Z) : T :=
  let n := CInt.div index channels in
  let c := CInt.rem index channels in
  let pw := CInt.rem n padded_width in
  let n := CInt.div n padded_width in
  let ph := CInt.rem n padded_height in
  let n := CInt.div n padded_height in
  let h := edge_coord (ph - pad_t) height in
  let w := edge_coord (pw - pad_l) width in
  bottom_data (((n * height + h) * width + w) * channels + c).

Definition PadImageConstNCHW sched nthreads bottom_data
    num channels height width padded_height padded_width pad_t pad_l
    value top_data : ptr T :=
  forward_kernel
    (PadImageConstNCHW_cell bottom_data num channels height width
       padded_height padded_width pad_t pad_l value)
    sched nthreads top_data.

Definition PadImageEdgeNCHW sched nthreads bottom_data
    num channels height width padded_height padded_width pad_t pad_l
    top_data : ptr T :=
  forward_kernel
    (PadImageEdgeNCHW_cell bottom_data num channels height width
       padded_height padded_width pad_t pad_l)
    sched nthreads top_data.

Definition PadImageConstNHWC sched nthreads bottom_data
    num height width channels padded_height padded_width pad_t pad_l
    value top_data : ptr T :=
  forward_kernel
    (PadImageConstNHWC_cell bottom_data num height width channels
       padded_height padded_width pad_t pad_l value)
    sched nthreads top_data.

Definition PadImageEdgeNHWC sched nthreads bottom_data
    num height width channels padded_height padded_width pad_t pad_l
    top_data : ptr T :=
  forward_kernel
    (PadImageEdgeNHWC_cell bottom_data num height width channels
       padded_height padded_width pad_t pad_l)
    sched nthreads top_data.

(** *** Gradient kernels, NHWC *)

Variable add : T -> T -> T.

Definition PadImageGradientConstNHWC_cell (top_diff : ptr T)
    (num height width channels padded_height padded_width pad_t pad_l : Z)
    (index : Z) : T :=
  let n := CInt.div index channels in
  let c := CInt.rem index channels in
  let pw := CInt.rem n width + pad_l in
  let n := CInt.div n width in
  let ph := CInt.rem n height + pad_t in
  let n := CInt.div n height in
  top_diff (((n * padded_height + ph) * padded_width + pw) * channels + c).

Definition PadImageGradientConstNHWC sched (nthreads : Z) top_diff
    num height width channels padded_height padded_width pad_t pad_l
    (bottom_diff : ptr T) : ptr T :=
  HIP_1D_KERNEL_LOOP sched nthreads (fun index bottom_diff =>
    store bottom_diff index
      (PadImageGradientConstNHWC_cell top_diff num height width channels
         padded_height padded_width pad_t pad_l index)) bottom_diff.

Definition PadImageGradientReflectNHWC_target
    (num height width channels padded_height padded_width pad_t pad_l : Z)
    (index : Z) : Z :=
  let n := CInt.div index channels in
  let c := CInt.rem index channels in
  let pw := CInt.rem n padded_width in
  let n := CInt.div n padded_width in
  let ph := CInt.rem n padded_height in
  let n := CInt.div n padded_height in
  let h := ph - pad_t in
  let w := pw - pad_l in
  let h := reflect_coord h height in
  let w := reflect_coord w width in
  ((n * height + h) * width + w) * channels + c.

Definition PadImageGradientEdgeNHWC_target
    (num height width channels padded_height padded_width pad_t pad_l : Z)
    (index : Z) : Z :=
  let n := CInt.div index channels in
  let c := CInt.rem index channels in
  let pw := CInt.rem n padded_width in
  let n := CInt.div n padded_width in
  let ph := CInt.rem n padded_height in
  let n := CInt.div n padded_height in
  let h := edge_coord (ph - pad_t) height in
  let w := edge_coord (pw - pad_l) width in
  ((n * height + h) * width + w) * channels + c.

Definition PadImageGradientReflectNHWC sched (nthreads : Z) (top_diff : ptr T)
    num height width channels padded_height padded_width pad_t pad_l
    (bottom_diff : ptr T) : ptr T :=
  HIP_1D_KERNEL_LOOP sched nthreads (fun index bottom_diff =>
    atomicAdd add bottom_diff
      (PadImageGradientReflectNHWC_target num height width channels
         padded_height padded_width pad_t pad_l index)
      (top_diff index)) bottom_diff.

Definition PadImageGradientEdgeNHWC sched (nthreads : Z) (top_diff : ptr T)
    num height width channels padded_height padded_width pad_t pad_l
    (bottom_diff : ptr T) : ptr T :=
  HIP_1D_KERNEL_LOOP sched nthreads (fun index bottom_diff =>
    atomicAdd add bottom_diff
      (PadImageGradientEdgeNHWC_target num height width channels
         padded_height padded_width pad_t pad_l index)
      (top_diff index)) bottom_diff.

End ForwardKernels.

(** *** The forward operator *)

Section ForwardOp.

(** [ConvPoolOpBase<HIPContext>::SetOutputSize(X, Y, channels)] is not
    part of the sources at hand: the shape it gives [Y], as a function
    of the shape of [X] and of the channel count. *)
Variable SetOutputSize : list Z -> Z -> list Z.

(** [PadImageOp<float, HIPContext>::RunOnDeviceWithOrderNCHW] *)
Definition PadImageOp_RunOnDeviceWithOrderNCHW (a : PadArgs)
    (value_ : F32.float) (sched : list Z) (X : Tensor F32.float)
    (Y_buf : ptr F32.float) : Tensor F32.float :=
  let num := dim32 X 0 in
  let channels := dim32 X 1 in
  let height := dim32 X 2 in
  let width := dim32 X 3 in
  let Y_dims := SetOutputSize (dims X) channels in
  let output_size := fold_right Z.mul 1 Y_dims in
  let padded_height := nth 2 Y_dims 0 in
  let padded_width := nth 3 Y_dims 0 in
  let Xdata := data X in
  mkTensor Y_dims
    match mode_ a with
    | CONSTANT =>
        PadImageConstNCHW sched output_size Xdata
          num channels height width padded_height padded_width
          (pad_t a) (pad_l a) value_ Y_buf
    | REFLECT =>
        PadImageReflectNCHW sched output_size Xdata
          num channels height width padded_height padded_width
          (pad_t a) (pad_l a) Y_buf
    | EDGE =>
        PadImageEdgeNCHW sched output_size Xdata
          num channels height width padded_height padded_width
          (pad_t a) (pad_l a) Y_buf
    end.

(** [PadImageOp<float, HIPContext>::RunOnDeviceWithOrderNHWC] *)
Definition PadImageOp_RunOnDeviceWithOrderNHWC (a : PadArgs)
    (value_ : F32.float) (sched : list Z) (X : Tensor F32.float)
    (Y_buf : ptr F32.float) : Tensor F32.float :=
  let num := dim32 X 0 in
  let height := dim32 X 1 in
  let width := dim32 X 2 in
  let channels := dim32 X 3 in
  let Y_dims := SetOutputSize (dims X) channels in
  let output_size := fold_right Z.mul 1 Y_dims in
  let padded_height := nth 1 Y_dims 0 in
  let padded_width := nth 2 Y_dims 0 in
  let Xdata := data X in
  mkTensor Y_dims
    match mode_ a with
    | CONSTANT =>
        PadImageConstNHWC sched output_size Xdata
          num height width channels padded_height padded_width
          (pad_t a) (pad_l a) value_ Y_buf
    | REFLECT =>
        PadImageReflectNHWC sched output_size Xdata
          num height width channels padded_height padded_width
          (pad_t a) (pad_l a) Y_buf
    | EDGE =>
        PadImageEdgeNHWC sched output_size Xdata
          num height width channels padded_height padded_width
          (pad_t a) (pad_l a) Y_buf
    end.

End ForwardOp.

(** [PadImageGradientOp<float, HIPContext>::RunOnDeviceWithOrderNHWC] *)
Definition PadImageGradientOp_RunOnDeviceWithOrderNHWC (a : PadArgs)
    (sched : list Z) (dY : Tensor F32.float) (dX_buf : ptr F32.float)
    : Tensor F32.float :=
  let dX_dims :=
    [dim32 dY 0; dim32 dY 1 - pad_t a - pad_b a;
     dim32 dY 2 - pad_l a - pad_r a; dim32 dY 3] in
  let input_size := size dY in
  let padded_height := dim32 dY 1 in
  let padded_width := dim32 dY 2 in
  let output_size := fold_right Z.mul 1 dX_dims in
  let num := nth 0 dX_dims 0 in
  let height := nth 1 dX_dims 0 in
  let width := nth 2 dX_dims 0 in
  let channels := nth 3 dX_dims 0 in
  let dYdata := data dY in
  let dXdata := math_Set output_size F32.zero dX_buf in
  mkTensor dX_dims
    match mode_ a with
    | CONSTANT =>
        PadImageGradientConstNHWC sched output_size dYdata
          num height width channels padded_height padded_width
          (pad_t a) (pad_l a) dXdata
    | REFLECT =>
        PadImageGradientReflectNHWC F32.add sched input_size dYdata
          num height width channels padded_height padded_width
          (pad_t a) (pad_l a) dXdata
    | EDGE =>
        PadImageGradientEdgeNHWC F32.add sched input_size dYdata
          num height width channels padded_height padded_width
          (pad_t a) (pad_l a) dXdata
    end.

End PadOp.


(** * Part II: properties *)

(** ** Integer facts *)

Module CIntFacts.
Import CInt.

Lemma div_nonneg a b : 0 <= a -> 0 < b -> div a b = a / b.
Proof. intros; unfold div; apply Z.quot_div_nonneg; lia. Qed.

Lemma rem_nonneg a b : 0 <= a -> 0 < b -> rem a b = a mod b.
Proof. intros; unfold rem; apply Z.rem_mod_nonneg; lia. Qed.

Lemma min_spec a b : min a b = Z.min a b.
Proof. unfold min; destruct (Z.ltb_spec a b); lia. Qed.

Lemma max_spec a b : max a b = Z.max a b.
Proof. unfold max; destruct (Z.ltb_spec a b); lia. Qed.

(** A value inside the range of [int] is what the register holds. *)
Lemma wrap_fits x : fits x -> wrap x = x.
Proof.
  unfold fits, INT_MIN, INT_MAX, wrap. intros Hx.
  rewrite Z.mod_small by lia. lia.
Qed.

Lemma add_fits a b : fits (a + b) -> add a b = a + b.
Proof. apply wrap_fits. Qed.

Lemma sub_fits a b : fits (a - b) -> sub a b = a - b.
Proof. apply wrap_fits. Qed.

Lemma mul_fits a b : fits (a * b) -> mul a b = a * b.
Proof. apply wrap_fits. Qed.

(** Decomposition of a flat index [q * d + r] with [0 <= r < d]. *)
Lemma div_flat q r d : 0 <= q -> 0 <= r < d -> div (q * d + r) d = q.
Proof.
  intros Hq Hr. rewrite div_nonneg by nia.
  symmetry; apply Z.div_unique with r; lia.
Qed.

Lemma rem_flat q r d : 0 <= q -> 0 <= r < d -> rem (q * d + r) d = r.
Proof.
  intros Hq Hr. rewrite rem_nonneg by nia.
  symmetry; apply Z.mod_unique with q; lia.
Qed.

Lemma flat_inj q r q' r' d :
  0 <= r < d -> 0 <= r' < d -> q * d + r = q' * d + r' -> q = q' /\ r = r'.
Proof.
  intros Hr Hr' E.
  assert (q = q'); [|split; [assumption | subst; lia]].
  rewrite (Z.div_unique (q * d + r) d q r) by lia.
  rewrite E. symmetry. apply Z.div_unique with r'; lia.
Qed.

(** The coordinates of a flat index, as the kernels recover them. *)
Lemma decompose3 a b c B C :
  0 <= a -> 0 <= b < B -> 0 <= c < C ->
  let index := (a * B + b) * C + c in
  rem index C = c /\
  rem (div index C) B = b /\
  div (div index C) B = a.
Proof.
  intros Ha Hb Hc index; unfold index.
  assert (0 <= a * B + b) by nia.
  repeat first [ rewrite rem_flat by assumption
               | rewrite div_flat by assumption ].
  repeat split.
Qed.

Lemma decompose4 a b c d B C D :
  0 <= a -> 0 <= b < B -> 0 <= c < C -> 0 <= d < D ->
  let index := ((a * B + b) * C + c) * D + d in
  rem index D = d /\
  rem (div index D) C = c /\
  rem (div (div index D) C) B = b /\
  div (div (div index D) C) B = a.
Proof.
  intros Ha Hb Hc Hd index; unfold index.
  assert (0 <= a * B + b) by nia.
  assert (0 <= (a * B + b) * C + c) by nia.
  repeat first [ rewrite rem_flat by assumption
               | rewrite div_flat by assumption ].
  repeat split.
Qed.

Lemma flat_bound a b c d A B C D :
  0 <= a < A -> 0 <= b < B -> 0 <= c < C -> 0 <= d < D ->
  0 <= ((a * B + b) * C + c) * D + d < A * B * C * D.
Proof.
  intros Ha Hb Hc Hd.
  assert (0 <= a * B + b < A * B) by nia.
  assert (0 <= (a * B + b) * C + c < A * B * C) by nia.
  nia.
Qed.

End CIntFacts.

(** ** Generic facts about kernel loops *)

Module KernelLemmas.
Import Device.

Lemma in_iota n i : In i (iota n) <-> 0 <= i < n.
Proof.
  unfold iota; rewrite in_map_iff; split.
  - intros (k & <- & Hk); apply in_seq in Hk; lia.
  - intros Hi; exists (Z.to_nat i); split; [lia | apply in_seq; lia].
Qed.

Lemma in_schedule n sched i :
  is_schedule n sched -> (In i sched <-> 0 <= i < n).
Proof.
  intros H; rewrite <- in_iota; split; apply Permutation_in;
    [assumption | now apply Permutation_sym].
Qed.

Lemma iota_schedule n : is_schedule n (iota n).
Proof. apply Permutation_refl. Qed.

Lemma rev_iota_schedule n : is_schedule n (rev (iota n)).
Proof. apply Permutation_sym, Permutation_rev. Qed.

(** Every index of a schedule passes the loop test. *)
Lemma kernel_loop_schedule {S} n sched (body : Z -> S -> S) s :
  is_schedule n sched ->
  HIP_1D_KERNEL_LOOP sched n body s = run_iterations sched body s.
Proof.
  intros Hs. unfold HIP_1D_KERNEL_LOOP. f_equal.
  assert (Hall : forall i, In i sched -> (i <? n) = true).
  { intros i Hi. apply (in_schedule n sched i Hs) in Hi.
    apply Z.ltb_lt; lia. }
  clear Hs. induction sched as [|i sched IH]; simpl; [reflexivity|].
  rewrite (Hall i) by (simpl; auto). f_equal.
  apply IH; intros; apply Hall; simpl; auto.
Qed.

(** A loop whose iterations each store the same value [v] at an address
    [t i]: afterwards an address holds [v] when some iteration targets
    it, and its initial value otherwise, whatever the schedule. *)
Lemma loop_store_const {T} (t : Z -> Z) (v : T) sched (p : ptr T) a :
  run_iterations sched (fun i q => store q (t i) v) p a =
  if existsb (fun i => a =? t i) sched then v else p a.
Proof.
  unfold run_iterations; revert p.
  induction sched as [|i sched IH]; intros p; simpl; [reflexivity|].
  rewrite IH; unfold store.
  destruct (a =? t i); simpl; [|reflexivity].
  now destruct (existsb _ sched).
Qed.

(** A loop whose iteration [i] overwrites cell [i] of the observed
    state with a value [g i] that does not depend on the state. *)
Lemma loop_gather {S V} (obs : S -> Z -> V) (g : Z -> V)
    (body : Z -> S -> S) :
  (forall i s j, obs (body i s) j = if j =? i then g i else obs s j) ->
  forall sched s j,
    obs (run_iterations sched body s) j =
    if existsb (Z.eqb j) sched then g j else obs s j.
Proof.
  intros Hbody; unfold run_iterations.
  induction sched as [|i sched IH]; intros s j; simpl; [reflexivity|].
  rewrite IH, Hbody.
  destruct (Z.eqb_spec j i) as [->|]; simpl; [|reflexivity].
  now destruct (existsb _ sched).
Qed.

Lemma existsb_schedule n sched j :
  is_schedule n sched ->
  existsb (Z.eqb j) sched = (0 <=? j) && (j <? n).
Proof.
  intros Hs. apply eq_true_iff_eq.
  rewrite existsb_exists, andb_true_iff, Z.leb_le, Z.ltb_lt; split.
  - intros (i & Hi & He); apply Z.eqb_eq in He; subst i.
    now apply (in_schedule n sched j Hs).
  - intros Hj; exists j; split; [now apply (in_schedule n sched j Hs)|].
    apply Z.eqb_refl.
Qed.

Lemma loop_gather_schedule {S V} (obs : S -> Z -> V) (g : Z -> V)
    (body : Z -> S -> S) n sched s j :
  (forall i s j, obs (body i s) j = if j =? i then g i else obs s j) ->
  is_schedule n sched -> 0 <= j < n ->
  obs (HIP_1D_KERNEL_LOOP sched n body s) j = g j.
Proof.
  intros Hbody Hs Hj. rewrite kernel_loop_schedule by assumption.
  rewrite (loop_gather obs g body Hbody), (existsb_schedule n) by assumption.
  replace ((0 <=? j) && (j <? n)) with true; [reflexivity|].
  symmetry; apply andb_true_iff; split; [apply Z.leb_le | apply Z.ltb_lt]; lia.
Qed.

End KernelLemmas.

(** ** The order of binary32 values *)

Module F32Facts.
Import F32.

(** Every value that is not a NaN has a rank in a lexicographic order
    of integer triples; the two zeros share a rank. *)
Definition rank (x : float) : option (Z * Z * Z) :=
  match x with
  | S754_nan => None
  | S754_infinity true => Some (-2, 0, 0)
  | S754_finite true m e => Some (-1, - e, Z.neg m)
  | S754_zero _ => Some (0, 0, 0)
  | S754_finite false m e => Some (1, e, Z.pos m)
  | S754_infinity false => Some (2, 0, 0)
  end.

Definition lex_lt (a b : Z * Z * Z) : Prop :=
  let '(a1, a2, a3) := a in
  let '(b1, b2, b3) := b in
  a1 < b1 \/ (a1 = b1 /\ (a2 < b2 \/ (a2 = b2 /\ a3 < b3))).

Definition lex_le (a b : Z * Z * Z) : Prop := lex_lt a b \/ a = b.

Lemma lex_lt_trans a b c : lex_lt a b -> lex_lt b c -> lex_lt a c.
Proof.
  destruct a as [[a1 a2] a3], b as [[b1 b2] b3], c as [[c1 c2] c3];
    unfold lex_lt; lia.
Qed.

Lemma lex_le_lt_trans a b c : lex_le a b -> lex_lt b c -> lex_lt a c.
Proof.
  intros [H| ->] H'; [eapply lex_lt_trans; eassumption | assumption].
Qed.

Lemma lex_lt_irrefl a : ~ lex_lt a a.
Proof. destruct a as [[a1 a2] a3]; unfold lex_lt; lia. Qed.

(** [SFcompare] is the comparison of ranks. *)
Lemma compare_rank x y :
  match SFcompare x y with
  | None => rank x = None \/ rank y = None
  | Some c =>
      exists a b, rank x = Some a /\ rank y = Some b /\
        match c with
        | Lt => lex_lt a b
        | Eq => a = b
        | Gt => lex_lt b a
        end
  end.
Proof.
  destruct x as [sx|sx| |sx mx ex], y as [sy|sy| |sy my ey]; simpl;
    try (now left); try (now right);
    try (destruct sx); try (destruct sy); simpl;
    try (eexists; eexists; split; [reflexivity|split; [reflexivity|]];
         simpl; lia);
    try (eexists; eexists; split; [reflexivity|split; [reflexivity|]];
         reflexivity).
  - eexists; eexists; split; [reflexivity|split; [reflexivity|]].
    change (Pos.compare_cont Eq mx my) with (mx ?= my)%positive.
    destruct (Z.compare_spec ex ey); simpl; try lia.
    destruct (Pos.compare_spec mx my); simpl; try lia.
    subst; reflexivity.
  - eexists; eexists; split; [reflexivity|split; [reflexivity|]].
    change (Pos.compare_cont Eq mx my) with (mx ?= my)%positive.
    destruct (Z.compare_spec ex ey); simpl; try lia.
    destruct (Pos.compare_spec mx my); simpl; try lia.
    subst; reflexivity.
Qed.

Lemma lt_rank x y :
  lt x y = true <->
  exists a b, rank x = Some a /\ rank y = Some b /\ lex_lt a b.
Proof.
  unfold lt, SFltb. pose proof (compare_rank x y) as H.
  destruct (SFcompare x y) as [[| |]|].
  - destruct H as (a & b & Ha & Hb & ->); split; [discriminate|].
    intros (a' & b' & Ha' & Hb' & Hl).
    rewrite Ha in Ha'; rewrite Hb in Hb'.
    injection Ha' as <-; injection Hb' as <-.
    now apply lex_lt_irrefl in Hl.
  - destruct H as (a & b & Ha & Hb & Hl); split; [|reflexivity].
    intros _; now exists a, b.
  - destruct H as (a & b & Ha & Hb & Hl); split; [discriminate|].
    intros (a' & b' & Ha' & Hb' & Hl').
    rewrite Ha in Ha'; rewrite Hb in Hb'.
    injection Ha' as <-; injection Hb' as <-.
    exfalso; eapply lex_lt_irrefl, lex_lt_trans; eassumption.
  - split; [discriminate|].
    intros (a' & b' & Ha' & Hb' & _); destruct H; congruence.
Qed.

Lemma le_rank x y :
  le x y = true <->
  exists a b, rank x = Some a /\ rank y = Some b /\ lex_le a b.
Proof.
  unfold le, SFleb. pose proof (compare_rank x y) as H.
  destruct (SFcompare x y) as [[| |]|].
  - destruct H as (a & b & Ha & Hb & ->); split; [|reflexivity].
    intros _; exists b, b; repeat split; try assumption; now right.
  - destruct H as (a & b & Ha & Hb & Hl); split; [|reflexivity].
    intros _; exists a, b; repeat split; try assumption; now left.
  - destruct H as (a & b & Ha & Hb & Hl); split; [discriminate|].
    intros (a' & b' & Ha' & Hb' & Hl').
    rewrite Ha in Ha'; rewrite Hb in Hb'.
    injection Ha' as <-; injection Hb' as <-.
    exfalso; destruct Hl' as [Hl'| ->].
    + eapply lex_lt_irrefl, lex_lt_trans; eassumption.
    + now apply lex_lt_irrefl in Hl.
  - split; [discriminate|].
    intros (a' & b' & Ha' & Hb' & _); destruct H; congruence.
Qed.

Lemma lt_trans x y z : lt x y = true -> lt y z = true -> lt x z = true.
Proof.
  rewrite !lt_rank.
  intros (a & b & Ha & Hb & Hab) (b' & c & Hb' & Hc & Hbc).
  rewrite Hb in Hb'; injection Hb' as <-.
  exists a, c; repeat split; try assumption.
  eapply lex_lt_trans; eassumption.
Qed.

Lemma le_lt_trans x y z : le x y = true -> lt y z = true -> lt x z = true.
Proof.
  rewrite le_rank, !lt_rank.
  intros (a & b & Ha & Hb & Hab) (b' & c & Hb' & Hc & Hbc).
  rewrite Hb in Hb'; injection Hb' as <-.
  exists a, c; repeat split; try assumption.
  eapply lex_le_lt_trans; eassumption.
Qed.

Lemma lt_le_trans x y z : lt x y = true -> le y z = true -> lt x z = true.
Proof.
  rewrite le_rank, !lt_rank.
  intros (a & b & Ha & Hb & Hab) (b' & c & Hb' & Hc & Hbc).
  rewrite Hb in Hb'; injection Hb' as <-.
  exists a, c; repeat split; try assumption.
  destruct Hbc as [Hbc| <-]; [eapply lex_lt_trans; eassumption | assumption].
Qed.

Lemma lt_irrefl x : lt x x = false.
Proof.
  apply not_true_is_false; rewrite lt_rank.
  intros (a & b & Ha & Hb & Hl).
  rewrite Ha in Hb; injection Hb as <-. now apply lex_lt_irrefl in Hl.
Qed.

Lemma lt_asym x y : lt x y = true -> lt y x = false.
Proof.
  intros H; apply not_true_is_false; intros H'.
  pose proof (lt_trans _ _ _ H H') as Hx. now rewrite lt_irrefl in Hx.
Qed.

Lemma lt_not_le x y : lt x y = true -> le y x = false.
Proof.
  intros H; apply not_true_is_false; intros H'.
  pose proof (le_lt_trans _ _ _ H' H) as Hx. now rewrite lt_irrefl in Hx.
Qed.

(** Only a NaN is unordered. *)
Lemma lt_not_nan x y : lt x y = true -> x <> S754_nan /\ y <> S754_nan.
Proof.
  unfold lt, SFltb. destruct x, y; simpl; try discriminate;
    intros _; split; discriminate.
Qed.

Lemma rank_some x : x <> S754_nan -> exists a, rank x = Some a.
Proof.
  destruct x as [s|s| |s m e]; intros Hx; try (now destruct Hx);
    destruct s; eexists; reflexivity.
Qed.

Lemma lex_total a b : lex_lt a b \/ a = b \/ lex_lt b a.
Proof.
  destruct a as [[a1 a2] a3], b as [[b1 b2] b3]. unfold lex_lt.
  destruct (Z.lt_trichotomy a1 b1) as [?|[->|?]]; [lia| |lia].
  destruct (Z.lt_trichotomy a2 b2) as [?|[->|?]]; [lia| |lia].
  destruct (Z.lt_trichotomy a3 b3) as [?|[->|?]]; [lia| |lia].
  right; left; reflexivity.
Qed.

Lemma lt_or_ge x y :
  x <> S754_nan -> y <> S754_nan -> lt x y = true \/ le y x = true.
Proof.
  intros Hx Hy.
  destruct (rank_some x Hx) as (a & Ha), (rank_some y Hy) as (b & Hb).
  destruct (lex_total a b) as [Hl|[E|Hl]].
  - left. apply lt_rank. now exists a, b.
  - right. apply le_rank. exists b, a. repeat split; try assumption.
    right; now symmetry.
  - right. apply le_rank. exists b, a. repeat split; try assumption.
    now left.
Qed.

End F32Facts.

(** ** Counting in binary32 *)

Module F32Count.
Import F32.

(** [q] shifted left by [n] bits. *)
Definition shl (n : nat) (q : positive) : positive := Nat.iter n xO q.

Lemma iter_pos_nat {A} (f : A -> A) p x :
  iter_pos f p x = Nat.iter (Pos.to_nat p) f x.
Proof.
  revert x; induction p as [p IH|p IH|]; intros x; cbn [iter_pos].
  - rewrite !IH, Pos2Nat.inj_xI.
    replace (S (2 * Pos.to_nat p))
      with (Pos.to_nat p + S (Pos.to_nat p))%nat by lia.
    rewrite Nat.iter_add, Nat.iter_succ_r. reflexivity.
  - rewrite !IH, Pos2Nat.inj_xO.
    replace (2 * Pos.to_nat p)%nat
      with (Pos.to_nat p + Pos.to_nat p)%nat by lia.
    rewrite Nat.iter_add. reflexivity.
  - reflexivity.
Qed.

Lemma pos_iter_shl n q : Pos.iter xO q n = shl (Pos.to_nat n) q.
Proof. unfold shl. apply Pos2Nat.inj_iter. Qed.

Lemma shl_add n m q : shl n (shl m q) = shl (n + m) q.
Proof. unfold shl. now rewrite Nat.iter_add. Qed.

Lemma digits_shl n q :
  Z.pos (digits2_pos (shl n q)) = Z.pos (digits2_pos q) + Z.of_nat n.
Proof.
  induction n as [|n IH]; [simpl; lia|].
  change (shl (S n) q) with (xO (shl n q)).
  cbn [digits2_pos]. lia.
Qed.

(** Shifting right what was shifted left loses nothing. *)
Lemma shr_shl n q :
  Nat.iter n shr_1 (Build_shr_record (Z.pos (shl n q)) false false)
  = Build_shr_record (Z.pos q) false false.
Proof.
  induction n as [|n IH]; [reflexivity|].
  rewrite Nat.iter_succ_r.
  change (shl (S n) q) with (xO (shl n q)).
  exact IH.
Qed.

Section Canonical.
Variable q : positive.

Let d : Z := Z.pos (digits2_pos q).
Let n0 : nat := Z.to_nat (24 - d).

Hypothesis Hd : d <= 24.

Lemma fexp_digits : fexp prec emax d = d - 24.
Proof. unfold fexp, emin, prec, emax, d. lia. Qed.

(** The aligned mantissa fills the 24 bits of the format. *)
Lemma shr_fexp_shl (n : nat) :
  (n0 <= n)%nat ->
  shr_fexp prec emax (Z.pos (shl n q)) (- Z.of_nat n) loc_Exact
  = (Build_shr_record (Z.pos (shl n0 q)) false false, d - 24).
Proof.
  intros Hn. unfold shr_fexp. cbn [Zdigits2 shr_record_of_loc].
  rewrite digits_shl. fold d.
  replace (d + Z.of_nat n + - Z.of_nat n) with d by lia.
  rewrite fexp_digits. unfold shr.
  assert (Hd1 : 1 <= d) by (unfold d; lia).
  destruct (d - 24 - - Z.of_nat n) as [|p|p] eqn:E.
  - assert (n = n0) as -> by (unfold n0; lia).
    f_equal. unfold n0; lia.
  - rewrite iter_pos_nat.
    replace n with (Pos.to_nat p + n0)%nat by (unfold n0; lia).
    rewrite <- shl_add, shr_shl. f_equal. unfold n0; lia.
  - unfold n0 in Hn; lia.
Qed.

Lemma binary_round_aux_shl (n : nat) :
  (n0 <= n)%nat ->
  binary_round_aux prec emax false (Z.pos (shl n q)) (- Z.of_nat n) loc_Exact
  = S754_finite false (shl n0 q) (d - 24).
Proof.
  intros Hn. unfold binary_round_aux.
  rewrite (shr_fexp_shl n Hn).
  cbn [shr_m loc_of_shr_record round_nearest_even].
  replace (d - 24) with (- Z.of_nat n0) at 1 by (unfold n0; lia).
  rewrite (shr_fexp_shl n0 (Nat.le_refl n0)).
  cbn [shr_m].
  replace (d - 24 <=? emax - prec) with true; [reflexivity|].
  symmetry; apply Z.leb_le; unfold emax, prec; lia.
Qed.

(** Rounding an integer that fits the mantissa, given with [n]
    trailing zero bits at exponent [-n], yields its normal form. *)
Lemma binary_round_shl (n : nat) :
  binary_round prec emax false (shl n q) (- Z.of_nat n)
  = S754_finite false (shl n0 q) (d - 24).
Proof.
  unfold binary_round. rewrite digits_shl. fold d.
  replace (d + Z.of_nat n + - Z.of_nat n) with d by lia.
  rewrite fexp_digits. unfold shl_align.
  assert (Hd1 : 1 <= d) by (unfold d; lia).
  destruct (d - 24 - - Z.of_nat n) as [|p|p] eqn:E.
  - apply binary_round_aux_shl. unfold n0; lia.
  - apply binary_round_aux_shl. unfold n0; lia.
  - rewrite pos_iter_shl, shl_add.
    replace (Pos.to_nat p + n)%nat with n0 by (unfold n0; lia).
    replace (d - 24) with (- Z.of_nat n0) at 1 by (unfold n0; lia).
    apply binary_round_aux_shl. lia.
Qed.

Lemma of_Z_normal :
  of_Z (Z.pos q) = S754_finite false (shl n0 q) (d - 24).
Proof. exact (binary_round_shl 0). Qed.

End Canonical.

Lemma digits_size q : digits2_pos q = Pos.size q.
Proof. induction q; simpl; congruence. Qed.

Lemma digits_bound q : Z.pos q < 2 ^ 24 -> Z.pos (digits2_pos q) <= 24.
Proof.
  intros Hq. rewrite digits_size.
  destruct (Z_le_gt_dec (Z.pos (Pos.size q)) 24) as [|Hgt]; [assumption|].
  exfalso. pose proof (Pos.size_le q) as Hs.
  apply Pos2Z.pos_le_pos in Hs. rewrite Pos2Z.inj_pow in Hs.
  assert (2 ^ 25 <= 2 ^ Z.pos (Pos.size q))
    by (apply Z.pow_le_mono_r; lia).
  change (Z.pos q~0) with (2 * Z.pos q) in Hs.
  change (2 ^ 25) with (2 * 2 ^ 24) in *. lia.
Qed.

Lemma shl_plus n a b : (shl n a + shl n b)%positive = shl n (a + b).
Proof.
  induction n as [|n IH]; [reflexivity|].
  change (shl (S n) ?x) with (xO (shl n x)). simpl. now rewrite IH.
Qed.

(** Adding 1 to an integer below [2^24 - 1] is exact. *)
Lemma add_one p :
  Z.pos (p + 1) < 2 ^ 24 ->
  add (of_Z (Z.pos p)) one = of_Z (Z.pos (p + 1)).
Proof.
  intros Hq.
  assert (Hdp : Z.pos (digits2_pos p) <= 24) by (apply digits_bound; lia).
  assert (Hdq : Z.pos (digits2_pos (p + 1)) <= 24) by now apply digits_bound.
  rewrite (of_Z_normal p Hdp), (of_Z_normal (p + 1) Hdq).
  rewrite <- (binary_round_shl (p + 1) Hdq 23).
  change one with (S754_finite false (shl 23 1) (- 23)).
  unfold add, SFadd. cbn [cond_Zopp].
  set (dp := Z.pos (digits2_pos p)) in *.
  assert (Hdp1 : 1 <= dp) by (unfold dp; lia).
  replace (Z.min (dp - 24) (- 23)) with (- 23) by lia.
  assert (E1 : fst (shl_align (shl (Z.to_nat (24 - dp)) p) (dp - 24) (- 23))
               = shl 23 p).
  { unfold shl_align.
    destruct (- 23 - (dp - 24)) as [|x|x] eqn:E; cbn [fst].
    - f_equal; lia.
    - lia.
    - rewrite pos_iter_shl, shl_add. f_equal; lia. }
  assert (E2 : fst (shl_align (shl 23 1) (- 23) (- 23)) = shl 23 1)
    by reflexivity.
  rewrite E1, E2.
  change (Z.pos (shl 23 p) + Z.pos (shl 23 1))
    with (Z.pos (shl 23 p + shl 23 1)).
  rewrite shl_plus. reflexivity.
Qed.

(** Adding 1 up [k] times gives the [float] [k], for every [k] below
    [2^24]: the accumulation of ones is a count. *)
Lemma count_exact (k : nat) :
  Z.of_nat k < 2 ^ 24 ->
  Nat.iter k (fun g => add g one) zero = of_Z (Z.of_nat k).
Proof.
  induction k as [|k IH]; intros Hk; [reflexivity|].
  rewrite Nat.iter_succ, IH by lia.
  destruct k as [|k]; [reflexivity|].
  replace (Z.of_nat (S (S k))) with (Z.pos (Pos.of_succ_nat k + 1)) by lia.
  replace (Z.of_nat (S k)) with (Z.pos (Pos.of_succ_nat k)) by lia.
  apply add_one. lia.
Qed.

(** At [2^24] the count stops: the next integer is not a [float]. *)
Example count_saturates : add (of_Z (2 ^ 24)) one = of_Z (2 ^ 24).
Proof. vm_compute; reflexivity. Qed.

(** The accumulation of ones counts up to [2^24] and stays there. *)
Lemma count_capped (k : nat) :
  Nat.iter k (fun g => add g one) zero
  = of_Z (Z.min (Z.of_nat k) (2 ^ 24)).
Proof.
  induction k as [|k IH]; [reflexivity|].
  destruct (Z_lt_le_dec (Z.of_nat (S k)) (2 ^ 24)) as [Hlt|Hge].
  - rewrite Z.min_l by lia. now apply count_exact.
  - rewrite Nat.iter_succ, IH, (Z.min_r (Z.of_nat (S k))) by assumption.
    destruct (Z_lt_le_dec (Z.of_nat k) (2 ^ 24)) as [Hlt'|Hge'].
    + rewrite Z.min_l by lia.
      replace (Z.of_nat k) with (2 ^ 24 - 1) by lia.
      vm_compute; reflexivity.
    + rewrite Z.min_r by assumption. apply count_saturates.
Qed.

End F32Count.

(** ** Loops as folds over lists *)

Module LoopFacts.
Import Device KernelLemmas.

Lemma iota_nonpos n : n <= 0 -> iota n = [].
Proof.
  intros H; unfold iota.
  replace (Z.to_nat n) with 0%nat by lia. reflexivity.
Qed.

Lemma iota_succ n : 0 <= n -> iota (n + 1) = iota n ++ [n].
Proof.
  intros H; unfold iota.
  replace (Z.to_nat (n + 1)) with (S (Z.to_nat n)) by lia.
  rewrite seq_S, map_app; simpl. now rewrite Z2Nat.id by assumption.
Qed.

Lemma range_nil a b : b <= a -> range a b = [].
Proof. intros H; unfold range; now rewrite iota_nonpos by lia. Qed.

Lemma range_snoc a b : a <= b -> range a (b + 1) = range a b ++ [b].
Proof.
  intros H; unfold range.
  replace (b + 1 - a) with (b - a + 1) by lia.
  rewrite iota_succ, map_app by lia; simpl.
  do 2 f_equal; lia.
Qed.

Lemma range_0 n : range 0 n = iota n.
Proof.
  unfold range; rewrite Z.sub_0_r.
  rewrite <- (map_id (iota n)) at 2. apply map_ext; intros; lia.
Qed.

Lemma in_range a b x : In x (range a b) <-> a <= x < b.
Proof.
  unfold range; rewrite in_map_iff; split.
  - intros (k & <- & Hk); apply in_iota in Hk; lia.
  - intros H; exists (x - a); split; [lia | apply in_iota; lia].
Qed.

(** Splitting a range at a point inside it. *)
Lemma range_app a b c : a <= b <= c -> range a c = range a b ++ range b c.
Proof.
  intros [Hab Hbc].
  replace c with (b + (c - b)) by lia.
  assert (Hn : 0 <= c - b) by lia.
  generalize dependent (c - b); clear c Hbc.
  apply (natlike_ind (fun n => range a (b + n) = range a b ++ range b (b + n))).
  - rewrite Z.add_0_r, (range_nil b b), app_nil_r by lia. reflexivity.
  - intros n Hn IH.
    replace (b + Z.succ n) with (b + n + 1) by lia.
    rewrite !range_snoc, IH, app_assoc by lia. reflexivity.
Qed.

(** A loop nest visits the cells of its rectangle row by row. *)
Lemma range_cons a b : a < b -> range a b = a :: range (a + 1) b.
Proof.
  intros H. rewrite (range_app a (a + 1) b) by lia.
  now rewrite (range_snoc a a), (range_nil a a) by lia.
Qed.

(** A loop visits its indices in increasing order. *)
Lemma range_split b l1 x l2 :
  forall a, range a b = l1 ++ x :: l2 ->
  a <= x < b /\ (forall y, In y l2 -> x < y < b).
Proof.
  induction l1 as [|z l1 IH]; intros a E.
  - destruct (Z_lt_le_dec a b) as [Hab|Hba];
      [|rewrite range_nil in E by assumption; discriminate].
    rewrite range_cons in E by assumption.
    injection E as <- <-. split; [lia|].
    intros y Hy. apply in_range in Hy. lia.
  - destruct (Z_lt_le_dec a b) as [Hab|Hba];
      [|rewrite range_nil in E by assumption; discriminate].
    rewrite range_cons in E by assumption.
    injection E as <- E. destruct (IH _ E) as [Hx Hafter].
    split; [lia | assumption].
Qed.

Definition rect {A} (f : Z -> Z -> A) (a b c d : Z) : list A :=
  flat_map (fun h => map (f h) (range c d)) (range a b).

Lemma fold_left_flat_map {A B S} (g : S -> B -> S) (F : A -> list B) l s :
  fold_left g (flat_map F l) s =
  fold_left (fun st x => fold_left g (F x) st) l s.
Proof.
  revert s; induction l as [|x l IH]; intros s; simpl; [reflexivity|].
  now rewrite fold_left_app, IH.
Qed.

Lemma fold_left_map {A B S} (g : S -> B -> S) (f : A -> B) l s :
  fold_left g (map f l) s = fold_left (fun st x => g st (f x)) l s.
Proof. revert s; induction l; intros; simpl; auto. Qed.

Lemma fold_left_ext {A S} (g g' : S -> A -> S) l s :
  (forall st x, In x l -> g st x = g' st x) ->
  fold_left g l s = fold_left g' l s.
Proof.
  revert s; induction l as [|x l IH]; intros s Hg; simpl; [reflexivity|].
  rewrite Hg by (simpl; auto). apply IH; intros; apply Hg; simpl; auto.
Qed.

Lemma for_range_nest {A S} (f : Z -> Z -> A) (body : A -> S -> S) a b c d s :
  for_range a b (fun h => for_range c d (fun w => body (f h w))) s =
  fold_left (fun st x => body x st) (rect f a b c d) s.
Proof.
  unfold for_range, rect. rewrite fold_left_flat_map.
  apply fold_left_ext; intros st h _. now rewrite fold_left_map.
Qed.

Lemma for_range_ext {S} a b (body body' : Z -> S -> S) s :
  (forall h st, a <= h < b -> body h st = body' h st) ->
  for_range a b body s = for_range a b body' s.
Proof.
  intros Hb; unfold for_range; apply fold_left_ext.
  intros st h Hh; apply in_range in Hh; now apply Hb.
Qed.

(** A conditional update is an update over the filtered list. *)
Lemma fold_left_filter {A S} (P : A -> bool) (g : S -> A -> S) l s :
  fold_left (fun st x => if P x then g st x else st) l s =
  fold_left g (filter P l) s.
Proof.
  revert s; induction l as [|x l IH]; intros s; simpl; [reflexivity|].
  destruct (P x); simpl; apply IH.
Qed.

(** Rows or cells outside [a, b) that contribute nothing can be left
    out of the iteration. *)
Lemma flat_map_nil {A B} (F : A -> list B) l :
  (forall x, In x l -> F x = []) -> flat_map F l = [].
Proof.
  induction l as [|x l IH]; intros H; simpl; [reflexivity|].
  rewrite (H x) by (simpl; auto); simpl.
  apply IH; intros y Hy; apply H; simpl; auto.
Qed.

Lemma flat_map_restrict {B} (F : Z -> list B) n a b :
  (forall x, 0 <= x < n -> ~ (a <= x < b) -> F x = []) ->
  (forall x, a <= x < b -> 0 <= x < n) ->
  flat_map F (iota n) = flat_map F (range a b).
Proof.
  intros Hout Hin. rewrite <- range_0.
  destruct (Z_lt_le_dec a b) as [Hab|Hba].
  - assert (0 <= a) by (specialize (Hin a); lia).
    assert (b <= n) by (specialize (Hin (b - 1)); lia).
    rewrite (range_app 0 a n), (range_app a b n) by lia.
    rewrite !flat_map_app.
    rewrite (flat_map_nil F (range 0 a)), (flat_map_nil F (range b n)).
    + now rewrite app_nil_r.
    + intros x Hx; apply in_range in Hx; apply Hout; lia.
    + intros x Hx; apply in_range in Hx; apply Hout; lia.
  - rewrite (range_nil a b) by lia; simpl.
    apply flat_map_nil; intros x Hx; apply in_range in Hx; apply Hout; lia.
Qed.

Lemma flat_map_ext_in {A B} (F G : A -> list B) l :
  (forall x, In x l -> F x = G x) -> flat_map F l = flat_map G l.
Proof.
  induction l as [|x l IH]; intros HFG; simpl; [reflexivity|].
  rewrite (HFG x) by (simpl; auto). f_equal.
  apply IH; intros y Hy; apply HFG; simpl; auto.
Qed.

Lemma filter_nil {A} (P : A -> bool) l :
  (forall x, In x l -> P x = false) -> filter P l = [].
Proof.
  induction l as [|x l IH]; intros HP; simpl; [reflexivity|].
  rewrite (HP x) by (simpl; auto). apply IH; intros; apply HP; simpl; auto.
Qed.

Lemma filter_flat_map {A B} (P : B -> bool) (F : A -> list B) l :
  filter P (flat_map F l) = flat_map (fun x => filter P (F x)) l.
Proof.
  induction l as [|x l IH]; simpl; [reflexivity|].
  now rewrite filter_app, IH.
Qed.

Lemma filter_as_flat_map {A} (P : A -> bool) l :
  filter P l = flat_map (fun x => if P x then [x] else []) l.
Proof.
  induction l as [|x l IH]; simpl; [reflexivity|].
  rewrite IH; now destruct (P x).
Qed.

Lemma filter_map_comm {A B} (P : B -> bool) (f : A -> B) l :
  filter P (map f l) = map f (filter (fun x => P (f x)) l).
Proof.
  induction l as [|x l IH]; simpl; [reflexivity|].
  rewrite IH; now destruct (P (f x)).
Qed.

Lemma filter_restrict (P : Z -> bool) n a b :
  (forall x, 0 <= x < n -> ~ (a <= x < b) -> P x = false) ->
  (forall x, a <= x < b -> 0 <= x < n) ->
  filter P (iota n) = filter P (range a b).
Proof.
  intros Hout Hin. rewrite !filter_as_flat_map.
  apply flat_map_restrict; [|assumption].
  intros x Hx Hn; now rewrite Hout.
Qed.

(** The flat indices below [a * b] in row-major order. *)
Lemma iota_mul a b :
  0 <= a -> 0 <= b ->
  iota (a * b) = flat_map (fun q => map (fun r => q * b + r) (iota b)) (iota a).
Proof.
  intros Ha Hb; revert a Ha.
  apply natlike_ind.
  - reflexivity.
  - intros a Ha IH.
    replace (Z.succ a) with (a + 1) by lia.
    rewrite iota_succ, flat_map_app by lia; simpl.
    rewrite app_nil_r, <- IH.
    replace ((a + 1) * b) with (a * b + b) by lia.
    rewrite <- !range_0.
    rewrite (range_app 0 (a * b) (a * b + b)) by nia.
    f_equal. unfold range.
    replace (a * b + b - a * b) with b by lia.
    rewrite Z.sub_0_r, map_map. apply map_ext; intros; lia.
Qed.

(** *** Counting *)

Lemma count_perm {A} (P : A -> bool) l l' :
  Permutation l l' -> length (filter P l) = length (filter P l').
Proof.
  induction 1 as [|x l l' _ IH|x y l|l l' l'' _ IH1 _ IH2]; simpl.
  - reflexivity.
  - destruct (P x); simpl; now rewrite IH.
  - destruct (P x), (P y); reflexivity.
  - now rewrite IH1.
Qed.

Lemma count_pos {A} (P : A -> bool) l x :
  In x l -> P x = true -> (1 <= length (filter P l))%nat.
Proof.
  intros Hin HP.
  assert (Hf : In x (filter P l)) by (apply filter_In; now split).
  destruct (filter P l); [destruct Hf | simpl; lia].
Qed.

Lemma count_eqb_iota k n :
  0 <= k < n -> length (filter (fun x => x =? k) (iota n)) = 1%nat.
Proof.
  intros Hk. rewrite <- range_0.
  rewrite (range_app 0 k n), (range_app k (k + 1) n) by lia.
  rewrite (range_snoc k k), (range_nil k k), !filter_app by lia; simpl.
  rewrite Z.eqb_refl.
  rewrite (filter_nil _ (range 0 k)), (filter_nil _ (range (k + 1) n)).
  - reflexivity.
  - intros x Hx; apply in_range in Hx; apply Z.eqb_neq; lia.
  - intros x Hx; apply in_range in Hx; apply Z.eqb_neq; lia.
Qed.

Lemma filter_all {A} (P : A -> bool) l :
  (forall x, In x l -> P x = true) -> filter P l = l.
Proof.
  induction l as [|x l IH]; intros HP; simpl; [reflexivity|].
  rewrite (HP x) by (simpl; auto). f_equal.
  apply IH; intros; apply HP; simpl; auto.
Qed.

Lemma length_range a b : a <= b -> Z.of_nat (length (range a b)) = b - a.
Proof.
  intros H. unfold range, iota. rewrite !length_map, length_seq. lia.
Qed.

(** Counting the indices of a loop that fall in an interval. *)
Lemma count_interval (P : Z -> bool) n lo hi :
  0 <= lo <= hi -> hi <= n ->
  (forall x, 0 <= x < n -> P x = true <-> lo <= x < hi) ->
  Z.of_nat (length (filter P (iota n))) = hi - lo.
Proof.
  intros Hlo Hhi HP.
  rewrite (filter_restrict P n lo hi).
  - rewrite filter_all; [apply length_range; lia|].
    intros x Hx. apply in_range in Hx. apply HP; lia.
  - intros x Hx Hout. apply not_true_is_false. rewrite HP by assumption.
    assumption.
  - intros x Hx; lia.
Qed.

(** Counting the cells of a rectangle that satisfy a condition on the
    row and a condition on the column. *)
Lemma count_rect {A B C} (f : A -> B -> C) (Q : C -> bool)
    (PA : A -> bool) (PB : B -> bool) la lb :
  (forall x y, In x la -> In y lb -> Q (f x y) = PA x && PB y) ->
  length (filter Q (flat_map (fun x => map (f x) lb) la))
  = (length (filter PA la) * length (filter PB lb))%nat.
Proof.
  induction la as [|x la IH]; intros HQ; simpl; [reflexivity|].
  rewrite filter_app, length_app, IH
    by (intros; apply HQ; simpl; auto).
  rewrite filter_map_comm, length_map.
  rewrite (filter_ext_in (fun y => Q (f x y)) (fun y => PA x && PB y))
    by (intros; apply HQ; simpl; auto).
  destruct (PA x); simpl.
  - reflexivity.
  - rewrite (filter_nil (fun _ => false)) by reflexivity. reflexivity.
Qed.

(** What follows an element of a concatenation of rows: the rest of
    its row, then the later rows. *)
Lemma flat_map_after {A B} (F : A -> list B) l :
  forall before x after,
  flat_map F l = before ++ x :: after ->
  exists l1 r l2 b1 a1,
    l = l1 ++ r :: l2 /\ F r = b1 ++ x :: a1 /\
    after = a1 ++ flat_map F l2.
Proof.
  induction l as [|r l IH]; intros before x after E; simpl in E.
  - destruct before; discriminate.
  - apply app_eq_app in E. destruct E as (m & [[E1 E2]|[E1 E2]]).
    + destruct m as [|x' m].
      * rewrite app_nil_l in E2. symmetry in E2.
        destruct (IH [] x after E2) as (l1 & r' & l2 & b1 & a1 & -> & Hr & ->).
        exists (r :: l1), r', l2, b1, a1. now repeat split.
      * injection E2 as <- ->.
        exists [], r, l, before, m. now repeat split.
    + destruct (IH m x after E2) as (l1 & r' & l2 & b1 & a1 & -> & Hr & ->).
      exists (r :: l1), r', l2, b1, a1. now repeat split.
Qed.

(** The cells that follow [(h, w)] in a rectangle scanned row by row
    lie in the rest of its row or in a later row. *)
Lemma rect_after a b c d before h w after :
  rect pair a b c d = before ++ (h, w) :: after ->
  forall h' w', In (h', w') after -> h < h' \/ (h = h' /\ w < w').
Proof.
  intros E h' w' Hin. unfold rect in E.
  apply flat_map_after in E.
  destruct E as (l1 & r & l2 & b1 & a1 & Erows & Erow & ->).
  apply map_eq_app in Erow.
  destruct Erow as (c1 & c2' & Ecols & _ & Ec2).
  destruct c2' as [|w0 c2]; [discriminate|].
  simpl in Ec2. injection Ec2 as -> -> <-.
  apply range_split in Erows, Ecols.
  apply in_app_or in Hin. destruct Hin as [Hin|Hin].
  - apply in_map_iff in Hin. destruct Hin as (y & Ey & Hy).
    injection Ey as <- <-. right. split; [reflexivity|].
    now apply (proj2 Ecols).
  - apply in_flat_map in Hin. destruct Hin as (r' & Hr' & Hin).
    apply in_map_iff in Hin. destruct Hin as (y & Ey & _).
    injection Ey as <- <-. left. now apply (proj2 Erows).
Qed.

End LoopFacts.

(** ** One-hot encoding *)

Module OneHotProofs.
Import Device KernelLemmas OneHot.

(** C9. For indices within [0, index_size), row [i] of the output of
    [DoOneHotOp] holds 1 at column [indices[i]] and 0 at every other
    column, for every schedule of the kernel's threads; the two values
    are distinct, so each row has exactly one entry equal to 1. *)
Theorem one_hot_rows (sched : list Z) (batch_size index_size : Z)
    (indices : ptr Z) (output : ptr F32.float) :
  is_schedule batch_size sched ->
  (forall i, 0 <= i < batch_size -> 0 <= indices i < index_size) ->
  forall i j, 0 <= i < batch_size -> 0 <= j < index_size ->
    DoOneHotOp sched batch_size index_size indices
      (batch_size * index_size) output (i * index_size + j)
    = (if j =? indices i then F32.one else F32.zero)
    /\ F32.eq F32.one F32.zero = false.
Proof.
  intros Hs Hidx i j Hi Hj; split; [|reflexivity].
  unfold DoOneHotOp, OneHotOpKernel.
  rewrite kernel_loop_schedule by assumption.
  unfold OneHotOpKernel_body.
  rewrite (loop_store_const (fun i => i * index_size + indices i)).
  destruct (Z.eqb_spec j (indices i)) as [->|Hne].
  - replace (existsb _ sched) with true; [reflexivity|].
    symmetry; apply existsb_exists; exists i; split.
    + now apply (in_schedule batch_size sched i Hs).
    + apply Z.eqb_refl.
  - replace (existsb _ sched) with false.
    + unfold math_Set.
      replace ((0 <=? _) && (_ <? _)) with true; [reflexivity|].
      symmetry; apply andb_true_iff; split;
        [apply Z.leb_le | apply Z.ltb_lt]; nia.
    + symmetry; apply not_true_is_false; intros H.
      apply existsb_exists in H; destruct H as (i' & Hi' & He).
      apply Z.eqb_eq in He.
      apply (in_schedule batch_size sched i' Hs) in Hi'.
      specialize (Hidx i' Hi').
      assert (i = i') by nia. subst i'. lia.
Qed.

(** A batch of three rows over four categories, threads retiring in
    reverse order. *)
Lemma one_hot_rows_witness :
  let indices : ptr Z := fun i => match i with 0 => 2 | 1 => 0 | _ => 3 end in
  DoOneHotOp (rev (iota 3)) 3 4 indices (3 * 4) (fun _ => S754_nan) (1 * 4 + 0)
    = (if 0 =? indices 1 then F32.one else F32.zero)
  /\ F32.eq F32.one F32.zero = false.
Proof.
  intros indices.
  apply (one_hot_rows (rev (iota 3)) 3 4 indices (fun _ => S754_nan)).
  - apply rev_iota_schedule.
  - intros i Hi; unfold indices.
    assert (i = 0 \/ i = 1 \/ i = 2) as [->|[->| ->]] by lia; simpl; lia.
  - lia.
  - lia.
Defined.

End OneHotProofs.

(** ** Distance and similarity operators *)

Module DistanceProofs.
Import Device Framework KernelLemmas Distance.

(** [kEps] is a binary32 value, and no other binary32 value is nearer
    to [10^-12]: the error [|kEps - 10^-12|], scaled by [2^63 * 10^12],
    is below half a unit in the last place. *)
Lemma kEps_nearest :
  valid_binary F32.prec F32.emax kEps = true /\
  2 * Z.abs (9223372 * 10 ^ 12 - 2 ^ 63) < 10 ^ 12.
Proof. split; [reflexivity | vm_compute; reflexivity]. Qed.

Lemma rank_kEps : F32Facts.rank kEps = Some (1, -63, 9223372).
Proof. reflexivity. Qed.

Lemma rank_neg_kEps : F32Facts.rank (F32.neg kEps) = Some (-1, 63, -9223372).
Proof. reflexivity. Qed.

(** The two strict tests of the gradient kernel exclude each other. *)
Lemma above_not_below d :
  F32.gt d kEps = true -> F32.lt d (F32.neg kEps) = false.
Proof.
  unfold F32.gt; intros H.
  apply not_true_is_false; intros H'.
  assert (Hk : F32.lt (F32.neg kEps) kEps = true) by reflexivity.
  pose proof (F32Facts.lt_trans _ _ _ H' Hk) as H1.
  pose proof (F32Facts.lt_asym _ _ H) as H2. congruence.
Qed.

(** Within the flat region neither strict test succeeds. *)
Lemma flat_region d :
  F32.le (F32.fabsf d) kEps = true ->
  F32.lt d (F32.neg kEps) = false /\ F32.gt d kEps = false.
Proof.
  intros H; apply F32Facts.le_rank in H.
  destruct H as (a & b & Ha & Hb & Hl).
  rewrite rank_kEps in Hb; injection Hb as <-.
  unfold F32.gt; split; apply not_true_is_false; intros H';
    apply F32Facts.lt_rank in H'; destruct H' as (a' & b' & Ha' & Hb' & Hl');
    try rewrite rank_kEps in *; try rewrite rank_neg_kEps in *;
    destruct d as [[]|[]| |[] m e]; simpl in Ha, Ha', Hb';
    try discriminate;
    repeat match goal with
           | E : Some _ = Some _ |- _ => injection E as <-
           end;
    unfold F32Facts.lex_le, F32Facts.lex_lt in *;
    try (destruct Hl as [Hl|Hl]; [|injection Hl as ? ?]); lia.
Qed.

Lemma L1_body_gather N D X Y dDistance i st j :
  (fun s a => (fst s a, snd s a))
    (L1DistanceGradientKernel_body N D X Y dDistance i st) j =
  if j =? i then
    (let k := CInt.div i D in
     if F32.lt (F32.sub (X i) (Y i)) (F32.neg kEps) then
       (F32.neg (dDistance k), dDistance k)
     else if F32.gt (F32.sub (X i) (Y i)) kEps then
       (dDistance k, F32.neg (dDistance k))
     else (F32.zero, F32.zero))
  else (fst st j, snd st j).
Proof.
  unfold L1DistanceGradientKernel_body; destruct st as [dX dY]; simpl.
  destruct (F32.lt _ _); [|destruct (F32.gt _ _)]; simpl; unfold store;
    destruct (j =? i); reflexivity.
Qed.

(** C8. Element [i = k * D + j] of row [k]: above the threshold the
    upstream gradient of the row goes to [dX] and its negation to [dY],
    below the negated threshold the other way round, and inside the
    flat region [|X[i] - Y[i]| <= 1e-12] both gradients are zero.  The
    difference is the [float] difference the kernel computes and the
    threshold the [float] nearest to 1e-12. *)
Theorem l1_gradient_cases (sched : list Z) (N D : Z)
    (X Y dDistance dX0 dY0 : ptr F32.float) (k j : Z) :
  is_schedule (N * D) sched ->
  0 <= k < N -> 0 <= j < D ->
  let i := k * D + j in
  let d := F32.sub (X i) (Y i) in
  let out := L1DistanceGradientKernel sched N D X Y dDistance (dX0, dY0) in
  (F32.gt d kEps = true ->
     fst out i = dDistance k /\ snd out i = F32.neg (dDistance k)) /\
  (F32.lt d (F32.neg kEps) = true ->
     fst out i = F32.neg (dDistance k) /\ snd out i = dDistance k) /\
  (F32.le (F32.fabsf d) kEps = true ->
     fst out i = F32.zero /\ snd out i = F32.zero).
Proof.
  intros Hs Hk Hj i d out.
  assert (Hi : 0 <= i < N * D) by (unfold i; nia).
  pose proof (loop_gather_schedule (fun s a => (fst s a, snd s a)) _
                (L1DistanceGradientKernel_body N D X Y dDistance)
                (N * D) sched (dX0, dY0) i
                (L1_body_gather N D X Y dDistance) Hs Hi) as Hout.
  cbv beta zeta in Hout.
  change (HIP_1D_KERNEL_LOOP sched _ _ _) with out in Hout.
  replace (CInt.div i D) with k in Hout
    by (symmetry; apply CIntFacts.div_flat; lia).
  fold d in Hout.
  split; [|split]; intros Hc.
  - rewrite (above_not_below d Hc), Hc in Hout.
    injection Hout as H1 H2; now split.
  - rewrite Hc in Hout. injection Hout as H1 H2; now split.
  - destruct (flat_region d Hc) as [H1 H2].
    rewrite H1, H2 in Hout. injection Hout as H3 H4; now split.
Qed.

(** One row of two elements, the first above and the second below the
    threshold, threads retiring in reverse order. *)
Lemma l1_gradient_cases_witness :
  let X : ptr F32.float := fun i => if i =? 0 then F32.one else F32.zero in
  let Y : ptr F32.float := fun i => if i =? 0 then F32.zero else F32.one in
  let dDistance : ptr F32.float := fun _ => F32.of_Z 3 in
  let out := L1DistanceGradientKernel (rev (iota 2)) 1 2 X Y dDistance
               (fun _ => S754_nan, fun _ => S754_nan) in
  fst out 1 = F32.neg (F32.of_Z 3) /\ snd out 1 = F32.of_Z 3.
Proof.
  intros X Y dDistance out.
  destruct (l1_gradient_cases (rev (iota 2)) 1 2 X Y dDistance
              (fun _ => S754_nan) (fun _ => S754_nan) 0 1)
    as (_ & Hbelow & _).
  - apply (rev_iota_schedule 2).
  - lia.
  - lia.
  - apply Hbelow. vm_compute. reflexivity.
Defined.

(** *** Empty batches *)

Section EmptyBatch.
Variable CAFFE_HIP_NUM_THREADS : Z.
Variable BlockReduce_Sum : list F32.float -> F32.float.
Variables (X Y : Tensor F32.float) (rest : list Z).
Hypothesis HX : dims X = 0 :: rest.
Hypothesis HY : dims Y = dims X.

Lemma empty_batch_checks msg1 msg2 {A} (k : result A) :
  (CAFFE_ENFORCE_EQ (ndim X) (ndim Y) msg1 ;;;
   enforce_same_dims (dims X) (dims Y) msg2 ;;; k) = k.
Proof.
  unfold ndim. rewrite HY.
  unfold CAFFE_ENFORCE_EQ at 1, CAFFE_ENFORCE. rewrite Z.eqb_refl.
  cbn [bind].
  assert (E : forall l, enforce_same_dims l l msg2 = Ok tt).
  { induction l as [|x l IH]; simpl; [reflexivity|].
    unfold CAFFE_ENFORCE_EQ, CAFFE_ENFORCE. now rewrite Z.eqb_refl. }
  now rewrite E.
Qed.

Lemma empty_batch_N : (if ndim X >? 0 then dim32 X 0 else 1) = 0.
Proof.
  unfold ndim, dim32. rewrite HX. cbn [length nth Z.to_nat].
  destruct (Z.gtb_spec (Z.of_nat (S (length rest))) 0); [reflexivity | lia].
Qed.

Lemma empty_batch_size : size X = 0.
Proof. unfold size. rewrite HX. simpl. reflexivity. Qed.

(** The squared L2 distance divides by the batch size before looking
    at it. *)
Lemma squared_l2_empty_batch rows distance :
  SquaredL2DistanceOp_RunOnDevice CAFFE_HIP_NUM_THREADS BlockReduce_Sum
    rows X Y distance = Err DivisionByZero.
Proof.
  unfold SquaredL2DistanceOp_RunOnDevice.
  rewrite empty_batch_checks, empty_batch_N, empty_batch_size.
  reflexivity.
Qed.

(** The other three operators complete with an output of length 0. *)
Lemma l1_empty_batch rows distance :
  exists out,
    L1DistanceOp_RunOnDevice CAFFE_HIP_NUM_THREADS BlockReduce_Sum
      rows X Y distance = Ok out /\ dims out = [0].
Proof.
  unfold L1DistanceOp_RunOnDevice.
  rewrite empty_batch_checks, empty_batch_N.
  eexists; split; reflexivity.
Qed.

Lemma dot_product_empty_batch rows result_data :
  exists out,
    DotProductOp_RunOnDevice CAFFE_HIP_NUM_THREADS BlockReduce_Sum
      rows X Y result_data = Ok out /\ dims out = [0].
Proof.
  unfold DotProductOp_RunOnDevice.
  rewrite empty_batch_checks, empty_batch_size.
  eexists; split; reflexivity.
Qed.

Lemma cosine_empty_batch rows1 rows2 rows3 result_buf aux_buf :
  exists out aux,
    CosineSimilarityOp_RunOnDevice CAFFE_HIP_NUM_THREADS BlockReduce_Sum
      rows1 rows2 rows3 X Y result_buf aux_buf = Ok (out, aux) /\
    dims out = [0].
Proof.
  unfold CosineSimilarityOp_RunOnDevice.
  rewrite empty_batch_checks, empty_batch_N.
  eexists; eexists; split; reflexivity.
Qed.

End EmptyBatch.

(** *** Cosine similarity *)

Section Cosine.
Variable CAFFE_HIP_NUM_THREADS : Z.
Variable BlockReduce_Sum : list F32.float -> F32.float.

Local Notation "'dot_row'" :=
  (DotProductKernel_row CAFFE_HIP_NUM_THREADS BlockReduce_Sum).
Local Notation "'dot_kernel'" :=
  (DotProductKernel CAFFE_HIP_NUM_THREADS BlockReduce_Sum).

Lemma DotProductKernel_at rows N D X Y r j :
  is_schedule N rows ->
  dot_kernel rows N D X Y r j
  = if (0 <=? j) && (j <? N) then dot_row D X Y j else r j.
Proof.
  intros Hs. unfold DotProductKernel.
  change (block_rows rows N) with (@HIP_1D_KERNEL_LOOP (ptr F32.float) rows N).
  rewrite kernel_loop_schedule by assumption.
  rewrite <- (existsb_schedule N rows j Hs).
  apply (loop_gather (fun (s : ptr F32.float) a => s a)
           (dot_row D X Y)).
  intros i s a; unfold store; reflexivity.
Qed.

Lemma enforce_same_dims_refl l msg : enforce_same_dims l l msg = Ok tt.
Proof.
  induction l as [|x l IH]; simpl; [reflexivity|].
  unfold CAFFE_ENFORCE_EQ, CAFFE_ENFORCE. now rewrite Z.eqb_refl.
Qed.

(** Row [i] of the result, as the operator computes it: the dot
    product times the inverse square root of the product of the two
    squared norms, each clamped from below by [kEps]. *)
Definition cosine_row (D : Z) (X Y : ptr F32.float) (i : Z) : F32.float :=
  F32.mul (dot_row D X Y i)
    (rsqrtf (F32.mul (fmaxf (dot_row D X X i) kEps)
                     (fmaxf (dot_row D Y Y i) kEps))).

(** Row [i] as C3 states it: the dot product divided by the product of
    the two norms, each clamped from below by [kEps]. *)
Definition cosine_row_claimed (D : Z) (X Y : ptr F32.float) (i : Z)
    : F32.float :=
  F32.fdiv (dot_row D X Y i)
    (F32.mul (fmaxf (F32.sqrt (dot_row D X X i)) kEps)
             (fmaxf (F32.sqrt (dot_row D Y Y i)) kEps)).

Definition cosine_spec
    (row : Z -> ptr F32.float -> ptr F32.float -> Z -> F32.float)
    (rows1 rows2 rows3 : list Z) (X Y : Tensor F32.float)
    (result_buf aux_buf : ptr F32.float) (i : Z) : Prop :=
  let N := if ndim X >? 0 then dim32 X 0 else 1 in
  let D := size_from_dim 1 X in
  exists out aux,
    CosineSimilarityOp_RunOnDevice CAFFE_HIP_NUM_THREADS BlockReduce_Sum
      rows1 rows2 rows3 X Y result_buf aux_buf = Ok (out, aux) /\
    dims out = [N] /\
    data out i = row D (data X) (data Y) i.

Ltac in_range_true :=
  match goal with
  | |- context [(0 <=? ?x) && (?x <? ?n)] =>
      replace ((0 <=? x) && (x <? n)) with true
        by (symmetry; apply andb_true_iff; split;
            [apply Z.leb_le | apply Z.ltb_lt]; lia)
  end.

Ltac in_range_false :=
  match goal with
  | |- context [(0 <=? ?x) && (?x <? ?n)] =>
      replace ((0 <=? x) && (x <? n)) with false
        by (symmetry; apply andb_false_iff;
            first [left; apply Z.leb_gt; lia | right; apply Z.ltb_ge; lia])
  end.

(** C3 (amended). Every row of the result is the dot product times the
    inverse square root of the product of the squared norms, the
    epsilon clamp being applied to each squared norm. *)
Theorem cosine_similarity_rows (rows1 rows2 rows3 : list Z)
    (X Y : Tensor F32.float) (result_buf aux_buf : ptr F32.float) (i : Z) :
  let N := if ndim X >? 0 then dim32 X 0 else 1 in
  dims X = dims Y ->
  is_schedule N rows1 -> is_schedule N rows2 -> is_schedule N rows3 ->
  0 <= i < N ->
  cosine_spec cosine_row rows1 rows2 rows3 X Y result_buf aux_buf i.
Proof.
  intros N Hdims Hs1 Hs2 Hs3 Hi. unfold cosine_spec.
  unfold CosineSimilarityOp_RunOnDevice.
  unfold ndim at 1 2. rewrite <- Hdims.
  unfold CAFFE_ENFORCE_EQ, CAFFE_ENFORCE. rewrite Z.eqb_refl.
  rewrite enforce_same_dims_refl. cbn [bind].
  fold (ndim X). fold N.
  eexists; eexists. split; [reflexivity|]. split; [reflexivity|].
  cbn [data].
  unfold cosine_row, math_Mul, math_InvSqrt, math_Maximum, at_offset, offset.
  repeat first [in_range_true | in_range_false].
  rewrite !DotProductKernel_at by assumption.
  repeat first [in_range_true | in_range_false].
  repeat (f_equal; try lia).
Qed.

End Cosine.

(** A block of 512 threads whose sum adds the partial sums in thread
    order. *)
Definition sequential_sum (l : list F32.float) : F32.float :=
  fold_left F32.add l F32.zero.

Definition vec (dims : list Z) (l : list Z) : Tensor F32.float :=
  mkTensor dims (fun i => F32.of_Z (nth (Z.to_nat i) l 0)).

Definition blank : ptr F32.float := fun _ => S754_nan.

Lemma cosine_similarity_rows_witness :
  cosine_spec 512 sequential_sum (cosine_row 512 sequential_sum)
    [1; 0] [0; 1] [1; 0] (vec [2; 2] [3; 4; 1; 0]) (vec [2; 2] [3; 4; 0; 1])
    blank blank 1.
Proof.
  apply cosine_similarity_rows.
  - reflexivity.
  - apply (rev_iota_schedule 2).
  - apply (iota_schedule 2).
  - apply (rev_iota_schedule 2).
  - vm_compute; split; [discriminate | reflexivity].
Defined.

(** The scenarios of the specification: equal rows have similarity 1,
    orthogonal rows similarity 0. *)
Example cosine_scenarios :
  map (cosine_row 512 sequential_sum 2
         (data (vec [2; 2] [3; 4; 1; 0])) (data (vec [2; 2] [3; 4; 0; 1])))
    (iota 2)
  = [F32.one; F32.zero].
Proof. vm_compute; reflexivity. Qed.

(** C3 as stated fails for a short row: with [X = Y = [2^-27]] the norm
    [2^-27] is far above [1e-12], so the claimed formula gives 1, while
    the squared norm [2^-54] is below [1e-12], is clamped, and the
    operator returns less than [1e-4]. *)
Lemma cosine_similarity_counterexample :
  let X := mkTensor [1; 1] (fun _ => S754_finite false 8388608 (-50)) in
  cosine_row_claimed 512 sequential_sum 1 (data X) (data X) 0 = F32.one /\
  match CosineSimilarityOp_RunOnDevice 512 sequential_sum [0] [0] [0]
          X X blank blank with
  | Ok (out, _) =>
      dims out = [1] /\
      F32.lt (data out 0) (F32.fdiv F32.one (F32.of_Z 10000)) = true /\
      data out 0 <> cosine_row_claimed 512 sequential_sum 1 (data X) (data X) 0
  | Err _ => False
  end.
Proof.
  intros X. split; [vm_compute; reflexivity|].
  vm_compute. split; [reflexivity|]. split; [reflexivity | discriminate].
Qed.

(** C4. On two inputs of shape (0, 3) the L1 distance, the dot product
    and the cosine similarity complete with an output of length 0; the
    squared L2 distance does not: it stops at the division of
    [X.size()] by [N = 0]. *)
Theorem empty_batch_squared_l2_faults :
  let X : Tensor F32.float := mkTensor [0; 3] blank in
  SquaredL2DistanceOp_RunOnDevice 512 sequential_sum [] X X blank
    = Err DivisionByZero /\
  (exists out, L1DistanceOp_RunOnDevice 512 sequential_sum [] X X blank
                 = Ok out /\ dims out = [0]) /\
  (exists out, DotProductOp_RunOnDevice 512 sequential_sum [] X X blank
                 = Ok out /\ dims out = [0]) /\
  (exists out aux,
     CosineSimilarityOp_RunOnDevice 512 sequential_sum [] [] [] X X
       blank blank = Ok (out, aux) /\ dims out = [0]).
Proof.
  intros X. split; [|split; [|split]].
  - now apply (squared_l2_empty_batch 512 sequential_sum X X [3]).
  - now apply (l1_empty_batch 512 sequential_sum X X [3]).
  - now apply (dot_product_empty_batch 512 sequential_sum X X [3]).
  - now apply (cosine_empty_batch 512 sequential_sum X X [3]).
Qed.

End DistanceProofs.

(** ** Max pooling *)

Module MaxPoolProofs.
Import Device Framework KernelLemmas LoopFacts MaxPool.

(** *** The scan for the maximum *)

Section Scan.
Context {A : Type} (val : A -> F32.float) (idx : A -> Z).

Definition step (acc : F32.float * Z) (c : A) : F32.float * Z :=
  if F32.gt (val c) (fst acc) then (val c, idx c) else acc.

(** [c] holds the first maximum of [cells]: no cell holds a greater
    value, and no cell before [c] holds a value as great. *)
Definition first_max (cells : list A) (c : A) : Prop :=
  exists before after,
    cells = before ++ c :: after /\
    (forall y, In y cells -> F32.gt (val y) (val c) = false) /\
    (forall y, In y before -> F32.ge (val y) (val c) = false).

Lemma scan_spec cells m0 i0 :
  let r := fold_left step cells (m0, i0) in
  (r = (m0, i0) /\ forall y, In y cells -> F32.gt (val y) m0 = false) \/
  (exists c, r = (val c, idx c) /\ F32.gt (val c) m0 = true /\
             first_max cells c).
Proof.
  revert m0 i0; induction cells as [|x cells IH]; intros m0 i0; simpl.
  - left; split; [reflexivity | intros y []].
  - change (step (m0, i0) x)
      with (if F32.gt (val x) m0 then (val x, idx x) else (m0, i0)).
    destruct (F32.gt (val x) m0) eqn:Hx.
    + right. destruct (IH (val x) (idx x)) as [[Hr Hall]|(c & Hr & Hc & Hf)].
      * exists x; split; [assumption|]; split; [assumption|].
        exists [], cells; split; [reflexivity|]; split.
        -- intros y [<-|Hy]; [apply F32Facts.lt_irrefl | now apply Hall].
        -- intros y [].
      * destruct Hf as (before & after & -> & Hmax & Hfirst).
        exists c; split; [assumption|]; split.
        -- unfold F32.gt in *; eapply F32Facts.lt_trans; eassumption.
        -- exists (x :: before), after; split; [reflexivity|]; split.
           ++ intros y [<-|Hy]; [|now apply Hmax].
              now apply F32Facts.lt_asym.
           ++ intros y [<-|Hy]; [|now apply Hfirst].
              now apply F32Facts.lt_not_le.
    + destruct (IH m0 i0) as [[Hr Hall]|(c & Hr & Hc & Hf)].
      * left; split; [assumption|].
        intros y [<-|Hy]; [assumption | now apply Hall].
      * right. destruct Hf as (before & after & -> & Hmax & Hfirst).
        exists c; split; [assumption|]; split; [assumption|].
        exists (x :: before), after; split; [reflexivity|]; split.
        -- intros y [<-|Hy]; [|now apply Hmax].
           apply not_true_is_false; intros Hgt.
           unfold F32.gt in *.
           pose proof (F32Facts.lt_trans _ _ _ Hc Hgt). congruence.
        -- intros y [<-|Hy]; [|now apply Hfirst].
           apply not_true_is_false; intros Hge.
           unfold F32.gt, F32.ge in *.
           pose proof (F32Facts.lt_le_trans _ _ _ Hc Hge). congruence.
Qed.

End Scan.

(** *** The forward kernel *)

Section Forward.
Context {T : Type} `{Dtype T}.
Variables (bottom_data : ptr T).
Variables (num channels height width pooled_height pooled_width : Z).
Variables (kernel_h kernel_w stride_h stride_w pad_h pad_w : Z).

(** The clamped window of output cell [(ph, pw)], row by row:
    [[hstart, hend) x [wstart, wend)] with
    [hstart = max(ph * stride_h - pad_h, 0)] and
    [hend = min(ph * stride_h - pad_h + kernel_h, height)]. *)
Definition window (ph pw : Z) : list (Z * Z) :=
  rect pair
    (Z.max (ph * stride_h - pad_h) 0)
    (Z.min (ph * stride_h - pad_h + kernel_h) height)
    (Z.max (pw * stride_w - pad_w) 0)
    (Z.min (pw * stride_w - pad_w + kernel_w) width).

(** The input value at [(n, c, h, w)], as the scan reads it, and the
    flat spatial index of the cell. *)
Definition value (n c : Z) (hw : Z * Z) : F32.float :=
  to_float
    (bottom_data (((n * channels + c) * height + fst hw) * width + snd hw)).

Definition flat (hw : Z * Z) : Z := fst hw * width + snd hw.

Lemma in_window ph pw h w :
  In (h, w) (window ph pw) <->
  Z.max (ph * stride_h - pad_h) 0 <= h
    < Z.min (ph * stride_h - pad_h + kernel_h) height /\
  Z.max (pw * stride_w - pad_w) 0 <= w
    < Z.min (pw * stride_w - pad_w + kernel_w) width.
Proof.
  unfold window, rect; rewrite in_flat_map; split.
  - intros (h' & Hh & Hw). apply in_map_iff in Hw.
    destruct Hw as (w' & E & Hw); injection E as -> ->.
    apply in_range in Hh, Hw. now split.
  - intros [Hh Hw]; exists h; split; [now apply in_range|].
    apply in_map_iff; exists w; split; [reflexivity | now apply in_range].
Qed.

(** The window the kernel scans: the same bounds, computed in [int]. *)
Definition int_window (ph pw : Z) : list (Z * Z) :=
  let hstart := CInt.sub (CInt.mul ph stride_h) pad_h in
  let wstart := CInt.sub (CInt.mul pw stride_w) pad_w in
  rect pair
    (Z.max hstart 0) (Z.min (CInt.add hstart kernel_h) height)
    (Z.max wstart 0) (Z.min (CInt.add wstart kernel_w) width).

(** The bounds of the window of [(ph, pw)] are computed without
    overflow: every intermediate value is an [int]. *)
Definition window_fits (ph pw : Z) : Prop :=
  CInt.fits (ph * stride_h) /\ CInt.fits (ph * stride_h - pad_h) /\
  CInt.fits (ph * stride_h - pad_h + kernel_h) /\
  CInt.fits (pw * stride_w) /\ CInt.fits (pw * stride_w - pad_w) /\
  CInt.fits (pw * stride_w - pad_w + kernel_w).

Lemma int_window_fits ph pw :
  window_fits ph pw -> int_window ph pw = window ph pw.
Proof.
  intros (H1 & H2 & H3 & H4 & H5 & H6). unfold int_window, window.
  rewrite (CIntFacts.mul_fits ph stride_h H1).
  rewrite (CIntFacts.mul_fits pw stride_w H4).
  rewrite (CIntFacts.sub_fits _ pad_h H2), (CIntFacts.sub_fits _ pad_w H5).
  rewrite (CIntFacts.add_fits _ kernel_h H3).
  rewrite (CIntFacts.add_fits _ kernel_w H6).
  reflexivity.
Qed.

(** Whatever the bounds come to, the cells scanned lie in the image. *)
Lemma in_int_window ph pw h w :
  In (h, w) (int_window ph pw) -> 0 <= h < height /\ 0 <= w < width.
Proof.
  unfold int_window, rect; rewrite in_flat_map.
  intros (h' & Hh & Hw). apply in_map_iff in Hw.
  destruct Hw as (w' & E & Hw); injection E as -> ->.
  apply in_range in Hh, Hw. lia.
Qed.

Lemma forward_cell_scan n c ph pw :
  0 <= n -> 0 <= c < channels ->
  0 <= ph < pooled_height -> 0 <= pw < pooled_width ->
  MaxPoolForward_cell bottom_data num channels height width
    pooled_height pooled_width kernel_h kernel_w stride_h stride_w
    pad_h pad_w (((n * channels + c) * pooled_height + ph) * pooled_width + pw)
  = let r := fold_left (step (value n c) flat) (int_window ph pw)
               (F32.neg F32.FLT_MAX, -1) in
    (of_float (fst r), snd r).
Proof.
  intros Hn Hc Hph Hpw. unfold MaxPoolForward_cell.
  destruct (CIntFacts.decompose4 n c ph pw channels pooled_height pooled_width
              Hn Hc Hph Hpw) as (-> & -> & -> & ->).
  rewrite !CIntFacts.min_spec, !CIntFacts.max_spec.
  unfold scan_window.
  rewrite (for_range_nest pair
             (fun hw => scan_cell _ width (fst hw) (snd hw))).
  fold (int_window ph pw).
  rewrite (fold_left_ext _ (step (value n c) flat) (int_window ph pw)).
  - cbv zeta; now destruct (fold_left _ _ _).
  - intros [m i] [h w] _.
    unfold step, scan_cell, value, flat, offset; simpl.
    replace ((n * channels + c) * height * width + (h * width + w))
      with (((n * channels + c) * height + h) * width + w) by ring.
    reflexivity.
Qed.

Lemma forward_body_gather i (s : ptr T * ptr Z) j :
  (fun (s : ptr T * ptr Z) a => (fst s a, snd s a))
    ((fun index '(top_data, mask) =>
        let '(v, idx) :=
          MaxPoolForward_cell bottom_data num channels height width
            pooled_height pooled_width kernel_h kernel_w stride_h stride_w
            pad_h pad_w index in
        (store top_data index v, store mask index idx)) i s) j
  = if j =? i
    then MaxPoolForward_cell bottom_data num channels height width
           pooled_height pooled_width kernel_h kernel_w stride_h stride_w
           pad_h pad_w i
    else (fst s j, snd s j).
Proof.
  destruct s as [top mask]; cbv beta.
  destruct (MaxPoolForward_cell _ _ _ _ _ _ _ _ _ _ _ _ _ i) as [v idx].
  simpl; unfold store; now destruct (j =? i).
Qed.

(** What the kernel leaves at an output cell, for every schedule. *)
Lemma forward_at sched top0 mask0 n c ph pw :
  is_schedule (num * channels * pooled_height * pooled_width) sched ->
  0 <= n < num -> 0 <= c < channels ->
  0 <= ph < pooled_height -> 0 <= pw < pooled_width ->
  let index := ((n * channels + c) * pooled_height + ph) * pooled_width + pw in
  let out :=
    MaxPoolForward sched (num * channels * pooled_height * pooled_width)
      bottom_data num channels height width pooled_height pooled_width
      kernel_h kernel_w stride_h stride_w pad_h pad_w top0 mask0 in
  let r := fold_left (step (value n c) flat) (int_window ph pw)
             (F32.neg F32.FLT_MAX, -1) in
  fst out index = of_float (fst r) /\ snd out index = snd r.
Proof.
  intros Hs Hn Hc Hph Hpw index out r.
  pose proof (CIntFacts.flat_bound n c ph pw num channels pooled_height
                pooled_width Hn Hc Hph Hpw) as Hi.
  pose proof (loop_gather_schedule
                (fun (s : ptr T * ptr Z) a => (fst s a, snd s a)) _ _
                _ sched (top0, mask0) index forward_body_gather Hs Hi) as Hg.
  cbv beta in Hg. subst index.
  rewrite forward_cell_scan in Hg by lia.
  fold r in Hg. cbv zeta in Hg.
  change (HIP_1D_KERNEL_LOOP sched _ _ _) with out in Hg.
  injection Hg as H1 H2. now split.
Qed.

(** The cell of the window that holds its first maximum.  Its value
    is greater than [-FLT_MAX], hence no NaN; no value of the window
    compares greater, so that every value of the window that is not a
    NaN is at most it; and no cell that comes before it in row-major
    order holds a value as great. *)
Definition window_max (n c ph pw h w : Z) : Prop :=
  In (h, w) (window ph pw) /\
  F32.gt (value n c (h, w)) (F32.neg F32.FLT_MAX) = true /\
  (forall h' w', In (h', w') (window ph pw) ->
     F32.gt (value n c (h', w')) (value n c (h, w)) = false) /\
  (forall h' w', In (h', w') (window ph pw) ->
     value n c (h', w') <> S754_nan ->
     F32.le (value n c (h', w')) (value n c (h, w)) = true) /\
  (forall h' w', In (h', w') (window ph pw) ->
     h' < h \/ (h' = h /\ w' < w) ->
     F32.ge (value n c (h', w')) (value n c (h, w)) = false).

(** A window has at most one such cell. *)
Lemma window_max_unique n c ph pw h1 w1 h2 w2 :
  window_max n c ph pw h1 w1 -> window_max n c ph pw h2 w2 ->
  h1 = h2 /\ w1 = w2.
Proof.
  intros (Hin1 & Hgt1 & Hmax1 & _ & Hfst1) (Hin2 & Hgt2 & Hmax2 & _ & Hfst2).
  destruct (F32Facts.lt_not_nan _ _ Hgt1) as [_ Hn1].
  destruct (F32Facts.lt_not_nan _ _ Hgt2) as [_ Hn2].
  assert ((h1 < h2 \/ (h1 = h2 /\ w1 < w2)) \/ (h1 = h2 /\ w1 = w2) \/
          (h2 < h1 \/ (h2 = h1 /\ w2 < w1))) as [Hlt|[E|Hlt]] by lia.
  - exfalso.
    pose proof (Hfst2 h1 w1 Hin1 Hlt) as Hge.
    pose proof (Hmax1 h2 w2 Hin2) as Hgt.
    unfold F32.ge, F32.gt in *.
    destruct (F32Facts.lt_or_ge _ _ Hn1 Hn2); congruence.
  - exact E.
  - exfalso.
    pose proof (Hfst1 h2 w2 Hin2 Hlt) as Hge.
    pose proof (Hmax2 h1 w1 Hin1) as Hgt.
    unfold F32.ge, F32.gt in *.
    destruct (F32Facts.lt_or_ge _ _ Hn2 Hn1); congruence.
Qed.

(** The property of an output cell: value and mask are those of the
    cell of its clamped window that holds the first maximum, the only
    cell of the window with that property. *)
Definition forward_cell_spec (sched : list Z) (top0 : ptr T) (mask0 : ptr Z)
    (n c ph pw : Z) : Prop :=
  let index := ((n * channels + c) * pooled_height + ph) * pooled_width + pw in
  let out :=
    MaxPoolForward sched (num * channels * pooled_height * pooled_width)
      bottom_data num channels height width pooled_height pooled_width
      kernel_h kernel_w stride_h stride_w pad_h pad_w top0 mask0 in
  exists h w,
    window_max n c ph pw h w /\
    0 <= h < height /\ 0 <= w < width /\
    fst out index = of_float (value n c (h, w)) /\
    snd out index = h * width + w /\
    (forall h' w', window_max n c ph pw h' w' -> h' = h /\ w' = w).

(** C1 (amended). When the bounds of its window are computed without
    [int] overflow, an output cell whose clamped window holds a value
    greater than [-FLT_MAX] receives the maximum of the window, and its
    mask entry is the flat index [h * width + w] of the first cell, in
    row-major order, that holds the maximum; the window has one cell
    only that qualifies. *)
Theorem max_pool_forward_first_max (sched : list Z) (top0 : ptr T)
    (mask0 : ptr Z) (n c ph pw : Z) :
  is_schedule (num * channels * pooled_height * pooled_width) sched ->
  0 <= n < num -> 0 <= c < channels ->
  0 <= ph < pooled_height -> 0 <= pw < pooled_width ->
  window_fits ph pw ->
  (exists hw, In hw (window ph pw) /\
              F32.gt (value n c hw) (F32.neg F32.FLT_MAX) = true) ->
  forward_cell_spec sched top0 mask0 n c ph pw.
Proof.
  intros Hs Hn Hc Hph Hpw Hfit (hw0 & Hin0 & Hgt0).
  unfold forward_cell_spec.
  destruct (forward_at sched top0 mask0 n c ph pw Hs Hn Hc Hph Hpw)
    as [Htop Hmask].
  rewrite Htop, Hmask, (int_window_fits ph pw Hfit).
  destruct (scan_spec (value n c) flat (window ph pw)
              (F32.neg F32.FLT_MAX) (-1)) as [[_ Hall]|(hw & Hr & Hgt & Hf)].
  - rewrite (Hall hw0 Hin0) in Hgt0. discriminate.
  - destruct hw as [h w]. exists h, w. rewrite Hr. cbn [fst snd].
    destruct Hf as (before & after & Ecells & Hmax & Hfirst).
    assert (Hin : In (h, w) (window ph pw))
      by (rewrite Ecells; apply in_or_app; right; now left).
    destruct (F32Facts.lt_not_nan _ _ Hgt) as [_ Hnan].
    assert (Hwm : window_max n c ph pw h w).
    { split; [assumption|]. split; [assumption|]. split; [|split].
      - intros h' w' Hin'. now apply Hmax.
      - intros h' w' Hin' Hnan'.
        pose proof (Hmax (h', w') Hin') as Hle. unfold F32.gt in Hle.
        destruct (F32Facts.lt_or_ge _ _ Hnan Hnan'); congruence.
      - intros h' w' Hin' Hlex. apply Hfirst.
        rewrite Ecells in Hin'. apply in_app_or in Hin'.
        destruct Hin' as [Hb|[E|Ha]]; [assumption| |].
        + injection E as -> ->. lia.
        + unfold window in Ecells.
          pose proof (rect_after _ _ _ _ _ _ _ _ Ecells h' w' Ha). lia. }
    apply in_window in Hin.
    split; [assumption|]. split; [lia|]. split; [lia|].
    split; [reflexivity|]. split; [reflexivity|].
    intros h' w' Hwm'. apply (window_max_unique n c ph pw); assumption.
Qed.

(** The clamped window of [(ph, pw)] is empty: [hend <= hstart] or
    [wend <= wstart], for the bounds the kernel computes. *)
Definition empty_window (ph pw : Z) : Prop :=
  let hstart := CInt.sub (CInt.mul ph stride_h) pad_h in
  let wstart := CInt.sub (CInt.mul pw stride_w) pad_w in
  let hend := CInt.min (CInt.add hstart kernel_h) height in
  let wend := CInt.min (CInt.add wstart kernel_w) width in
  let hstart := CInt.max hstart 0 in
  let wstart := CInt.max wstart 0 in
  hend <= hstart \/ wend <= wstart.

(** A cell whose clamped window is empty keeps the initial values of
    the scan. *)
Lemma forward_empty_window sched top0 mask0 n c ph pw :
  is_schedule (num * channels * pooled_height * pooled_width) sched ->
  0 <= n < num -> 0 <= c < channels ->
  0 <= ph < pooled_height -> 0 <= pw < pooled_width ->
  empty_window ph pw ->
  let index := ((n * channels + c) * pooled_height + ph) * pooled_width + pw in
  let out :=
    MaxPoolForward sched (num * channels * pooled_height * pooled_width)
      bottom_data num channels height width pooled_height pooled_width
      kernel_h kernel_w stride_h stride_w pad_h pad_w top0 mask0 in
  fst out index = of_float (F32.neg F32.FLT_MAX) /\ snd out index = -1.
Proof.
  intros Hs Hn Hc Hph Hpw Hempty index out.
  destruct (forward_at sched top0 mask0 n c ph pw Hs Hn Hc Hph Hpw)
    as [Htop Hmask].
  fold index in Htop, Hmask. fold out in Htop, Hmask.
  rewrite Htop, Hmask.
  assert (Hw : int_window ph pw = []).
  { unfold empty_window in Hempty. cbv zeta in Hempty.
    rewrite !CIntFacts.min_spec, !CIntFacts.max_spec in Hempty.
    unfold int_window, rect. destruct Hempty as [Hh|Hw].
    - now rewrite (range_nil _ _ Hh).
    - rewrite (range_nil _ _ Hw). apply flat_map_nil. reflexivity. }
  rewrite Hw. split; reflexivity.
Qed.

(** Every mask entry the kernel writes is [-1] or the flat index of a
    cell of the window. *)
Lemma forward_mask_cases sched top0 mask0 n c ph pw :
  is_schedule (num * channels * pooled_height * pooled_width) sched ->
  0 <= n < num -> 0 <= c < channels ->
  0 <= ph < pooled_height -> 0 <= pw < pooled_width ->
  let index := ((n * channels + c) * pooled_height + ph) * pooled_width + pw in
  let out :=
    MaxPoolForward sched (num * channels * pooled_height * pooled_width)
      bottom_data num channels height width pooled_height pooled_width
      kernel_h kernel_w stride_h stride_w pad_h pad_w top0 mask0 in
  snd out index = -1 \/
  exists h w, In (h, w) (int_window ph pw) /\ snd out index = h * width + w.
Proof.
  intros Hs Hn Hc Hph Hpw index out.
  destruct (forward_at sched top0 mask0 n c ph pw Hs Hn Hc Hph Hpw)
    as [_ Hmask].
  fold index in Hmask. fold out in Hmask. rewrite Hmask.
  destruct (scan_spec (value n c) flat (int_window ph pw)
              (F32.neg F32.FLT_MAX) (-1)) as [[Hr _]|(hw & Hr & _ & Hf)].
  - left; now rewrite Hr.
  - right; destruct hw as [h w]; exists h, w; rewrite Hr; split.
    + destruct Hf as (before & after & -> & _).
      apply in_or_app; right; now left.
    + reflexivity.
Qed.

End Forward.

(** *** The backward kernel *)

Section Backward.
Context {T : Type} `{Dtype T}.
Variables (num channels height width pooled_height pooled_width : Z).
Variables (kernel_h kernel_w stride_h stride_w pad_h pad_w : Z).

Lemma backward_at sched top_diff mask bottom0 j :
  is_schedule (num * channels * height * width) sched ->
  0 <= j < num * channels * height * width ->
  MaxPoolBackward sched (num * channels * height * width) top_diff mask
    num channels height width pooled_height pooled_width
    kernel_h kernel_w stride_h stride_w pad_h pad_w bottom0 j
  = MaxPoolBackward_cell top_diff mask num channels height width
      pooled_height pooled_width kernel_h kernel_w stride_h stride_w
      pad_h pad_w j.
Proof.
  intros Hs Hj. unfold MaxPoolBackward.
  apply (loop_gather_schedule (fun (s : ptr T) a => s a)
           (MaxPoolBackward_cell top_diff mask num channels height width
              pooled_height pooled_width kernel_h kernel_w stride_h stride_w
              pad_h pad_w)
           _ (num * channels * height * width) sched bottom0 j);
    try assumption.
  intros i s a; unfold store; reflexivity.
Qed.

(** An output cell whose mask entry is [-1] is never read: its
    upstream gradient reaches no input cell. *)
Lemma backward_cell_ignores top_diff mask o v index :
  mask o = -1 -> 0 <= index -> 0 < height -> 0 < width ->
  MaxPoolBackward_cell (store top_diff o v) mask num channels height width
    pooled_height pooled_width kernel_h kernel_w stride_h stride_w
    pad_h pad_w index
  = MaxPoolBackward_cell top_diff mask num channels height width
      pooled_height pooled_width kernel_h kernel_w stride_h stride_w
      pad_h pad_w index.
Proof.
  intros Hm Hi Hh Hw. unfold MaxPoolBackward_cell; cbv zeta.
  f_equal. apply for_range_ext; intros ph g _.
  apply for_range_ext; intros pw g' _.
  unfold offset, store.
  match goal with
  | |- context [mask ?a =? ?b] =>
      destruct (Z.eqb_spec (mask a) b) as [E|]; [|reflexivity]
  end.
  match goal with
  | |- context [?a =? o] =>
      destruct (Z.eqb_spec a o) as [E'|]; [|reflexivity]
  end.
  exfalso. rewrite E', Hm in E.
  assert (0 <= CInt.div index width)
    by (unfold CInt.div; apply Z.quot_pos; lia).
  assert (0 <= CInt.rem index width)
    by (unfold CInt.rem; apply Z.rem_nonneg; lia).
  assert (0 <= CInt.rem (CInt.div index width) height)
    by (unfold CInt.rem; apply Z.rem_nonneg; lia).
  nia.
Qed.

(** The inverse of the window formula: the output rows whose window
    contains input row [h]. *)
Lemma window_inverse h q stride pad kernel size :
  0 < stride -> 0 <= pad -> 0 <= h -> 0 <= q ->
  Z.max (q * stride - pad) 0 <= h < Z.min (q * stride - pad + kernel) size ->
  (if h + pad <? kernel then 0
   else CInt.div (h + pad - kernel) stride + 1) <= q
  /\ q < CInt.div (h + pad) stride + 1.
Proof.
  intros Hs Hp Hh Hq0 Hq.
  rewrite (CIntFacts.div_nonneg (h + pad) stride) by lia.
  split.
  - destruct (Z.ltb_spec (h + pad) kernel); [assumption|].
    rewrite CIntFacts.div_nonneg by lia.
    assert ((h + pad - kernel) / stride < q); [|lia].
    apply Z.div_lt_upper_bound; nia.
  - assert (q <= (h + pad) / stride); [|lia].
    apply Z.div_le_lower_bound; nia.
Qed.

(** The configurations in which neither kernel overflows an [int]:
    the window bounds of the forward kernel for every output cell, and
    the range of output cells the backward kernel visits for every
    input cell. *)
Definition pooling_fits : Prop :=
  0 <= kernel_h /\ 0 <= kernel_w /\
  height + pad_h <= CInt.INT_MAX /\ width + pad_w <= CInt.INT_MAX /\
  (pooled_height - 1) * stride_h + kernel_h <= CInt.INT_MAX /\
  (pooled_width - 1) * stride_w + kernel_w <= CInt.INT_MAX.

Lemma pooling_window_fits ph pw :
  pooling_fits ->
  0 < stride_h -> 0 < stride_w -> 0 <= pad_h -> 0 <= pad_w ->
  0 <= height -> 0 <= width ->
  0 <= ph < pooled_height -> 0 <= pw < pooled_width ->
  window_fits kernel_h kernel_w stride_h stride_w pad_h pad_w ph pw.
Proof.
  unfold pooling_fits, window_fits, CInt.fits, CInt.INT_MIN, CInt.INT_MAX.
  intros (Hkh & Hkw & Hh & Hw & Hph & Hpw) Hsh Hsw Hpadh Hpadw HH HW Hq Hr.
  assert (0 <= ph * stride_h <= (pooled_height - 1) * stride_h) by nia.
  assert (0 <= pw * stride_w <= (pooled_width - 1) * stride_w) by nia.
  lia.
Qed.

(** Under these conditions the bounds the backward kernel computes in
    [int] are those of the exact formulas. *)
Lemma int_start h pad kernel stride size :
  0 < stride -> 0 <= pad -> 0 <= kernel -> 0 <= h < size ->
  size + pad <= CInt.INT_MAX ->
  (if CInt.add h pad <? kernel then 0
   else CInt.add (CInt.div (CInt.sub (CInt.add h pad) kernel) stride) 1)
  = (if h + pad <? kernel then 0
     else CInt.div (h + pad - kernel) stride + 1).
Proof.
  unfold CInt.INT_MAX. intros Hs Hp Hk Hh Hfit.
  rewrite (CIntFacts.add_fits h pad)
    by (unfold CInt.fits, CInt.INT_MIN, CInt.INT_MAX; lia).
  destruct (Z.ltb_spec (h + pad) kernel); [reflexivity|].
  rewrite CIntFacts.sub_fits
    by (unfold CInt.fits, CInt.INT_MIN, CInt.INT_MAX; lia).
  apply CIntFacts.add_fits.
  rewrite CIntFacts.div_nonneg by lia.
  pose proof (Z.div_le_upper_bound (h + pad - kernel) stride
                (h + pad - kernel) Hs ltac:(nia)).
  pose proof (Z.div_pos (h + pad - kernel) stride ltac:(lia) Hs).
  unfold CInt.fits, CInt.INT_MIN, CInt.INT_MAX; lia.
Qed.

Lemma int_end h pad stride size :
  0 < stride -> 0 <= pad -> 0 <= h < size -> size + pad <= CInt.INT_MAX ->
  CInt.add (CInt.div (CInt.add h pad) stride) 1
  = CInt.div (h + pad) stride + 1.
Proof.
  unfold CInt.INT_MAX. intros Hs Hp Hh Hfit.
  rewrite (CIntFacts.add_fits h pad)
    by (unfold CInt.fits, CInt.INT_MIN, CInt.INT_MAX; lia).
  apply CIntFacts.add_fits.
  rewrite CIntFacts.div_nonneg by lia.
  pose proof (Z.div_le_upper_bound (h + pad) stride (h + pad) Hs ltac:(nia)).
  pose proof (Z.div_pos (h + pad) stride ltac:(lia) Hs).
  unfold CInt.fits, CInt.INT_MIN, CInt.INT_MAX; lia.
Qed.

(** The output cells of image [(n, c)] whose mask entry is the flat
    index of input cell [(h, w)], in row-major order. *)
Definition routed (mask : ptr Z) (n c h w : Z) : list Z :=
  filter (fun o =>
            mask ((n * channels + c) * pooled_height * pooled_width + o)
            =? h * width + w)
    (iota (pooled_height * pooled_width)).

(** A mask as the forward pass leaves it. *)
Definition mask_in_window (mask : ptr Z) (n c : Z) : Prop :=
  forall ph pw, 0 <= ph < pooled_height -> 0 <= pw < pooled_width ->
    let o := (n * channels + c) * pooled_height * pooled_width
             + (ph * pooled_width + pw) in
    mask o = -1 \/
    exists h w,
      In (h, w) (window height width kernel_h kernel_w stride_h stride_w
                   pad_h pad_w ph pw) /\
      mask o = h * width + w.

Lemma backward_cell_sum top_diff mask n c h w :
  pooling_fits ->
  0 < stride_h -> 0 < stride_w -> 0 <= pad_h -> 0 <= pad_w ->
  0 <= pooled_height -> 0 <= pooled_width ->
  0 <= n -> 0 <= c < channels -> 0 <= h < height -> 0 <= w < width ->
  mask_in_window mask n c ->
  MaxPoolBackward_cell top_diff mask num channels height width
    pooled_height pooled_width kernel_h kernel_w stride_h stride_w
    pad_h pad_w (((n * channels + c) * height + h) * width + w)
  = of_float
      (fold_left
         (fun g o =>
            F32.add g
              (to_float
                 (top_diff
                    ((n * channels + c) * pooled_height * pooled_width + o))))
         (routed mask n c h w) F32.zero).
Proof.
  intros Hfit Hsh Hsw Hph Hpw HPH HPW Hn Hc Hh Hw Hmask.
  destruct Hfit as (Hkh & Hkw & Hfh & Hfw & _).
  unfold MaxPoolBackward_cell.
  destruct (CIntFacts.decompose4 n c h w channels height width Hn Hc Hh Hw)
    as (-> & -> & -> & ->).
  cbv zeta.
  rewrite (int_start h pad_h kernel_h stride_h height) by assumption.
  rewrite (int_start w pad_w kernel_w stride_w width) by assumption.
  rewrite (int_end h pad_h stride_h height) by assumption.
  rewrite (int_end w pad_w stride_w width) by assumption.
  f_equal.
  rewrite (for_range_nest (fun ph pw => ph * pooled_width + pw)
             (fun o g =>
                if offset mask ((n * channels + c) * pooled_height
                                * pooled_width) o =? h * width + w
                then F32.add g
                       (to_float
                          (offset top_diff
                             ((n * channels + c) * pooled_height
                              * pooled_width) o))
                else g)).
  rewrite (fold_left_filter
             (fun o => offset mask ((n * channels + c) * pooled_height
                                    * pooled_width) o =? h * width + w)
             (fun g o =>
                F32.add g
                  (to_float
                     (offset top_diff
                        ((n * channels + c) * pooled_height * pooled_width)
                        o)))).
  unfold routed, offset. f_equal.
  set (P := fun o : Z =>
              mask ((n * channels + c) * pooled_height * pooled_width + o)
              =? h * width + w).
  set (phs := if h + pad_h <? kernel_h then 0
              else CInt.div (h + pad_h - kernel_h) stride_h + 1).
  set (pws := if w + pad_w <? kernel_w then 0
              else CInt.div (w + pad_w - kernel_w) stride_w + 1).
  set (phe := CInt.min (CInt.div (h + pad_h) stride_h + 1) pooled_height).
  set (pwe := CInt.min (CInt.div (w + pad_w) stride_w + 1) pooled_width).
  assert (K : forall q r, 0 <= q < pooled_height -> 0 <= r < pooled_width ->
                P (q * pooled_width + r) = true ->
                phs <= q < phe /\ pws <= r < pwe).
  { intros q r Hq Hr HP. unfold P in HP. apply Z.eqb_eq in HP.
    destruct (Hmask q r Hq Hr) as [E|(h' & w' & Hin & E)];
      cbv zeta in E; rewrite HP in E; [nia|].
    apply in_window in Hin. destruct Hin as [Hh' Hw'].
    assert (h = h' /\ w = w') as [<- <-]
      by (apply (CIntFacts.flat_inj h w h' w' width); lia).
    unfold phs, phe, pws, pwe. rewrite !CIntFacts.min_spec.
    pose proof (window_inverse h q stride_h pad_h kernel_h height).
    pose proof (window_inverse w r stride_w pad_w kernel_w width).
    lia. }
  assert (Hphs : 0 <= phs).
  { unfold phs. destruct (Z.ltb_spec (h + pad_h) kernel_h); [lia|].
    assert (0 <= CInt.div (h + pad_h - kernel_h) stride_h)
      by (unfold CInt.div; apply Z.quot_pos; lia). lia. }
  assert (Hpws : 0 <= pws).
  { unfold pws. destruct (Z.ltb_spec (w + pad_w) kernel_w); [lia|].
    assert (0 <= CInt.div (w + pad_w - kernel_w) stride_w)
      by (unfold CInt.div; apply Z.quot_pos; lia). lia. }
  assert (Hphe : phe <= pooled_height)
    by (unfold phe; rewrite CIntFacts.min_spec; lia).
  assert (Hpwe : pwe <= pooled_width)
    by (unfold pwe; rewrite CIntFacts.min_spec; lia).
  rewrite iota_mul by assumption. unfold rect.
  rewrite !filter_flat_map.
  rewrite (flat_map_restrict _ pooled_height phs phe).
  - apply flat_map_ext_in; intros q Hq. apply in_range in Hq.
    rewrite !filter_map_comm, (filter_restrict _ pooled_width pws pwe).
    + reflexivity.
    + intros r Hr Hout. apply not_true_is_false; intros HP.
      destruct (K q r) as [_ ?]; try assumption; lia.
    + intros r Hr; lia.
  - intros q Hq Hout. apply filter_nil; intros o Ho.
    apply in_map_iff in Ho. destruct Ho as (r & <- & Hr).
    apply in_iota in Hr.
    apply not_true_is_false; intros HP.
    destruct (K q r) as [? _]; try assumption; lia.
  - intros q Hq; lia.
Qed.

End Backward.

(** *** Forward pass followed by backward pass *)

Section Pipeline.
Context {T : Type} `{Dtype T}.
Variables (X : ptr T).
Variables (num channels height width pooled_height pooled_width : Z).
Variables (kernel_h kernel_w stride_h stride_w pad_h pad_w : Z).

(** The mask the forward kernel leaves, and the gradient the backward
    kernel computes from a mask. *)
Definition forward_mask (schedF : list Z) (top0 : ptr T) (mask0 : ptr Z)
    : ptr Z :=
  snd (MaxPoolForward schedF (num * channels * pooled_height * pooled_width)
         X num channels height width pooled_height pooled_width
         kernel_h kernel_w stride_h stride_w pad_h pad_w top0 mask0).

Definition backward (schedB : list Z) (top_diff : ptr T) (mask : ptr Z)
    (bottom0 : ptr T) : ptr T :=
  MaxPoolBackward schedB (num * channels * height * width) top_diff mask
    num channels height width pooled_height pooled_width
    kernel_h kernel_w stride_h stride_w pad_h pad_w bottom0.

Lemma forward_mask_in_window schedF top0 mask0 n c :
  pooling_fits height width pooled_height pooled_width
    kernel_h kernel_w stride_h stride_w pad_h pad_w ->
  0 < stride_h -> 0 < stride_w -> 0 <= pad_h -> 0 <= pad_w ->
  0 <= height -> 0 <= width ->
  is_schedule (num * channels * pooled_height * pooled_width) schedF ->
  0 <= n < num -> 0 <= c < channels ->
  mask_in_window channels height width pooled_height pooled_width
    kernel_h kernel_w stride_h stride_w pad_h pad_w
    (forward_mask schedF top0 mask0) n c.
Proof.
  intros Hfit Hsh Hsw Hpadh Hpadw HH HW Hs Hn Hc ph pw Hph Hpw o.
  pose proof (forward_mask_cases X num channels height width
                pooled_height pooled_width kernel_h kernel_w
                stride_h stride_w pad_h pad_w schedF top0 mask0
                n c ph pw Hs Hn Hc Hph Hpw) as Hm.
  cbv zeta in Hm. unfold forward_mask, o.
  replace ((n * channels + c) * pooled_height * pooled_width
           + (ph * pooled_width + pw))
    with (((n * channels + c) * pooled_height + ph) * pooled_width + pw)
    by ring.
  rewrite int_window_fits in Hm
    by (apply (pooling_window_fits height width pooled_height pooled_width);
        assumption).
  exact Hm.
Qed.

(** The fate of an output cell without an argmax: the value
    [expected], mask [-1], a mask that is the flat index of no input
    cell, and an input gradient that does not depend on the cell's
    upstream gradient. *)
Definition sentinel_spec (expected : T) (schedF : list Z) (top0 : ptr T)
    (mask0 : ptr Z) (n c ph pw : Z) : Prop :=
  let index := ((n * channels + c) * pooled_height + ph) * pooled_width + pw in
  let out :=
    MaxPoolForward schedF (num * channels * pooled_height * pooled_width)
      X num channels height width pooled_height pooled_width
      kernel_h kernel_w stride_h stride_w pad_h pad_w top0 mask0 in
  fst out index = expected /\
  snd out index = -1 /\
  (forall h w, 0 <= h < height -> 0 <= w < width ->
     h * width + w <> snd out index) /\
  (forall schedB top_diff v bottom0 j,
     is_schedule (num * channels * height * width) schedB ->
     0 <= j < num * channels * height * width ->
     backward schedB (store top_diff index v) (snd out) bottom0 j
     = backward schedB top_diff (snd out) bottom0 j).

(** For either element type the value written is the conversion of
    [-FLT_MAX]. *)
Lemma empty_window_sentinel (schedF : list Z) (top0 : ptr T)
    (mask0 : ptr Z) (n c ph pw : Z) :
  is_schedule (num * channels * pooled_height * pooled_width) schedF ->
  0 <= n < num -> 0 <= c < channels ->
  0 <= ph < pooled_height -> 0 <= pw < pooled_width ->
  0 < height -> 0 < width ->
  empty_window height width kernel_h kernel_w stride_h stride_w pad_h pad_w
    ph pw ->
  sentinel_spec (of_float (F32.neg F32.FLT_MAX)) schedF top0 mask0 n c ph pw.
Proof.
  intros Hs Hn Hc Hph Hpw Hh Hw Hempty. unfold sentinel_spec.
  set (index := ((n * channels + c) * pooled_height + ph) * pooled_width + pw).
  set (out := MaxPoolForward schedF _ X _ _ _ _ _ _ _ _ _ _ _ _ top0 mask0).
  destruct (forward_empty_window X num channels height width
              pooled_height pooled_width kernel_h kernel_w
              stride_h stride_w pad_h pad_w schedF top0 mask0
              n c ph pw Hs Hn Hc Hph Hpw Hempty) as [Htop Hmask].
  fold index in Htop, Hmask. fold out in Htop, Hmask.
  split; [assumption|]. split; [assumption|]. split.
  - intros h w Hh' Hw'. rewrite Hmask. nia.
  - intros schedB top_diff v bottom0 j HsB Hj. unfold backward.
    rewrite !backward_at by assumption.
    apply backward_cell_ignores; try assumption; lia.
Qed.

(** How the backward pass routes the upstream gradient. *)
Definition routing_spec (schedF schedB : list Z)
    (top0 : ptr T) (mask0 : ptr Z) (top_diff bottom0 : ptr T)
    (n c h w : Z) : Prop :=
  let mask := forward_mask schedF top0 mask0 in
  let dX := backward schedB top_diff mask bottom0 in
  let off := (n * channels + c) * pooled_height * pooled_width in
  let routed_to :=
    routed channels width pooled_height pooled_width mask n c in
  dX (((n * channels + c) * height + h) * width + w)
  = of_float
      (fold_left (fun g o => F32.add g (to_float (top_diff (off + o))))
         (routed_to h w) F32.zero) /\
  (routed_to h w = [] ->
     dX (((n * channels + c) * height + h) * width + w) = of_float F32.zero) /\
  (forall o, 0 <= o < pooled_height * pooled_width ->
     (mask (off + o) = -1 /\
      forall h' w', 0 <= h' < height -> 0 <= w' < width ->
        ~ In o (routed_to h' w')) \/
     (exists h' w',
        0 <= h' < height /\ 0 <= w' < width /\ In o (routed_to h' w') /\
        forall h'' w'', 0 <= h'' < height -> 0 <= w'' < width ->
          In o (routed_to h'' w'') -> h'' = h' /\ w'' = w')).

(** The conservation C2 states: the gradient summed over all input
    cells equals the upstream gradient summed over all output cells. *)
Definition total (n : Z) (p : ptr T) : F32.float :=
  fold_left (fun g i => F32.add g (to_float (p i))) (iota n) F32.zero.

Definition conservation (schedF schedB : list Z)
    (top0 : ptr T) (mask0 : ptr Z) (top_diff bottom0 : ptr T) : Prop :=
  F32.eq
    (total (num * channels * height * width)
       (backward schedB top_diff (forward_mask schedF top0 mask0) bottom0))
    (total (num * channels * pooled_height * pooled_width) top_diff)
  = true.

(** C2 (amended). In a configuration in which neither kernel
    overflows an [int], and with the mask of the forward pass, the
    gradient of an input cell is the sum, in row-major order, of the
    upstream gradients of the output cells of its image whose mask
    entry is the cell's flat index; a cell that no mask entry points at
    receives zero; and every output cell is counted for exactly one
    input cell when it recorded an argmax, and for none when its mask
    entry is [-1]. *)
Theorem max_pool_backward_routing (schedF schedB : list Z)
    (top0 : ptr T) (mask0 : ptr Z) (top_diff bottom0 : ptr T)
    (n c h w : Z) :
  pooling_fits height width pooled_height pooled_width
    kernel_h kernel_w stride_h stride_w pad_h pad_w ->
  0 < stride_h -> 0 < stride_w -> 0 <= pad_h -> 0 <= pad_w ->
  0 <= pooled_height -> 0 <= pooled_width ->
  is_schedule (num * channels * pooled_height * pooled_width) schedF ->
  is_schedule (num * channels * height * width) schedB ->
  0 <= n < num -> 0 <= c < channels -> 0 <= h < height -> 0 <= w < width ->
  routing_spec schedF schedB top0 mask0 top_diff bottom0 n c h w.
Proof.
  intros Hfit Hsh Hsw Hph Hpw HPH HPW HsF HsB Hn Hc Hh Hw.
  unfold routing_spec.
  set (mask := forward_mask schedF top0 mask0).
  set (dX := backward schedB top_diff mask bottom0).
  set (off := (n * channels + c) * pooled_height * pooled_width).
  set (routed_to := routed channels width pooled_height pooled_width mask n c).
  pose proof (forward_mask_in_window schedF top0 mask0 n c Hfit Hsh Hsw
                Hph Hpw ltac:(lia) ltac:(lia) HsF Hn Hc) as Hm.
  fold mask in Hm.
  assert (Hsum :
    dX (((n * channels + c) * height + h) * width + w)
    = of_float
        (fold_left (fun g o => F32.add g (to_float (top_diff (off + o))))
           (routed_to h w) F32.zero)).
  { unfold dX, backward. rewrite backward_at.
    - apply backward_cell_sum; try assumption; lia.
    - assumption.
    - apply CIntFacts.flat_bound; assumption. }
  split; [assumption|]. split.
  - intros Hnil. rewrite Hsum, Hnil. reflexivity.
  - intros o Ho.
    assert (HPW' : 0 < pooled_width) by nia.
    pose proof (Z.div_mod o pooled_width ltac:(lia)) as Ediv.
    pose proof (Z.mod_pos_bound o pooled_width HPW') as Hr.
    assert (Hq : 0 <= o / pooled_width < pooled_height).
    { split; [apply Z.div_pos; lia|].
      apply Z.div_lt_upper_bound; lia. }
    assert (Eo : o = o / pooled_width * pooled_width + o mod pooled_width)
      by lia.
    pose proof (Hm _ _ Hq Hr) as Hcase. cbv zeta in Hcase.
    rewrite <- Eo in Hcase. fold off in Hcase.
    assert (Hin : forall h' w',
               In o (routed_to h' w') <-> mask (off + o) = h' * width + w').
    { intros h' w'. unfold routed_to, routed. rewrite filter_In, in_iota.
      fold off. rewrite Z.eqb_eq. tauto. }
    destruct Hcase as [E|(h' & w' & Hwin & E)].
    + left; split; [assumption|].
      intros h' w' Hh' Hw'. rewrite Hin, E. nia.
    + right. apply in_window in Hwin. exists h', w'.
      split; [lia|]. split; [lia|]. split; [now apply Hin|].
      intros h'' w'' Hh'' Hw'' Hin''. apply Hin in Hin''.
      rewrite E in Hin''. symmetry in Hin''.
      apply (CIntFacts.flat_inj h'' w'' h' w' width); lia.
Qed.

End Pipeline.

(** The conversions of [float16] on a few values: widening is exact,
    a small integer survives the round trip, and the initial value
    [-FLT_MAX] of the scan is stored in a [float16] output as minus
    infinity. *)
Example half_conversions :
  to_float (Half (S754_finite false 1024 (-10))) = F32.one /\
  to_float (of_float (F32.of_Z 3) : float16) = F32.of_Z 3 /\
  (of_float (F32.neg F32.FLT_MAX) : float16) = Half (S754_infinity true).
Proof. repeat split; vm_compute; reflexivity. Qed.

(** *** The sentinel of an empty window, for the two element types *)

Section Sentinel.
Variables (X32 : ptr F32.float) (X16 : ptr float16).
Variables (num channels height width pooled_height pooled_width : Z).
Variables (kernel_h kernel_w stride_h stride_w pad_h pad_w : Z).

(** C10 (amended). An output cell whose clamped window is empty, for
    the bounds the kernel computes, receives the mask entry [-1] and
    the conversion of [-FLT_MAX] to its element type: [-FLT_MAX] for
    [float], minus infinity for [float16].  No input cell has the flat
    index [-1], and whatever upstream gradient the cell carries, the
    backward kernel computes the same input gradient. *)
Theorem max_pool_empty_window_sentinel (schedF : list Z)
    (top32 : ptr F32.float) (top16 : ptr float16) (mask0 : ptr Z)
    (n c ph pw : Z) :
  is_schedule (num * channels * pooled_height * pooled_width) schedF ->
  0 <= n < num -> 0 <= c < channels ->
  0 <= ph < pooled_height -> 0 <= pw < pooled_width ->
  0 < height -> 0 < width ->
  empty_window height width kernel_h kernel_w stride_h stride_w pad_h pad_w
    ph pw ->
  sentinel_spec X32 num channels height width pooled_height pooled_width
    kernel_h kernel_w stride_h stride_w pad_h pad_w
    (F32.neg F32.FLT_MAX) schedF top32 mask0 n c ph pw /\
  sentinel_spec X16 num channels height width pooled_height pooled_width
    kernel_h kernel_w stride_h stride_w pad_h pad_w
    (Half (S754_infinity true)) schedF top16 mask0 n c ph pw.
Proof.
  intros Hs Hn Hc Hph Hpw Hh Hw Hempty. split.
  - exact (empty_window_sentinel X32 num channels height width
             pooled_height pooled_width kernel_h kernel_w stride_h stride_w
             pad_h pad_w schedF top32 mask0 n c ph pw
             Hs Hn Hc Hph Hpw Hh Hw Hempty).
  - exact (empty_window_sentinel X16 num channels height width
             pooled_height pooled_width kernel_h kernel_w stride_h stride_w
             pad_h pad_w schedF top16 mask0 n c ph pw
             Hs Hn Hc Hph Hpw Hh Hw Hempty).
Qed.

End Sentinel.

(** *** Rejected inputs *)

Definition supported (X : Blob) : bool :=
  match X with
  | FloatBlob _ | Float16Blob _ => true
  | _ => false
  end.

Definition rank_error : error :=
  EnforceNotMet "Operator only supports 4D tensors".

Definition type_error : error := EnforceNotMet "Unsupported input type".

Section Rejection.
Variables (a : PoolArgs) (sched : list Z) (X : Blob).
Variables (Y_buf32 : ptr F32.float) (Y_buf16 : ptr float16) (mask_buf : ptr Z).
Variables (dY32 : Tensor F32.float) (dY16 : Tensor float16) (mask : Tensor Z).
Variables (dX_buf32 : ptr F32.float) (dX_buf16 : ptr float16).

Definition forward_run : result Outputs :=
  MaxPoolWithIndexOp_RunOnDevice a sched X Y_buf32 Y_buf16 mask_buf.

Definition gradient_run : result Blob :=
  MaxPoolWithIndexGradientOp_RunOnDevice a sched X dY32 dY16 mask
    dX_buf32 dX_buf16.

(** What C7 states of a run: a rank other than 4 gives the rank
    error, and an unsupported element type gives the type error. *)
Definition rejects_as_claimed {A} (run : result A) : Prop :=
  (blob_ndim X <> 4 -> run = Err rank_error) /\
  (supported X = false -> run = Err type_error).

(** C7 (amended). Both operators abort on an input of rank other than
    4 or of an element type other than float and float16, returning no
    output.  The forward operator checks the rank first, the gradient
    operator the type: an input with both defects gets the rank error
    from the one and the type error from the other. *)
Theorem max_pool_rejects :
  (blob_ndim X <> 4 -> forward_run = Err rank_error) /\
  (blob_ndim X = 4 -> supported X = false -> forward_run = Err type_error) /\
  (supported X = false -> gradient_run = Err type_error) /\
  (supported X = true -> blob_ndim X <> 4 -> gradient_run = Err rank_error).
Proof.
  unfold forward_run, gradient_run, MaxPoolWithIndexOp_RunOnDevice,
    MaxPoolWithIndexGradientOp_RunOnDevice.
  repeat split.
  - intros Hr. apply Z.eqb_neq in Hr.
    unfold CAFFE_ENFORCE. rewrite Hr. reflexivity.
  - intros Hr Ht. unfold CAFFE_ENFORCE. rewrite Hr. cbn [bind Z.eqb Pos.eqb].
    destruct X; try discriminate; reflexivity.
  - intros Ht. destruct X; try discriminate; reflexivity.
  - intros Ht Hr. apply Z.eqb_neq in Hr.
    destruct X as [t|t|t|t]; try discriminate;
      unfold GradientDoRunWithType, CAFFE_ENFORCE;
      unfold blob_ndim, blob_dims in Hr; unfold ndim;
      rewrite Hr; reflexivity.
Qed.

End Rejection.

Definition no_args : PoolArgs := mkPoolArgs 2 2 2 2 0 0 0 0.
Definition no_tensor {T} (v : T) : Tensor T := mkTensor [] (fun _ => v).

(** A 4-D tensor of doubles is turned away by both operators. *)
Lemma max_pool_rejects_witness :
  let X := DoubleBlob (mkTensor [1; 1; 2; 2] (fun _ => S754_nan)) in
  forward_run no_args [] X (fun _ => S754_nan) (fun _ => Half S754_nan)
    (fun _ => 0) = Err type_error /\
  gradient_run no_args [] X (no_tensor S754_nan) (no_tensor (Half S754_nan))
    (no_tensor 0) (fun _ => S754_nan) (fun _ => Half S754_nan)
    = Err type_error.
Proof.
  intros X.
  destruct (max_pool_rejects no_args [] X (fun _ => S754_nan)
              (fun _ => Half S754_nan) (fun _ => 0)
              (no_tensor S754_nan) (no_tensor (Half S754_nan)) (no_tensor 0)
              (fun _ => S754_nan) (fun _ => Half S754_nan))
    as (_ & Hf & Hg & _).
  split; [apply Hf; reflexivity | apply Hg; reflexivity].
Defined.

(** C7 as stated fails on an input with both defects, a matrix of
    integers: the forward operator reports the rank, not the type, and
    the gradient operator the type, not the rank. *)
Lemma max_pool_rejects_counterexample :
  let X := Int32Blob (mkTensor [2; 3] (fun _ => 0)) in
  let fwd := forward_run no_args [] X (fun _ => S754_nan)
               (fun _ => Half S754_nan) (fun _ => 0) in
  let grad := gradient_run no_args [] X (no_tensor S754_nan)
                (no_tensor (Half S754_nan)) (no_tensor 0)
                (fun _ => S754_nan) (fun _ => Half S754_nan) in
  fwd = Err rank_error /\ grad = Err type_error /\
  ~ rejects_as_claimed X fwd /\ ~ rejects_as_claimed X grad.
Proof.
  intros X fwd grad.
  split; [reflexivity|]. split; [reflexivity|]. split.
  - intros [_ Ht]. specialize (Ht eq_refl). discriminate.
  - intros [Hr _].
    assert (Hn : blob_ndim X <> 4) by (vm_compute; discriminate).
    specialize (Hr Hn). discriminate.
Qed.

(** *** A 4x4 image pooled by 2x2 windows with stride 2 *)

Definition image4x4 : ptr F32.float :=
  fun i => F32.of_Z (nth (Z.to_nat i)
    [1;  5;  2;  2;
     3;  5;  0;  2;
     7;  1;  4;  9;
     7;  8;  9;  3] 0).

Definition blank : ptr F32.float := fun _ => S754_nan.
Definition blank_mask : ptr Z := fun _ => 0.

Definition pooled4x4 : ptr F32.float * ptr Z :=
  MaxPoolForward (rev (iota 4)) 4 image4x4 1 1 4 4 2 2 2 2 2 2 0 0
    blank blank_mask.

(** Per-quadrant maxima and their flat positions; ties go to the first
    cell in row-major order. *)
Example pooled4x4_values :
  map (fst pooled4x4) (iota 4) = map F32.of_Z [5; 2; 8; 9] /\
  map (snd pooled4x4) (iota 4) = [1; 2; 13; 11].
Proof. split; vm_compute; reflexivity. Qed.

Example pooled4x4_gradient :
  map (MaxPoolBackward (iota 16) 16 (fun _ => F32.one) (snd pooled4x4)
         1 1 4 4 2 2 2 2 2 2 0 0 blank) (iota 16)
  = map F32.of_Z [0; 1; 1; 0;  0; 0; 0; 0;  0; 0; 0; 1;  0; 1; 0; 0].
Proof. vm_compute; reflexivity. Qed.

Lemma max_pool_forward_first_max_witness :
  forward_cell_spec image4x4 1 1 4 4 2 2 2 2 2 2 0 0
    (rev (iota 4)) blank blank_mask 0 0 1 1.
Proof.
  apply max_pool_forward_first_max.
  - apply rev_iota_schedule.
  - lia.
  - lia.
  - lia.
  - lia.
  - unfold window_fits, CInt.fits, CInt.INT_MIN, CInt.INT_MAX. lia.
  - exists (2, 2); split; [simpl; auto | vm_compute; reflexivity].
Defined.

(** C1 as stated fails where the window holds no value above
    [-FLT_MAX]: a single cell holding minus infinity is its own
    maximum, yet the kernel writes [-FLT_MAX] and the mask [-1].  It
    also fails where a bound of the window overflows: under a kernel
    height of [INT_MAX] the second of two rows is its own window, but
    [hstart + kernel_h] wraps around to [INT_MIN] and the kernel scans
    nothing. *)
Lemma max_pool_forward_counterexample :
  let X : ptr F32.float := fun _ => S754_infinity true in
  let out := MaxPoolForward [0] 1 X 1 1 1 1 1 1 1 1 1 1 0 0 blank blank_mask in
  let X' : ptr F32.float := fun i => F32.of_Z (3 + i) in
  let out' :=
    MaxPoolForward [0; 1] 2 X' 1 1 2 1 2 1 CInt.INT_MAX 1 1 1 0 0
      blank blank_mask in
  (window 1 1 1 1 1 1 0 0 0 0 = [(0, 0)] /\
   fst out 0 = F32.neg F32.FLT_MAX /\
   F32.eq (fst out 0) (X 0) = false /\
   snd out 0 = -1 /\
   ~ forward_cell_spec X 1 1 1 1 1 1 1 1 1 1 0 0 [0] blank blank_mask
       0 0 0 0) /\
  (window 2 1 CInt.INT_MAX 1 1 1 0 0 1 0 = [(1, 0)] /\
   X' 1 = F32.of_Z 4 /\
   fst out' 1 = F32.neg F32.FLT_MAX /\
   snd out' 1 = -1 /\
   ~ forward_cell_spec X' 1 1 2 1 2 1 CInt.INT_MAX 1 1 1 0 0 [0; 1]
       blank blank_mask 0 0 1 0).
Proof.
  intros X out X' out'. split.
  - split; [reflexivity|]. split; [reflexivity|]. split; [reflexivity|].
    split; [reflexivity|].
    unfold forward_cell_spec.
    intros (h & w & _ & Hh & Hw & _ & Hmask & _).
    change (-1 = h * 1 + w) in Hmask. lia.
  - split; [reflexivity|]. split; [reflexivity|].
    split; [vm_compute; reflexivity|]. split; [vm_compute; reflexivity|].
    unfold forward_cell_spec.
    intros (h & w & _ & Hh & Hw & _ & Hmask & _).
    assert (E : snd (MaxPoolForward [0; 1] (1 * 1 * 2 * 1) X' 1 1 2 1 2 1
                       CInt.INT_MAX 1 1 1 0 0 blank blank_mask)
                  (((0 * 1 + 0) * 2 + 1) * 1 + 0) = -1)
      by (vm_compute; reflexivity).
    rewrite E in Hmask. lia.
Qed.

Lemma max_pool_backward_routing_witness :
  routing_spec image4x4 1 1 4 4 2 2 2 2 2 2 0 0
    (rev (iota 4)) (rev (iota 16)) blank blank_mask (fun _ => F32.one) blank
    0 0 3 1.
Proof.
  apply max_pool_backward_routing.
  - unfold pooling_fits, CInt.INT_MAX. lia.
  - lia.
  - lia.
  - lia.
  - lia.
  - lia.
  - lia.
  - apply rev_iota_schedule.
  - apply rev_iota_schedule.
  - lia.
  - lia.
  - lia.
  - lia.
Defined.

Definition ones16 : ptr float16 := fun _ => of_float F32.one.
Definition blank16 : ptr float16 := fun _ => Half S754_nan.

(** A 1x1 image under a 1x1 kernel with padding 1: the pooled map is
    3x3 and only its centre has a window. *)
Lemma max_pool_empty_window_sentinel_witness :
  sentinel_spec (fun _ => F32.one) 1 1 1 1 3 3 1 1 1 1 1 1
    (F32.neg F32.FLT_MAX) (rev (iota 9)) blank blank_mask 0 0 0 2 /\
  sentinel_spec ones16 1 1 1 1 3 3 1 1 1 1 1 1
    (Half (S754_infinity true)) (rev (iota 9)) blank16 blank_mask 0 0 0 2.
Proof.
  apply max_pool_empty_window_sentinel.
  - apply rev_iota_schedule.
  - lia.
  - lia.
  - lia.
  - lia.
  - lia.
  - lia.
  - left; vm_compute; discriminate.
Defined.

(** C10 as stated fails for [float16]: on that image the corner cell
    of the [float16] output does not hold [-FLT_MAX], which is no
    [float16] value, but minus infinity, a value below [-FLT_MAX]. *)
Lemma max_pool_sentinel_counterexample :
  let out :=
    MaxPoolForward (iota 9) 9 ones16 1 1 1 1 3 3 1 1 1 1 1 1
      blank16 blank_mask in
  empty_window 1 1 1 1 1 1 1 1 0 2 /\
  snd out 2 = -1 /\
  to_float (fst out 2) = S754_infinity true /\
  F32.eq (to_float (fst out 2)) (F32.neg F32.FLT_MAX) = false /\
  F32.lt (to_float (fst out 2)) (F32.neg F32.FLT_MAX) = true.
Proof.
  intros out. split; [left; vm_compute; discriminate|].
  repeat split; vm_compute; reflexivity.
Qed.

(** C2 as stated fails when some output cell recorded no argmax: its
    upstream gradient is dropped.  First a single cell holding minus
    infinity under a 1x1 kernel, then the padded 1x1 image above: the
    totals are 0 against 1, and 1 against 9.  The routing itself fails
    where the backward kernel overflows: a single cell under a kernel
    height and a padding of [INT_MAX] is the argmax of the second of
    two output cells, but [(h + pad_h) / stride_h + 1] wraps around to
    [INT_MIN] and the backward kernel visits no output cell. *)
Lemma max_pool_backward_counterexample :
  let ones : ptr F32.float := fun _ => F32.one in
  let X : ptr F32.float := fun _ => S754_infinity true in
  (forward_mask X 1 1 1 1 1 1 1 1 1 1 0 0 [0] blank blank_mask 0 = -1 /\
   backward 1 1 1 1 1 1 1 1 1 1 0 0 [0] ones
     (forward_mask X 1 1 1 1 1 1 1 1 1 1 0 0 [0] blank blank_mask) blank 0
   = F32.zero /\
   ~ conservation X 1 1 1 1 1 1 1 1 1 1 0 0 [0] [0] blank blank_mask
       ones blank) /\
  (total 1 (backward 1 1 1 1 3 3 1 1 1 1 1 1 [0] ones
              (forward_mask ones 1 1 1 1 3 3 1 1 1 1 1 1 (iota 9)
                 blank blank_mask) blank)
   = F32.of_Z 1 /\
   total 9 ones = F32.of_Z 9 /\
   ~ conservation ones 1 1 1 1 3 3 1 1 1 1 1 1 (iota 9) [0] blank blank_mask
       ones blank) /\
  (let mask :=
     forward_mask ones 1 1 1 1 2 1 CInt.INT_MAX 1 1 1 CInt.INT_MAX 0
       (iota 2) blank blank_mask in
   mask 0 = -1 /\ mask 1 = 0 /\
   backward 1 1 1 1 2 1 CInt.INT_MAX 1 1 1 CInt.INT_MAX 0 [0] ones mask
     blank 0 = F32.zero /\
   ~ routing_spec ones 1 1 1 1 2 1 CInt.INT_MAX 1 1 1 CInt.INT_MAX 0
       (iota 2) [0] blank blank_mask ones blank 0 0 0 0).
Proof.
  intros ones X. split; [|split].
  - repeat split; try (vm_compute; reflexivity).
    unfold conservation; vm_compute; discriminate.
  - repeat split; try (vm_compute; reflexivity).
    unfold conservation; vm_compute; discriminate.
  - intros mask. split; [vm_compute; reflexivity|].
    split; [vm_compute; reflexivity|]. split; [vm_compute; reflexivity|].
    intros (Hsum & _). vm_compute in Hsum. discriminate.
Qed.

End MaxPoolProofs.

(** ** Image padding *)

Module PadProofs.
Import Device Framework KernelLemmas LoopFacts PadOp.

(** *** Reflect mode, forward *)

(** The transform as the specification writes it, on the coordinate
    [h] before reflection: [min(max(h, -h), 2 * height - h - 2)]. *)
Definition reflect_spec (h height : Z) : Z :=
  Z.min (Z.max h (- h)) (2 * height - h - 2).

(** When the coordinate overshoots the image by less than its size,
    the two-step update of the kernel is the transform of the
    specification and lands inside the image. *)
Lemma reflect_coord_spec h height :
  - height < h < 2 * height - 1 ->
  reflect_coord h height = reflect_spec h height /\
  0 <= reflect_coord h height < height.
Proof.
  intros Hh. unfold reflect_coord, reflect_spec.
  rewrite CIntFacts.min_spec, CIntFacts.max_spec. lia.
Qed.

Lemma reflect_coord_inside h height :
  0 <= h < height -> reflect_coord h height = h.
Proof.
  intros Hh. unfold reflect_coord.
  rewrite CIntFacts.min_spec, CIntFacts.max_spec. lia.
Qed.

Lemma forward_kernel_at {T} (cell : Z -> T) sched n top0 j :
  is_schedule n sched -> 0 <= j < n ->
  forward_kernel cell sched n top0 j = cell j.
Proof.
  intros Hs Hj. unfold forward_kernel.
  apply (loop_gather_schedule (fun (s : ptr T) a => s a) cell _ n sched top0 j);
    try assumption.
  intros i s a; unfold store; reflexivity.
Qed.

Section ReflectForward.
Context {T : Type}.
Variables (bottom_data : ptr T).
Variables (num channels height width : Z).
Variables (pad_t pad_l pad_b pad_r : Z).

Let padded_height := height + pad_t + pad_b.
Let padded_width := width + pad_l + pad_r.

(** What C5 states of one padded cell, in both layouts. *)
Definition reflect_forward_spec (sched : list Z) (top0 : ptr T)
    (n c ph pw : Z) : Prop :=
  let h := reflect_spec (ph - pad_t) height in
  let w := reflect_spec (pw - pad_l) width in
  0 <= h < height /\ 0 <= w < width /\
  PadImageReflectNCHW sched (num * channels * padded_height * padded_width)
    bottom_data num channels height width padded_height padded_width
    pad_t pad_l top0
    (((n * channels + c) * padded_height + ph) * padded_width + pw)
  = bottom_data (((n * channels + c) * height + h) * width + w) /\
  PadImageReflectNHWC sched (num * padded_height * padded_width * channels)
    bottom_data num height width channels padded_height padded_width
    pad_t pad_l top0
    (((n * padded_height + ph) * padded_width + pw) * channels + c)
  = bottom_data (((n * height + h) * width + w) * channels + c).

(** C5. With every pad amount below the size of its dimension, the
    padded cell [(ph, pw)] of image [(n, c)] holds the input element at
    the coordinates [h = ph - pad_t], [w = pw - pad_l] reflected by
    [min(max(h, -h), 2 * height - h - 2)], which lie inside the input,
    in the NCHW and in the NHWC layout. *)
Theorem pad_reflect_forward (sched : list Z) (top0 : ptr T) (n c ph pw : Z) :
  0 <= pad_t < height -> 0 <= pad_b < height ->
  0 <= pad_l < width -> 0 <= pad_r < width ->
  is_schedule (num * channels * padded_height * padded_width) sched ->
  0 <= n < num -> 0 <= c < channels ->
  0 <= ph < padded_height -> 0 <= pw < padded_width ->
  reflect_forward_spec sched top0 n c ph pw.
Proof.
  intros Hpt Hpb Hpl Hpr Hs Hn Hc Hph Hpw. unfold reflect_forward_spec.
  destruct (reflect_coord_spec (ph - pad_t) height) as [Eh Hh];
    [unfold padded_height in Hph; lia|].
  destruct (reflect_coord_spec (pw - pad_l) width) as [Ew Hw];
    [unfold padded_width in Hpw; lia|].
  rewrite <- Eh, <- Ew.
  split; [assumption|]. split; [assumption|]. split.
  - unfold PadImageReflectNCHW. rewrite forward_kernel_at; try assumption.
    + unfold PadImageReflectNCHW_cell.
      destruct (CIntFacts.decompose3 (n * channels + c) ph pw
                  padded_height padded_width)
        as (-> & -> & ->); try assumption; [nia|reflexivity].
    + assert (0 <= n * channels + c < num * channels) by nia.
      assert (0 <= (n * channels + c) * padded_height + ph
              < num * channels * padded_height) by nia.
      nia.
  - unfold PadImageReflectNHWC. rewrite forward_kernel_at.
    + unfold PadImageReflectNHWC_cell.
      destruct (CIntFacts.decompose4 n ph pw c
                  padded_height padded_width channels)
        as (-> & -> & -> & ->); try assumption; [lia|reflexivity].
    + replace (num * padded_height * padded_width * channels)
        with (num * channels * padded_height * padded_width) by ring.
      assumption.
    + apply CIntFacts.flat_bound; assumption.
Qed.

End ReflectForward.

(** A 3x4 image, two channels, padded by (2, 1, 1, 3). *)
Lemma pad_reflect_forward_witness :
  reflect_forward_spec (fun i => i) 1 2 3 4 2 1 1 3
    (rev (iota (1 * 2 * (3 + 2 + 1) * (4 + 1 + 3)))) (fun _ => -1) 0 1 0 7.
Proof.
  apply pad_reflect_forward.
  - lia.
  - lia.
  - lia.
  - lia.
  - apply rev_iota_schedule.
  - lia.
  - lia.
  - lia.
  - lia.
Defined.

(** *** The gradient operator on an all-ones upstream gradient *)

(** Atomic additions of one value [v]: an address ends up with [v]
    added once per thread that targets it, whatever the schedule. *)
Lemma loop_atomic_add_const {T} (add : T -> T -> T) (t : Z -> Z)
    (top : ptr T) (v : T) sched (p : ptr T) a :
  (forall i, In i sched -> top i = v) ->
  run_iterations sched
    (fun index q => atomicAdd add q (t index) (top index)) p a
  = Nat.iter (length (filter (fun i => t i =? a) sched))
      (fun g => add g v) (p a).
Proof.
  unfold run_iterations; revert p.
  induction sched as [|i sched IH]; intros p Htop; simpl; [reflexivity|].
  rewrite IH by (intros; apply Htop; simpl; auto).
  unfold atomicAdd, store. rewrite (Htop i) by (simpl; auto).
  rewrite (Z.eqb_sym a (t i)).
  destruct (Z.eqb_spec (t i) a) as [E|]; simpl; [|reflexivity].
  rewrite E.
  change (add (p a) v) with ((fun g => add g v) (p a)).
  rewrite <- Nat.iter_succ_r. reflexivity.
Qed.

(** The number of threads [index < nthreads] whose target is [cell]. *)
Definition multiplicity (target : Z -> Z) (nthreads cell : Z) : nat :=
  length (filter (fun index => target index =? cell) (iota nthreads)).

Lemma edge_coord_bounds h height :
  0 < height -> 0 <= edge_coord h height < height.
Proof.
  intros Hh. unfold edge_coord.
  rewrite CIntFacts.min_spec, CIntFacts.max_spec. lia.
Qed.

Lemma edge_coord_inside h height :
  0 <= h < height -> edge_coord h height = h.
Proof.
  intros Hh. unfold edge_coord.
  rewrite CIntFacts.min_spec, CIntFacts.max_spec. lia.
Qed.

(** A coordinate strictly inside the image is reached by clamping from
    itself only. *)
Lemma edge_coord_interior x h height :
  0 < h < height - 1 -> (edge_coord x height =? h) = (x =? h).
Proof.
  intros Hh. unfold edge_coord.
  rewrite CIntFacts.min_spec, CIntFacts.max_spec.
  destruct (Z.eqb_spec x h), (Z.eqb_spec (Z.min (height - 1) (Z.max x 0)) h);
    try reflexivity; lia.
Qed.

Section Gradient.
Variables (a : PadArgs) (N C H W : Z).

Let PH := H + pad_t a + pad_b a.
Let PW := W + pad_l a + pad_r a.

Definition reflect_target : Z -> Z :=
  PadImageGradientReflectNCHW_target N C H W PH PW (pad_t a) (pad_l a).

Definition edge_target : Z -> Z :=
  PadImageGradientEdgeNCHW_target N C H W PH PW (pad_t a) (pad_l a).

(** The padded rows that clamp to row [h], and likewise for columns. *)
Definition edge_rows (h : Z) : nat :=
  length (filter (fun ph => edge_coord (ph - pad_t a) H =? h) (iota PH)).

Definition edge_cols (w : Z) : nat :=
  length (filter (fun pw => edge_coord (pw - pad_l a) W =? w) (iota PW)).

Hypothesis HH : 0 < H.
Hypothesis HW : 0 < W.
Hypothesis Hpt : 0 <= pad_t a.
Hypothesis Hpl : 0 <= pad_l a.
Hypothesis Hpb : 0 <= pad_b a.
Hypothesis Hpr : 0 <= pad_r a.

Lemma padded_cell_bound nc ph pw :
  0 <= nc < N * C -> 0 <= ph < PH -> 0 <= pw < PW ->
  0 <= (nc * PH + ph) * PW + pw < N * C * PH * PW.
Proof.
  intros Hnc Hph Hpw.
  assert (0 <= nc * PH + ph < N * C * PH) by nia. nia.
Qed.

(** The padded cell that lies over an input cell is one of the cells
    that map to it, in either mode. *)
Lemma reflect_multiplicity_pos nc h w :
  0 <= nc < N * C -> 0 <= h < H -> 0 <= w < W ->
  (1 <= multiplicity reflect_target (N * C * PH * PW)
          ((nc * H + h) * W + w))%nat.
Proof.
  intros Hnc Hh Hw. unfold multiplicity.
  apply (count_pos _ _ ((nc * PH + (h + pad_t a)) * PW + (w + pad_l a))).
  - apply in_iota, padded_cell_bound; unfold PH, PW; lia.
  - apply Z.eqb_eq.
    unfold reflect_target, PadImageGradientReflectNCHW_target.
    destruct (CIntFacts.decompose3 nc (h + pad_t a) (w + pad_l a) PH PW)
      as (-> & -> & ->); try (unfold PH, PW; lia).
    replace (h + pad_t a - pad_t a) with h by lia.
    replace (w + pad_l a - pad_l a) with w by lia.
    rewrite !reflect_coord_inside by lia. reflexivity.
Qed.

Lemma edge_multiplicity_pos nc h w :
  0 <= nc < N * C -> 0 <= h < H -> 0 <= w < W ->
  (1 <= multiplicity edge_target (N * C * PH * PW) ((nc * H + h) * W + w))%nat.
Proof.
  intros Hnc Hh Hw. unfold multiplicity.
  apply (count_pos _ _ ((nc * PH + (h + pad_t a)) * PW + (w + pad_l a))).
  - apply in_iota, padded_cell_bound; unfold PH, PW; lia.
  - apply Z.eqb_eq.
    unfold edge_target, PadImageGradientEdgeNCHW_target.
    destruct (CIntFacts.decompose3 nc (h + pad_t a) (w + pad_l a) PH PW)
      as (-> & -> & ->); try (unfold PH, PW; lia).
    replace (h + pad_t a - pad_t a) with h by lia.
    replace (w + pad_l a - pad_l a) with w by lia.
    rewrite !edge_coord_inside by lia. reflexivity.
Qed.

(** In edge mode the multiplicity of a cell is the number of padded
    rows that clamp to its row times the number of padded columns that
    clamp to its column. *)
Lemma edge_multiplicity_product nc h w :
  0 <= nc < N * C -> 0 <= h < H -> 0 <= w < W ->
  multiplicity edge_target (N * C * PH * PW) ((nc * H + h) * W + w)
  = (edge_rows h * edge_cols w)%nat.
Proof.
  intros Hnc Hh Hw. unfold multiplicity.
  assert (HPH : 0 <= PH) by (unfold PH; lia).
  assert (HPW : 0 <= PW) by (unfold PW; lia).
  rewrite (iota_mul (N * C * PH) PW) by nia.
  rewrite (count_rect (fun q r => q * PW + r) _
             (fun q => CInt.div q PH * H
                       + edge_coord (CInt.rem q PH - pad_t a) H
                       =? nc * H + h)
             (fun pw => edge_coord (pw - pad_l a) W =? w)).
  - fold (edge_cols w). f_equal.
    rewrite (iota_mul (N * C) PH) by lia.
    rewrite (count_rect (fun q r => q * PH + r) _
               (fun q => q =? nc)
               (fun ph => edge_coord (ph - pad_t a) H =? h)).
    + rewrite count_eqb_iota by assumption. fold (edge_rows h). lia.
    + intros q ph Hq Hp. apply in_iota in Hq, Hp.
      rewrite CIntFacts.div_flat, CIntFacts.rem_flat by lia.
      pose proof (edge_coord_bounds (ph - pad_t a) H HH) as Hb.
      apply eq_true_iff_eq.
      rewrite andb_true_iff, !Z.eqb_eq. split.
      * intros E. apply CIntFacts.flat_inj in E; [exact E | lia | lia].
      * intros [-> ->]. reflexivity.
  - intros q r Hq Hr. apply in_iota in Hq, Hr.
    unfold edge_target, PadImageGradientEdgeNCHW_target.
    rewrite CIntFacts.div_flat, CIntFacts.rem_flat by lia.
    pose proof (edge_coord_bounds (r - pad_l a) W HW) as Hb.
    apply eq_true_iff_eq.
    rewrite andb_true_iff, !Z.eqb_eq. split.
    * intros E. apply CIntFacts.flat_inj in E; [exact E | lia | lia].
    * intros [-> ->]. reflexivity.
Qed.

Lemma edge_rows_pos h : 0 <= h < H -> (1 <= edge_rows h)%nat.
Proof.
  intros Hh. apply (count_pos _ _ (h + pad_t a)).
  - apply in_iota; unfold PH; lia.
  - apply Z.eqb_eq. replace (h + pad_t a - pad_t a) with h by lia.
    now apply edge_coord_inside.
Qed.

Lemma edge_cols_pos w : 0 <= w < W -> (1 <= edge_cols w)%nat.
Proof.
  intros Hw. apply (count_pos _ _ (w + pad_l a)).
  - apply in_iota; unfold PW; lia.
  - apply Z.eqb_eq. replace (w + pad_l a - pad_l a) with w by lia.
    now apply edge_coord_inside.
Qed.

Lemma edge_rows_interior h : 0 < h < H - 1 -> edge_rows h = 1%nat.
Proof.
  intros Hh. unfold edge_rows.
  rewrite (filter_ext _ (fun ph => ph =? h + pad_t a)).
  - apply count_eqb_iota; unfold PH; lia.
  - intros ph. rewrite edge_coord_interior by assumption.
    destruct (Z.eqb_spec (ph - pad_t a) h), (Z.eqb_spec ph (h + pad_t a));
      try reflexivity; lia.
Qed.

Lemma edge_cols_interior w : 0 < w < W - 1 -> edge_cols w = 1%nat.
Proof.
  intros Hw. unfold edge_cols.
  rewrite (filter_ext _ (fun pw => pw =? w + pad_l a)).
  - apply count_eqb_iota; unfold PW; lia.
  - intros pw. rewrite edge_coord_interior by assumption.
    destruct (Z.eqb_spec (pw - pad_l a) w), (Z.eqb_spec pw (w + pad_l a));
      try reflexivity; lia.
Qed.

(** Some border row is clamped to at least as often as any row. *)
Lemma edge_rows_max :
  exists hc, (hc = 0 \/ hc = H - 1) /\
    forall h, 0 <= h < H -> (edge_rows h <= edge_rows hc)%nat.
Proof.
  exists (if (edge_rows 0 <? edge_rows (H - 1))%nat then H - 1 else 0).
  destruct (Nat.ltb_spec (edge_rows 0) (edge_rows (H - 1))) as [Hlt|Hge].
  - split; [now right|]. intros h Hh.
    assert (h = 0 \/ h = H - 1 \/ 0 < h < H - 1) as [->|[->|Hi]] by lia.
    + lia.
    + lia.
    + rewrite (edge_rows_interior h Hi).
      apply edge_rows_pos; lia.
  - split; [now left|]. intros h Hh.
    assert (h = 0 \/ h = H - 1 \/ 0 < h < H - 1) as [->|[->|Hi]] by lia.
    + lia.
    + lia.
    + rewrite (edge_rows_interior h Hi).
      apply edge_rows_pos; lia.
Qed.

Lemma edge_cols_max :
  exists wc, (wc = 0 \/ wc = W - 1) /\
    forall w, 0 <= w < W -> (edge_cols w <= edge_cols wc)%nat.
Proof.
  exists (if (edge_cols 0 <? edge_cols (W - 1))%nat then W - 1 else 0).
  destruct (Nat.ltb_spec (edge_cols 0) (edge_cols (W - 1))) as [Hlt|Hge].
  - split; [now right|]. intros w Hw.
    assert (w = 0 \/ w = W - 1 \/ 0 < w < W - 1) as [->|[->|Hi]] by lia.
    + lia.
    + lia.
    + rewrite (edge_cols_interior w Hi).
      apply edge_cols_pos; lia.
  - split; [now left|]. intros w Hw.
    assert (w = 0 \/ w = W - 1 \/ 0 < w < W - 1) as [->|[->|Hi]] by lia.
    + lia.
    + lia.
    + rewrite (edge_cols_interior w Hi).
      apply edge_cols_pos; lia.
Qed.

Lemma scatter_at (target : Z -> Z) sched dYdata dX_buf cell :
  (forall i, 0 <= i < N * C * PH * PW -> dYdata i = F32.one) ->
  is_schedule (N * C * PH * PW) sched ->
  0 <= cell < N * C * H * W ->
  HIP_1D_KERNEL_LOOP sched (N * C * PH * PW)
    (fun index q => atomicAdd F32.add q (target index) (dYdata index))
    (math_Set (N * C * H * W) F32.zero dX_buf) cell
  = Nat.iter (multiplicity target (N * C * PH * PW) cell)
      (fun g => F32.add g F32.one) F32.zero.
Proof.
  intros Hones Hs Hcell. rewrite kernel_loop_schedule by assumption.
  rewrite (loop_atomic_add_const F32.add target dYdata F32.one).
  - unfold multiplicity. rewrite (count_perm _ _ _ Hs).
    unfold math_Set.
    replace ((0 <=? cell) && (cell <? N * C * H * W)) with true;
      [reflexivity|].
    symmetry; apply andb_true_iff; split;
      [apply Z.leb_le | apply Z.ltb_lt]; lia.
  - intros i Hi. apply Hones. now apply (in_schedule _ sched i Hs).
Qed.

Lemma gather_at sched dYdata dX_buf n c h w :
  (forall i, 0 <= i < N * C * PH * PW -> dYdata i = F32.one) ->
  is_schedule (N * C * H * W) sched ->
  0 <= n < N -> 0 <= c < C -> 0 <= h < H -> 0 <= w < W ->
  PadImageGradientConstNCHW sched (N * C * H * W) dYdata N C H W PH PW
    (pad_t a) (pad_l a) (math_Set (N * C * H * W) F32.zero dX_buf)
    (((n * C + c) * H + h) * W + w)
  = F32.one.
Proof.
  intros Hones Hs Hn Hc Hh Hw. unfold PadImageGradientConstNCHW.
  rewrite (loop_gather_schedule (fun (s : ptr F32.float) i => s i)
             (PadImageGradientConstNCHW_cell dYdata N C H W PH PW
                (pad_t a) (pad_l a)) _ (N * C * H * W)).
  - unfold PadImageGradientConstNCHW_cell.
    destruct (CIntFacts.decompose3 (n * C + c) h w H W)
      as (-> & -> & ->); try lia; [nia|].
    apply Hones.
    replace ((n * C + c) * PH + (h + pad_t a))
      with ((n * C + c) * PH + (h + pad_t a)) by reflexivity.
    apply padded_cell_bound; unfold PH, PW; try lia. nia.
  - intros i s j; unfold store; reflexivity.
  - assumption.
  - apply CIntFacts.flat_bound; assumption.
Qed.

Lemma gradient_op_unfold sched dYdata dX_buf :
  PadImageGradientOp_RunOnDeviceWithOrderNCHW a sched
    (mkTensor [N; C; PH; PW] dYdata) dX_buf
  = mkTensor [N; C; H; W]
      match mode_ a with
      | CONSTANT =>
          PadImageGradientConstNCHW sched (N * C * H * W) dYdata
            N C H W PH PW (pad_t a) (pad_l a)
            (math_Set (N * C * H * W) F32.zero dX_buf)
      | REFLECT =>
          PadImageGradientReflectNCHW F32.add sched (N * C * PH * PW) dYdata
            N C H W PH PW (pad_t a) (pad_l a)
            (math_Set (N * C * H * W) F32.zero dX_buf)
      | EDGE =>
          PadImageGradientEdgeNCHW F32.add sched (N * C * PH * PW) dYdata
            N C H W PH PW (pad_t a) (pad_l a)
            (math_Set (N * C * H * W) F32.zero dX_buf)
      end.
Proof.
  unfold PadImageGradientOp_RunOnDeviceWithOrderNCHW.
  cbv [dims data dim32 size nth Z.to_nat Pos.to_nat PosDef.Pos.to_nat
       Pos.iter_op PosDef.Pos.iter_op Nat.add fold_right].
  replace (PH - pad_t a - pad_b a) with H by (unfold PH; lia).
  replace (PW - pad_l a - pad_r a) with W by (unfold PW; lia).
  replace (N * (C * (H * (W * 1)))) with (N * C * H * W) by ring.
  replace (N * (C * (PH * (PW * 1)))) with (N * C * PH * PW) by ring.
  reflexivity.
Qed.

(** *** What the claim counts *)

(** Modelled on the specification: "each output element maps back to
    an input coordinate via pad offset subtraction".  In constant mode
    an out-of-bounds coordinate takes the fill value, and maps to no
    input coordinate; in reflect mode it is reflected by
    [min(max(h, -h), 2 * height - h - 2)]; in edge mode it is clamped
    to the range from 0 to [dim - 1]. *)
Definition source_coord (m : PadMode) (p pad size : Z) : option Z :=
  let x := p - pad in
  match m with
  | CONSTANT => if (0 <=? x) && (x <? size) then Some x else None
  | REFLECT => Some (reflect_spec x size)
  | EDGE => Some (Z.min (Z.max x 0) (size - 1))
  end.

(** Padded row [ph] maps to input row [h]; padded column [pw] maps to
    input column [w]. *)
Definition maps_row (ph h : Z) : bool :=
  match source_coord (mode_ a) ph (pad_t a) H with
  | Some h' => h' =? h
  | None => false
  end.

Definition maps_col (pw w : Z) : bool :=
  match source_coord (mode_ a) pw (pad_l a) W with
  | Some w' => w' =? w
  | None => false
  end.

(** The padded cells [(ph, pw)] of an image that map to its cell
    [(h, w)], and their number. *)
Definition mapped_cells (h w : Z) : list (Z * Z) :=
  filter (fun p => maps_row (fst p) h && maps_col (snd p) w)
    (rect pair 0 PH 0 PW).

Definition mapped_count (h w : Z) : Z := Z.of_nat (length (mapped_cells h w)).

Definition spec_rows (h : Z) : nat :=
  length (filter (fun ph => maps_row ph h) (iota PH)).

Definition spec_cols (w : Z) : nat :=
  length (filter (fun pw => maps_col pw w) (iota PW)).

Lemma mapped_count_product h w :
  mapped_count h w = Z.of_nat (spec_rows h) * Z.of_nat (spec_cols w).
Proof.
  unfold mapped_count, mapped_cells, rect, spec_rows, spec_cols.
  rewrite (count_rect pair _ (fun ph => maps_row ph h)
             (fun pw => maps_col pw w)) by reflexivity.
  rewrite !range_0. lia.
Qed.

(** The padded cell that lies over an input cell maps to it, in every
    mode. *)
Lemma maps_row_over h : 0 <= h < H -> maps_row (h + pad_t a) h = true.
Proof.
  intros Hh. unfold maps_row, source_coord, reflect_spec. cbv zeta.
  replace (h + pad_t a - pad_t a) with h by lia.
  destruct (mode_ a).
  - replace ((0 <=? h) && (h <? H)) with true; [apply Z.eqb_refl|].
    symmetry; apply andb_true_iff; split;
      [apply Z.leb_le | apply Z.ltb_lt]; lia.
  - apply Z.eqb_eq; lia.
  - apply Z.eqb_eq; lia.
Qed.

Lemma maps_col_over w : 0 <= w < W -> maps_col (w + pad_l a) w = true.
Proof.
  intros Hw. unfold maps_col, source_coord, reflect_spec. cbv zeta.
  replace (w + pad_l a - pad_l a) with w by lia.
  destruct (mode_ a).
  - replace ((0 <=? w) && (w <? W)) with true; [apply Z.eqb_refl|].
    symmetry; apply andb_true_iff; split;
      [apply Z.leb_le | apply Z.ltb_lt]; lia.
  - apply Z.eqb_eq; lia.
  - apply Z.eqb_eq; lia.
Qed.

Lemma mapped_count_pos h w :
  0 <= h < H -> 0 <= w < W -> 1 <= mapped_count h w.
Proof.
  intros Hh Hw. rewrite mapped_count_product.
  assert (1 <= spec_rows h)%nat.
  { apply (count_pos _ _ (h + pad_t a)); [|now apply maps_row_over].
    apply in_iota; unfold PH; lia. }
  assert (1 <= spec_cols w)%nat.
  { apply (count_pos _ _ (w + pad_l a)); [|now apply maps_col_over].
    apply in_iota; unfold PW; lia. }
  nia.
Qed.

(** Constant mode: the cell that lies over an input cell is the only
    one that maps to it. *)
Lemma mapped_count_constant h w :
  mode_ a = CONSTANT -> 0 <= h < H -> 0 <= w < W -> mapped_count h w = 1.
Proof.
  intros Hm Hh Hw. rewrite mapped_count_product.
  assert (Er : spec_rows h = 1%nat).
  { unfold spec_rows.
    rewrite (filter_ext _ (fun ph => ph =? h + pad_t a)).
    - apply count_eqb_iota; unfold PH; lia.
    - intros ph. unfold maps_row, source_coord. rewrite Hm. cbv zeta.
      destruct (Z.leb_spec 0 (ph - pad_t a)), (Z.ltb_spec (ph - pad_t a) H),
        (Z.eqb_spec ph (h + pad_t a)); cbn [andb];
        try (symmetry; apply Z.eqb_neq); try apply Z.eqb_eq;
        try reflexivity; lia. }
  assert (Ec : spec_cols w = 1%nat).
  { unfold spec_cols.
    rewrite (filter_ext _ (fun pw => pw =? w + pad_l a)).
    - apply count_eqb_iota; unfold PW; lia.
    - intros pw. unfold maps_col, source_coord. rewrite Hm. cbv zeta.
      destruct (Z.leb_spec 0 (pw - pad_l a)), (Z.ltb_spec (pw - pad_l a) W),
        (Z.eqb_spec pw (w + pad_l a)); cbn [andb];
        try (symmetry; apply Z.eqb_neq); try apply Z.eqb_eq;
        try reflexivity; lia. }
  rewrite Er, Ec. reflexivity.
Qed.

(** Edge mode: the kernel clamps as the specification does, and the
    clamp sends to a border row the padded rows beyond it. *)
Lemma spec_rows_edge h : mode_ a = EDGE -> spec_rows h = edge_rows h.
Proof.
  intros Hm. unfold spec_rows, edge_rows. f_equal. apply filter_ext.
  intros ph. unfold maps_row, source_coord, edge_coord. rewrite Hm.
  cbv zeta. now rewrite CIntFacts.min_spec, CIntFacts.max_spec, Z.min_comm.
Qed.

Lemma spec_cols_edge w : mode_ a = EDGE -> spec_cols w = edge_cols w.
Proof.
  intros Hm. unfold spec_cols, edge_cols. f_equal. apply filter_ext.
  intros pw. unfold maps_col, source_coord, edge_coord. rewrite Hm.
  cbv zeta. now rewrite CIntFacts.min_spec, CIntFacts.max_spec, Z.min_comm.
Qed.

Lemma edge_rows_closed h :
  0 <= h < H ->
  Z.of_nat (edge_rows h)
  = 1 + (if h =? 0 then pad_t a else 0) + (if h =? H - 1 then pad_b a else 0).
Proof.
  intros Hh. unfold edge_rows.
  rewrite (count_interval _ PH
             (if h =? 0 then 0 else h + pad_t a)
             (if h =? H - 1 then PH else h + pad_t a + 1)).
  - unfold PH.
    destruct (Z.eqb_spec h 0), (Z.eqb_spec h (H - 1)); lia.
  - unfold PH.
    destruct (Z.eqb_spec h 0), (Z.eqb_spec h (H - 1)); lia.
  - unfold PH.
    destruct (Z.eqb_spec h 0), (Z.eqb_spec h (H - 1)); lia.
  - intros x Hx. unfold edge_coord.
    rewrite CIntFacts.min_spec, CIntFacts.max_spec, Z.eqb_eq.
    unfold PH in *.
    destruct (Z.eqb_spec h 0), (Z.eqb_spec h (H - 1)); lia.
Qed.

Lemma edge_cols_closed w :
  0 <= w < W ->
  Z.of_nat (edge_cols w)
  = 1 + (if w =? 0 then pad_l a else 0) + (if w =? W - 1 then pad_r a else 0).
Proof.
  intros Hw. unfold edge_cols.
  rewrite (count_interval _ PW
             (if w =? 0 then 0 else w + pad_l a)
             (if w =? W - 1 then PW else w + pad_l a + 1)).
  - unfold PW.
    destruct (Z.eqb_spec w 0), (Z.eqb_spec w (W - 1)); lia.
  - unfold PW.
    destruct (Z.eqb_spec w 0), (Z.eqb_spec w (W - 1)); lia.
  - unfold PW.
    destruct (Z.eqb_spec w 0), (Z.eqb_spec w (W - 1)); lia.
  - intros x Hx. unfold edge_coord.
    rewrite CIntFacts.min_spec, CIntFacts.max_spec, Z.eqb_eq.
    unfold PW in *.
    destruct (Z.eqb_spec w 0), (Z.eqb_spec w (W - 1)); lia.
Qed.

Lemma mapped_count_edge h w :
  mode_ a = EDGE -> 0 <= h < H -> 0 <= w < W ->
  mapped_count h w
  = (1 + (if h =? 0 then pad_t a else 0)
       + (if h =? H - 1 then pad_b a else 0))
    * (1 + (if w =? 0 then pad_l a else 0)
         + (if w =? W - 1 then pad_r a else 0)).
Proof.
  intros Hm Hh Hw.
  rewrite mapped_count_product, spec_rows_edge, spec_cols_edge by assumption.
  now rewrite edge_rows_closed, edge_cols_closed.
Qed.

(** No cell is mapped to more often than one of the corners. *)
Lemma mapped_count_corner :
  mode_ a = EDGE ->
  exists hc wc,
    (hc = 0 \/ hc = H - 1) /\ (wc = 0 \/ wc = W - 1) /\
    forall h w, 0 <= h < H -> 0 <= w < W ->
      mapped_count h w <= mapped_count hc wc.
Proof.
  intros Hm.
  destruct edge_rows_max as (hc & Hhc & Hrows).
  destruct edge_cols_max as (wc & Hwc & Hcols).
  exists hc, wc. split; [assumption|]. split; [assumption|].
  intros h w Hh Hw.
  rewrite !mapped_count_product, !spec_rows_edge, !spec_cols_edge
    by assumption.
  specialize (Hrows h Hh). specialize (Hcols w Hw). nia.
Qed.

(** Reflect mode: with pad amounts below the sizes, the kernel's
    two-step reflection is that of the specification and lands in the
    image, so that its targets are counted row by row and column by
    column. *)
Definition reflect_pads_fit : Prop :=
  pad_t a < H /\ pad_b a < H /\ pad_l a < W /\ pad_r a < W.

Definition reflect_rows (h : Z) : nat :=
  length (filter (fun ph => reflect_coord (ph - pad_t a) H =? h) (iota PH)).

Definition reflect_cols (w : Z) : nat :=
  length (filter (fun pw => reflect_coord (pw - pad_l a) W =? w) (iota PW)).

Lemma reflect_row_spec ph :
  reflect_pads_fit -> 0 <= ph < PH ->
  reflect_coord (ph - pad_t a) H = reflect_spec (ph - pad_t a) H /\
  0 <= reflect_coord (ph - pad_t a) H < H.
Proof.
  intros (? & ? & ? & ?) Hph. apply reflect_coord_spec.
  unfold PH in Hph. lia.
Qed.

Lemma reflect_col_spec pw :
  reflect_pads_fit -> 0 <= pw < PW ->
  reflect_coord (pw - pad_l a) W = reflect_spec (pw - pad_l a) W /\
  0 <= reflect_coord (pw - pad_l a) W < W.
Proof.
  intros (? & ? & ? & ?) Hpw. apply reflect_coord_spec.
  unfold PW in Hpw. lia.
Qed.

Lemma reflect_multiplicity_product nc h w :
  reflect_pads_fit ->
  0 <= nc < N * C -> 0 <= h < H -> 0 <= w < W ->
  multiplicity reflect_target (N * C * PH * PW) ((nc * H + h) * W + w)
  = (reflect_rows h * reflect_cols w)%nat.
Proof.
  intros Hfit Hnc Hh Hw. unfold multiplicity.
  assert (HPH : 0 <= PH) by (unfold PH; lia).
  assert (HPW : 0 <= PW) by (unfold PW; lia).
  rewrite (iota_mul (N * C * PH) PW) by nia.
  rewrite (count_rect (fun q r => q * PW + r) _
             (fun q => CInt.div q PH * H
                       + reflect_coord (CInt.rem q PH - pad_t a) H
                       =? nc * H + h)
             (fun pw => reflect_coord (pw - pad_l a) W =? w)).
  - fold (reflect_cols w). f_equal.
    rewrite (iota_mul (N * C) PH) by lia.
    rewrite (count_rect (fun q r => q * PH + r) _
               (fun q => q =? nc)
               (fun ph => reflect_coord (ph - pad_t a) H =? h)).
    + rewrite count_eqb_iota by assumption. fold (reflect_rows h). lia.
    + intros q ph Hq Hp. apply in_iota in Hq, Hp.
      rewrite CIntFacts.div_flat, CIntFacts.rem_flat by lia.
      destruct (reflect_row_spec ph Hfit Hp) as [_ Hb].
      apply eq_true_iff_eq.
      rewrite andb_true_iff, !Z.eqb_eq. split.
      * intros E. apply CIntFacts.flat_inj in E; [exact E | lia | lia].
      * intros [-> ->]. reflexivity.
  - intros q r Hq Hr. apply in_iota in Hq, Hr.
    unfold reflect_target, PadImageGradientReflectNCHW_target.
    rewrite CIntFacts.div_flat, CIntFacts.rem_flat by lia.
    destruct (reflect_col_spec r Hfit Hr) as [_ Hb].
    apply eq_true_iff_eq.
    rewrite andb_true_iff, !Z.eqb_eq. split.
    * intros E. apply CIntFacts.flat_inj in E; [exact E | lia | lia].
    * intros [-> ->]. reflexivity.
Qed.

Lemma spec_rows_reflect h :
  mode_ a = REFLECT -> reflect_pads_fit -> spec_rows h = reflect_rows h.
Proof.
  intros Hm Hfit. unfold spec_rows, reflect_rows. f_equal.
  apply filter_ext_in. intros ph Hph. apply in_iota in Hph.
  unfold maps_row, source_coord. rewrite Hm. cbv zeta.
  now rewrite (proj1 (reflect_row_spec ph Hfit Hph)).
Qed.

Lemma spec_cols_reflect w :
  mode_ a = REFLECT -> reflect_pads_fit -> spec_cols w = reflect_cols w.
Proof.
  intros Hm Hfit. unfold spec_cols, reflect_cols. f_equal.
  apply filter_ext_in. intros pw Hpw. apply in_iota in Hpw.
  unfold maps_col, source_coord. rewrite Hm. cbv zeta.
  now rewrite (proj1 (reflect_col_spec pw Hfit Hpw)).
Qed.

(** The value of a cell of the gradient: 1 added once per padded cell
    that maps to it, which is their number as long as binary32 can
    count it, and [2^24] beyond. *)
Lemma gradient_value sched dYdata dX_buf n c h w :
  (forall i, 0 <= i < N * C * PH * PW -> dYdata i = F32.one) ->
  is_schedule
    (match mode_ a with
     | CONSTANT => N * C * H * W
     | _ => N * C * PH * PW
     end) sched ->
  (mode_ a = REFLECT -> reflect_pads_fit) ->
  0 <= n < N -> 0 <= c < C -> 0 <= h < H -> 0 <= w < W ->
  data (PadImageGradientOp_RunOnDeviceWithOrderNCHW a sched
          (mkTensor [N; C; PH; PW] dYdata) dX_buf)
    (((n * C + c) * H + h) * W + w)
  = F32.of_Z (Z.min (mapped_count h w) (2 ^ 24)).
Proof.
  intros Hones Hs Hrefl Hn Hc Hh Hw.
  assert (Hnc : 0 <= n * C + c < N * C) by nia.
  pose proof (CIntFacts.flat_bound n c h w N C H W Hn Hc Hh Hw) as Hcell.
  rewrite gradient_op_unfold. cbn [data].
  revert Hs Hrefl. destruct (mode_ a) eqn:Hm; intros Hs Hrefl.
  - rewrite gather_at, mapped_count_constant by assumption. reflexivity.
  - pose proof (scatter_at reflect_target sched dYdata dX_buf _
                  Hones Hs Hcell) as Hv.
    etransitivity; [exact Hv|].
    rewrite F32Count.count_capped.
    rewrite reflect_multiplicity_product by auto.
    rewrite mapped_count_product, spec_rows_reflect, spec_cols_reflect
      by auto.
    do 2 f_equal. lia.
  - pose proof (scatter_at edge_target sched dYdata dX_buf _
                  Hones Hs Hcell) as Hv.
    etransitivity; [exact Hv|].
    rewrite F32Count.count_capped.
    rewrite edge_multiplicity_product by assumption.
    rewrite mapped_count_product, spec_rows_edge, spec_cols_edge
      by assumption.
    do 2 f_equal. lia.
Qed.

(** What holds of the operator run on an upstream gradient of ones
    over the padded shape [N x C x PH x PW]. *)
Definition gradient_spec (sched : list Z) (dYdata dX_buf : ptr F32.float)
    : Prop :=
  let dY := mkTensor [N; C; PH; PW] dYdata in
  let dX := PadImageGradientOp_RunOnDeviceWithOrderNCHW a sched dY dX_buf in
  dims dX = [N; C; H; W] /\
  (forall n c h w,
     0 <= n < N -> 0 <= c < C -> 0 <= h < H -> 0 <= w < W ->
     let cell := ((n * C + c) * H + h) * W + w in
     data dX cell = F32.of_Z (Z.min (mapped_count h w) (2 ^ 24)) /\
     1 <= mapped_count h w /\
     (mode_ a = CONSTANT -> mapped_count h w = 1) /\
     (mode_ a = EDGE ->
      mapped_count h w
      = (1 + (if h =? 0 then pad_t a else 0)
           + (if h =? H - 1 then pad_b a else 0))
        * (1 + (if w =? 0 then pad_l a else 0)
             + (if w =? W - 1 then pad_r a else 0)))) /\
  (mode_ a = EDGE ->
   exists hc wc,
     (hc = 0 \/ hc = H - 1) /\ (wc = 0 \/ wc = W - 1) /\
     forall h w, 0 <= h < H -> 0 <= w < W ->
       mapped_count h w <= mapped_count hc wc).

(** C6 (amended). On an all-ones upstream gradient over the padded
    shape, with pad amounts that are not negative and, in reflect mode,
    below the sizes, the operator returns a gradient of the un-padded
    shape whose cells hold the number of padded cells that map to
    them, capped at [2^24] where binary32 stops counting.  That number
    is 1 in constant mode and at least 1 in the other modes.  In edge
    mode it is the number of padded rows clamped to the cell's row
    times the number of padded columns clamped to its column, so that
    a border row counts its pad rows with it; the highest number is
    that of a corner, but not every corner has it. *)
Theorem pad_gradient_all_ones (sched : list Z)
    (dYdata dX_buf : ptr F32.float) :
  (forall i, 0 <= i < N * C * PH * PW -> dYdata i = F32.one) ->
  is_schedule
    (match mode_ a with
     | CONSTANT => N * C * H * W
     | _ => N * C * PH * PW
     end) sched ->
  (mode_ a = REFLECT -> reflect_pads_fit) ->
  gradient_spec sched dYdata dX_buf.
Proof.
  intros Hones Hs Hrefl. unfold gradient_spec.
  split; [now rewrite gradient_op_unfold|]. split.
  - intros n c h w Hn Hc Hh Hw. cbv zeta.
    split; [now apply gradient_value|].
    split; [now apply mapped_count_pos|].
    split; intros Hm.
    + now apply mapped_count_constant.
    + now apply mapped_count_edge.
  - apply mapped_count_corner.
Qed.

End Gradient.

(** A 2x3 image padded by (top 2, left 1, bottom 0, right 1) in edge
    mode; the threads of the padded gradient retire in reverse order. *)
Definition edge_args : PadArgs := mkPadArgs EDGE 2 1 0 1.

Lemma pad_gradient_all_ones_witness :
  gradient_spec edge_args 1 1 2 3 (rev (iota 20))
    (fun _ => F32.one) (fun _ => S754_nan).
Proof.
  apply pad_gradient_all_ones.
  - lia.
  - lia.
  - simpl; lia.
  - simpl; lia.
  - simpl; lia.
  - simpl; lia.
  - intros i _; reflexivity.
  - apply (rev_iota_schedule 20).
  - discriminate.
Defined.

(** The multiplicities of that example, and the gradient the operator
    computes: the top corners collect the padded rows above them. *)
Example edge_multiplicities :
  map (fun cell => multiplicity (edge_target edge_args 1 1 2 3) 20 cell)
    (iota 6)
  = [6; 3; 6;
     2; 1; 2]%nat /\
  map (data (PadImageGradientOp_RunOnDeviceWithOrderNCHW edge_args
               (rev (iota 20))
               (mkTensor [1; 1; 4; 5] (fun _ => F32.one))
               (fun _ => S754_nan)))
    (iota 6)
  = map F32.of_Z [6; 3; 6; 2; 1; 2].
Proof. split; vm_compute; reflexivity. Qed.

(** A single cell padded by 4096 on every side. *)
Definition wide_args : PadArgs := mkPadArgs EDGE 4096 4096 4096 4096.

(** C6 as stated fails in two ways.  A cell's value is not the number
    of padded cells that map to it once that number exceeds [2^24]:
    all the [8193 * 8193] cells around a single cell padded by 4096 map
    to it, and its gradient is [2^24].  And in edge mode a corner need
    not receive the highest multiplicity: in the 2x3 image above, the
    bottom left corner receives 2 and the cell in the middle of the top
    row 3. *)
Lemma pad_gradient_counterexample :
  (let dX :=
     PadImageGradientOp_RunOnDeviceWithOrderNCHW wide_args
       (iota (1 * 1 * (1 + 4096 + 4096) * (1 + 4096 + 4096)))
       (mkTensor [1; 1; 1 + 4096 + 4096; 1 + 4096 + 4096] (fun _ => F32.one))
       (fun _ => S754_nan) in
   mapped_count wide_args 1 1 0 0 = 67125249 /\
   data dX 0 = F32.of_Z (2 ^ 24) /\
   F32.eq (F32.of_Z (2 ^ 24)) (F32.of_Z 67125249) = false) /\
  (let dX :=
     PadImageGradientOp_RunOnDeviceWithOrderNCHW edge_args (rev (iota 20))
       (mkTensor [1; 1; 4; 5] (fun _ => F32.one)) (fun _ => S754_nan) in
   mapped_count edge_args 2 3 1 0 = 2 /\ data dX 3 = F32.of_Z 2 /\
   mapped_count edge_args 2 3 0 1 = 3 /\ data dX 1 = F32.of_Z 3).
Proof.
  split.
  - intros dX.
    assert (Hcount : mapped_count wide_args 1 1 0 0 = 67125249).
    { rewrite (mapped_count_edge wide_args 1 1) by (simpl; lia || reflexivity).
      reflexivity. }
    split; [exact Hcount|]. split; [|vm_compute; reflexivity].
    transitivity
      (F32.of_Z (Z.min (mapped_count wide_args 1 1 0 0) (2 ^ 24)));
      [|rewrite Hcount; reflexivity].
    unfold dX.
    apply (gradient_value wide_args 1 1 1 1) with (n := 0) (c := 0)
      (h := 0) (w := 0).
    + lia.
    + lia.
    + simpl; lia.
    + simpl; lia.
    + simpl; lia.
    + simpl; lia.
    + intros i _; reflexivity.
    + apply iota_schedule.
    + discriminate.
    + lia.
    + lia.
    + lia.
    + lia.
  - intros dX. repeat split; vm_compute; reflexivity.
Qed.

End PadProofs.
(** ** Identities of binary32 arithmetic *)

Module F32Algebra.
Import F32.

(** Values other than the infinities and NaN. *)
Definition finite (x : float) : bool :=
  match x with
  | S754_zero _ | S754_finite _ _ _ => true
  | _ => false
  end.

Definition is_nan (x : float) : bool :=
  match x with
  | S754_nan => true
  | _ => false
  end.

Lemma mul_comm x y : mul x y = mul y x.
Proof.
  unfold mul.
  destruct x as [sx|sx| |sx mx ex], y as [sy|sy| |sy my ey]; simpl;
    try reflexivity; try (now rewrite xorb_comm).
  now rewrite xorb_comm, Pos.mul_comm, Z.add_comm.
Qed.

(** Rounding treats the two signs alike. *)
Lemma abs_round_aux s mx ex lx :
  SFabs (binary_round_aux prec emax s mx ex lx)
  = SFabs (binary_round_aux prec emax false mx ex lx).
Proof.
  unfold binary_round_aux.
  destruct (shr_fexp prec emax mx ex lx) as [mrs' e'].
  destruct (shr_fexp prec emax _ e' loc_Exact) as [mrs'' e''].
  destruct (shr_m mrs''); [reflexivity | | reflexivity].
  destruct (e'' <=? emax - prec); reflexivity.
Qed.

Lemma abs_round s m e :
  SFabs (binary_round prec emax s m e)
  = SFabs (binary_round prec emax false m e).
Proof.
  unfold binary_round.
  destruct (shl_align m e _) as [mz ez]. apply abs_round_aux.
Qed.

Lemma abs_normalize_opp m e :
  SFabs (binary_normalize prec emax (- m) e false)
  = SFabs (binary_normalize prec emax m e false).
Proof.
  destruct m as [|p|p]; simpl; [reflexivity | apply abs_round|].
  symmetry; apply abs_round.
Qed.

(** [|x - y| = |y - x|], NaN and the infinities included. *)
Lemma abs_sub_sym x y : fabsf (sub x y) = fabsf (sub y x).
Proof.
  unfold fabsf, sub.
  destruct x as [sx|sx| |sx mx ex], y as [sy|sy| |sy my ey];
    try reflexivity;
    try (destruct sx, sy; reflexivity);
    try (destruct sx; reflexivity);
    try (destruct sy; reflexivity).
  cbn [SFsub]. rewrite (Z.min_comm ey ex).
  set (ez := Z.min ex ey).
  set (A := cond_Zopp sx (Z.pos (fst (shl_align mx ex ez)))).
  set (B := cond_Zopp sy (Z.pos (fst (shl_align my ey ez)))).
  replace (B - A) with (- (A - B)) by lia.
  symmetry; apply abs_normalize_opp.
Qed.

(** A square depends on the magnitude only. *)
Lemma mul_self_abs x y : fabsf x = fabsf y -> mul x x = mul y y.
Proof.
  unfold fabsf, mul.
  destruct x as [sx|sx| |sx mx ex], y as [sy|sy| |sy my ey]; simpl;
    try discriminate; intros E; try reflexivity;
    try (destruct sx, sy; reflexivity).
  injection E as -> ->. now destruct sx, sy.
Qed.

Lemma sq_sub_sym x y :
  mul (sub x y) (sub x y) = mul (sub y x) (sub y x).
Proof. apply mul_self_abs, abs_sub_sym. Qed.

(** The difference of a finite value with itself is [+0]. *)
Lemma sub_self x : finite x = true -> sub x x = zero.
Proof.
  unfold sub, zero.
  destruct x as [s|s| |s m e]; simpl; try discriminate; intros _.
  - now destruct s.
  - now rewrite Z.sub_diag.
Qed.

Lemma lt_le x y : lt x y = true -> le x y = true.
Proof.
  unfold lt, le, SFltb, SFleb.
  destruct (SFcompare x y) as [[| |]|]; try discriminate; reflexivity.
Qed.

Lemma nan_not_gt x y : is_nan x = true -> gt x y = false.
Proof.
  destruct x; try discriminate. intros _.
  unfold gt, lt, SFltb. now destruct y.
Qed.

End F32Algebra.

(** ** Loops whose iterations update their own cell *)

Module OwnCell.
Import Device KernelLemmas.

(** Iteration [i] stores at address [w i] a value [g i mem] computed
    from the memory as it is then.  When the addresses are pairwise
    different and [g i] reads only cell [w i] and cells that no
    iteration writes, every iteration sees what it would have seen
    first, so the outcome does not depend on the order. *)
Lemma loop_own_cell {T} (w : Z -> Z) (g : Z -> ptr T -> T) sched :
  NoDup (map w sched) ->
  (forall i mem mem', In i sched ->
     (forall a, a = w i \/ (forall j, In j sched -> a <> w j) ->
                mem a = mem' a) ->
     g i mem = g i mem') ->
  forall mem0 a,
    run_iterations sched (fun i m => store m (w i) (g i m)) mem0 a
    = match find (fun i => w i =? a) sched with
      | Some i => g i mem0
      | None => mem0 a
      end.
Proof.
  unfold run_iterations.
  induction sched as [|i sched IH]; intros Hnd Hst mem0 a; simpl;
    [reflexivity|].
  inversion Hnd as [|? ? Hni Hnd']; subst.
  rewrite IH; [|assumption|].
  - destruct (Z.eqb_spec (w i) a) as [E|Hne].
    + destruct (find _ sched) as [j|] eqn:Hf.
      * apply find_some in Hf. destruct Hf as [Hj Hw].
        apply Z.eqb_eq in Hw. exfalso; apply Hni.
        rewrite E, <- Hw. now apply in_map.
      * unfold store. now rewrite <- E, Z.eqb_refl.
    + destruct (find _ sched) as [j|] eqn:Hf.
      * apply find_some in Hf. destruct Hf as [Hj Hw].
        apply Hst; [now right|].
        intros b Hb. unfold store.
        destruct (Z.eqb_spec b (w i)) as [->|]; [|reflexivity].
        exfalso. destruct Hb as [Hb|Hb].
        -- apply Hni. rewrite Hb. now apply in_map.
        -- apply (Hb i); [now left | reflexivity].
      * unfold store.
        destruct (Z.eqb_spec a (w i)); [congruence | reflexivity].
  - intros j mem mem' Hj Hag. apply Hst; [now right|].
    intros b [Hb|Hb]; apply Hag; [now left|].
    right; intros k Hk; apply Hb; now right.
Qed.

Lemma schedule_NoDup n sched : is_schedule n sched -> NoDup sched.
Proof.
  intros Hs. apply (Permutation_NoDup (Permutation_sym Hs)).
  unfold iota. apply Finite.Injective_map_NoDup.
  - intros x y; apply Nat2Z.inj.
  - apply seq_NoDup.
Qed.

(** The same for a kernel launch whose thread [i] owns cell
    [base + i]. *)
Lemma kernel_own_cell {T} (base : Z) (g : Z -> ptr T -> T) n sched mem0 :
  is_schedule n sched ->
  (forall i mem mem', 0 <= i < n ->
     (forall a, a = base + i \/ ~ (base <= a < base + n) -> mem a = mem' a) ->
     g i mem = g i mem') ->
  forall a,
    HIP_1D_KERNEL_LOOP sched n (fun i m => store m (base + i) (g i m)) mem0 a
    = if (base <=? a) && (a <? base + n) then g (a - base) mem0 else mem0 a.
Proof.
  intros Hs Hst a. rewrite kernel_loop_schedule by assumption.
  rewrite (loop_own_cell (fun i => base + i) g).
  - destruct (find _ sched) as [i|] eqn:Hf.
    + apply find_some in Hf. destruct Hf as [Hi Hw].
      apply Z.eqb_eq in Hw. apply (in_schedule n sched i Hs) in Hi.
      replace ((base <=? a) && (a <? base + n)) with true
        by (symmetry; apply andb_true_iff; split;
            [apply Z.leb_le | apply Z.ltb_lt]; lia).
      f_equal; lia.
    + destruct (Z.leb_spec base a), (Z.ltb_spec a (base + n)); simpl;
        try reflexivity.
      exfalso.
      pose proof (find_none _ _ Hf (a - base)) as Hn. cbv beta in Hn.
      rewrite (proj2 (Z.eqb_eq _ _)) in Hn by lia.
      assert (In (a - base) sched)
        by (apply (in_schedule n sched _ Hs); lia).
      specialize (Hn H1). discriminate.
  - apply Finite.Injective_map_NoDup.
    + intros x y; lia.
    + now apply (schedule_NoDup n).
  - intros i mem mem' Hi Hag.
    apply (in_schedule n sched i Hs) in Hi. apply Hst; [assumption|].
    intros b [Hb|Hb]; apply Hag; [now left|].
    right; intros j Hj. apply (in_schedule n sched j Hs) in Hj. lia.
Qed.

End OwnCell.

(** ** One-hot encoding: indices are not validated *)

Module OneHotUnchecked.
Import Device KernelLemmas OneHot.

(** X1. [DoOneHotOp] writes 1 into the cell
    [i * index_size + indices[i]] of every row [i], wherever that cell
    lies: an index that is negative or not below [index_size] sets a
    cell of another row, or a cell outside the output. Every other cell
    of the output is zero, and every other cell outside it keeps its
    value, for every schedule. *)
Theorem one_hot_writes_unchecked (sched : list Z)
    (batch_size index_size : Z) (indices : ptr Z)
    (output_size : Z) (output : ptr F32.float) :
  is_schedule batch_size sched ->
  let out :=
    DoOneHotOp sched batch_size index_size indices output_size output in
  (forall i, 0 <= i < batch_size ->
     out (i * index_size + indices i) = F32.one) /\
  (forall j,
     (forall i, 0 <= i < batch_size -> j <> i * index_size + indices i) ->
     out j = if (0 <=? j) && (j <? output_size) then F32.zero else output j).
Proof.
  intros Hs out.
  assert (Hat : forall j,
    out j
    = if existsb (fun i => j =? i * index_size + indices i) sched
      then F32.one
      else math_Set output_size F32.zero output j).
  { intros j. unfold out, DoOneHotOp, OneHotOpKernel.
    rewrite kernel_loop_schedule by assumption.
    unfold OneHotOpKernel_body.
    apply (loop_store_const (fun i => i * index_size + indices i)). }
  split.
  - intros i Hi. rewrite Hat.
    replace (existsb _ sched) with true; [reflexivity|].
    symmetry; apply existsb_exists; exists i; split.
    + now apply (in_schedule batch_size sched i Hs).
    + apply Z.eqb_refl.
  - intros j Hj. rewrite Hat.
    replace (existsb _ sched) with false; [reflexivity|].
    symmetry; apply not_true_is_false; intros H.
    apply existsb_exists in H; destruct H as (i & Hi & He).
    apply Z.eqb_eq in He.
    apply (in_schedule batch_size sched i Hs) in Hi.
    now apply (Hj i).
Qed.

(** Two rows over three categories; the index of the first row is one
    past the end, and its 1 lands in the second row. *)
Lemma one_hot_writes_unchecked_witness :
  let indices : ptr Z := fun i => if i =? 0 then 3 else 1 in
  DoOneHotOp (rev (iota 2)) 2 3 indices 6 (fun _ => S754_nan) (1 * 3 + 0)
  = F32.one.
Proof.
  intros indices.
  destruct (one_hot_writes_unchecked (rev (iota 2)) 2 3 indices 6
              (fun _ => S754_nan) (rev_iota_schedule 2)) as [Hone _].
  apply (Hone 0). lia.
Defined.

End OneHotUnchecked.

(** ** Distance operators: shapes, faults and symmetry *)

Module DistanceShapes.
Import Device Framework KernelLemmas LoopFacts Distance.

(** Deciding the range tests of the element-wise operations. *)
Ltac in_range_true :=
  match goal with
  | |- context [(0 <=? ?x) && (?x <? ?n)] =>
      replace ((0 <=? x) && (x <? n)) with true
        by (symmetry; apply andb_true_iff; split;
            [apply Z.leb_le | apply Z.ltb_lt]; lia)
  end.

Ltac in_range_false :=
  match goal with
  | |- context [(0 <=? ?x) && (?x <? ?n)] =>
      replace ((0 <=? x) && (x <? n)) with false
        by (symmetry; apply andb_false_iff;
            first [left; apply Z.leb_gt; lia | right; apply Z.ltb_ge; lia])
  end.

(** *** The shape checks *)

Lemma enforce_same_dims_ok xs ys msg :
  length xs = length ys ->
  enforce_same_dims xs ys msg = Ok tt -> xs = ys.
Proof.
  revert ys; induction xs as [|x xs IH]; intros [|y ys] Hl; simpl;
    try discriminate; [reflexivity|].
  unfold CAFFE_ENFORCE_EQ, CAFFE_ENFORCE.
  destruct (Z.eqb_spec x y) as [->|]; simpl; [|discriminate].
  intros E. f_equal. apply IH; [now injection Hl | assumption].
Qed.

Lemma enforce_same_dims_cases xs ys msg :
  enforce_same_dims xs ys msg = Ok tt \/
  enforce_same_dims xs ys msg = Err (EnforceNotMet msg).
Proof.
  revert ys; induction xs as [|x xs IH]; intros ys; simpl; [now left|].
  unfold CAFFE_ENFORCE_EQ, CAFFE_ENFORCE.
  destruct (x =? hd 0 ys); simpl; [apply IH | now right].
Qed.

Lemma enforce_same_dims_same l msg : enforce_same_dims l l msg = Ok tt.
Proof.
  induction l as [|x l IH]; simpl; [reflexivity|].
  unfold CAFFE_ENFORCE_EQ, CAFFE_ENFORCE. now rewrite Z.eqb_refl.
Qed.

(** The two checks every operator makes: they pass on equal shapes
    and stop the operator on any other pair. *)
Lemma checks_pass {T A} (X Y : Tensor T) m1 m2 (k : result A) :
  dims X = dims Y ->
  (CAFFE_ENFORCE (ndim X =? ndim Y) m1 ;;;
   enforce_same_dims (dims X) (dims Y) m2 ;;; k) = k.
Proof.
  intros E. unfold ndim, CAFFE_ENFORCE. rewrite E, Z.eqb_refl.
  cbn [bind]. now rewrite enforce_same_dims_same.
Qed.

Lemma checks_fail {T A} (X Y : Tensor T) m1 m2 (k : result A) :
  dims X <> dims Y ->
  (CAFFE_ENFORCE (ndim X =? ndim Y) m1 ;;;
   enforce_same_dims (dims X) (dims Y) m2 ;;; k)
  = Err (EnforceNotMet (if ndim X =? ndim Y then m2 else m1)).
Proof.
  intros Hne. unfold CAFFE_ENFORCE.
  destruct (Z.eqb_spec (ndim X) (ndim Y)) as [E|]; [|reflexivity].
  cbn [bind].
  destruct (enforce_same_dims_cases (dims X) (dims Y) m2) as [Hok|Herr].
  - exfalso; apply Hne.
    apply (enforce_same_dims_ok _ _ m2); [|assumption].
    unfold ndim in E. lia.
  - now rewrite Herr.
Qed.

(** The batch size [N] as the operators read it off the shape. *)
Definition batch {T} (X : Tensor T) : Z :=
  if ndim X >? 0 then dim32 X 0 else 1.

Lemma batch_eq {T} (X Y : Tensor T) : dims X = dims Y -> batch X = batch Y.
Proof. intros E; unfold batch, ndim, dim32; now rewrite E. Qed.

Lemma size_eq {T} (X Y : Tensor T) : dims X = dims Y -> size X = size Y.
Proof. intros E; unfold size; now rewrite E. Qed.

Lemma size_from_dim_eq {T} k (X Y : Tensor T) :
  dims X = dims Y -> size_from_dim k X = size_from_dim k Y.
Proof. intros E; unfold size_from_dim; now rewrite E. Qed.

(** A tensor with elements has a batch size other than zero. *)
Lemma batch_of_nonempty {T} (X : Tensor T) : size X <> 0 -> batch X <> 0.
Proof.
  unfold batch, size, ndim, dim32.
  destruct (dims X) as [|n rest]; simpl; [lia|].
  intros Hs.
  destruct (Z.gtb_spec (Z.pos (Pos.of_succ_nat (length rest))) 0); nia.
Qed.

Section Forward.
Variable CAFFE_HIP_NUM_THREADS : Z.
Variable BlockReduce_Sum : list F32.float -> F32.float.

Local Notation "'squared_l2'" :=
  (SquaredL2DistanceOp_RunOnDevice CAFFE_HIP_NUM_THREADS BlockReduce_Sum).
Local Notation "'l1'" :=
  (L1DistanceOp_RunOnDevice CAFFE_HIP_NUM_THREADS BlockReduce_Sum).
Local Notation "'dot_product'" :=
  (DotProductOp_RunOnDevice CAFFE_HIP_NUM_THREADS BlockReduce_Sum).
Local Notation "'cosine'" :=
  (CosineSimilarityOp_RunOnDevice CAFFE_HIP_NUM_THREADS BlockReduce_Sum).

Lemma eq_checks_pass (X Y : Tensor F32.float) m1 m2 {A} (k : result A) :
  dims X = dims Y ->
  (CAFFE_ENFORCE_EQ (ndim X) (ndim Y) m1 ;;;
   enforce_same_dims (dims X) (dims Y) m2 ;;; k) = k.
Proof. apply (checks_pass X Y m1 m2 k). Qed.

Lemma eq_checks_fail (X Y : Tensor F32.float) m1 m2 {A} (k : result A) :
  dims X <> dims Y ->
  (CAFFE_ENFORCE_EQ (ndim X) (ndim Y) m1 ;;;
   enforce_same_dims (dims X) (dims Y) m2 ;;; k)
  = Err (EnforceNotMet (if ndim X =? ndim Y then m2 else m1)).
Proof. apply (checks_fail X Y m1 m2 k). Qed.

(** X2. Two inputs whose shapes differ, in rank or in any extent, stop
    each of the four forward operators with a failed enforcement; no
    output is produced. *)
Theorem distance_ops_reject_mismatch (X Y : Tensor F32.float)
    (rows1 rows2 rows3 : list Z) (out aux : ptr F32.float) :
  dims X <> dims Y ->
  (exists msg, squared_l2 rows1 X Y out = Err (EnforceNotMet msg)) /\
  (exists msg, l1 rows1 X Y out = Err (EnforceNotMet msg)) /\
  (exists msg, dot_product rows1 X Y out = Err (EnforceNotMet msg)) /\
  (exists msg,
     cosine rows1 rows2 rows3 X Y out aux = Err (EnforceNotMet msg)).
Proof.
  intros Hne.
  unfold SquaredL2DistanceOp_RunOnDevice, L1DistanceOp_RunOnDevice,
    DotProductOp_RunOnDevice, CosineSimilarityOp_RunOnDevice.
  rewrite !eq_checks_fail by assumption.
  repeat split; eexists; reflexivity.
Qed.

(** X3. The squared L2 distance stops at a division by zero exactly on
    inputs of equal shape whose leading extent is zero; the L1 distance,
    the dot product and the cosine similarity never do. *)
Theorem distance_division_faults (X Y : Tensor F32.float)
    (rows1 rows2 rows3 : list Z) (out aux : ptr F32.float) :
  (squared_l2 rows1 X Y out = Err DivisionByZero <->
   dims X = dims Y /\ ndim X > 0 /\ dim32 X 0 = 0) /\
  l1 rows1 X Y out <> Err DivisionByZero /\
  dot_product rows1 X Y out <> Err DivisionByZero /\
  cosine rows1 rows2 rows3 X Y out aux <> Err DivisionByZero.
Proof.
  unfold SquaredL2DistanceOp_RunOnDevice, L1DistanceOp_RunOnDevice,
    DotProductOp_RunOnDevice, CosineSimilarityOp_RunOnDevice.
  destruct (list_eq_dec Z.eq_dec (dims X) (dims Y)) as [E|Hne].
  - rewrite !eq_checks_pass by assumption. fold (batch X).
    split; [|split; [|split]].
    + unfold int_div. destruct (Z.eqb_spec (batch X) 0) as [E0|Hn0].
      * split; [intros _|reflexivity]. split; [assumption|].
        unfold batch in E0.
        destruct (Z.gtb_spec (ndim X) 0); [split; [lia | assumption] | lia].
      * cbn [bind]. split; [discriminate|].
        intros (_ & Hnd & Hd). exfalso; apply Hn0. unfold batch.
        destruct (Z.gtb_spec (ndim X) 0); [assumption | lia].
    + destruct (Z.gtb_spec (batch X) 0) as [Hpos|]; [|discriminate].
      unfold int_div. destruct (Z.eqb_spec (batch X) 0); [lia|].
      discriminate.
    + destruct (Z.gtb_spec (size X) 0) as [Hpos|]; [|discriminate].
      unfold int_div.
      destruct (Z.eqb_spec (batch X) 0) as [E0|]; [|discriminate].
      exfalso. apply (batch_of_nonempty X); [lia | assumption].
    + discriminate.
  - rewrite !eq_checks_fail by assumption.
    split; [|split; [|split]]; try discriminate.
    split; [discriminate|]. intros [E _]. contradiction.
Qed.

(** X4. On inputs of equal shape that hold no element, the dot product
    returns a result of length zero, whatever the leading extent; the L1
    distance and the cosine similarity return one entry for every row of
    the batch. *)
Theorem empty_input_output_shapes (X Y : Tensor F32.float)
    (rows1 rows2 rows3 : list Z) (out aux : ptr F32.float) :
  dims X = dims Y -> size X = 0 ->
  (exists r, dot_product rows1 X Y out = Ok r /\ dims r = [0]) /\
  (exists r, l1 rows1 X Y out = Ok r /\ dims r = [batch X]) /\
  (exists r a,
     cosine rows1 rows2 rows3 X Y out aux = Ok (r, a) /\
     dims r = [batch X]).
Proof.
  intros E Hsize.
  unfold L1DistanceOp_RunOnDevice, DotProductOp_RunOnDevice,
    CosineSimilarityOp_RunOnDevice.
  rewrite !eq_checks_pass by assumption. fold (batch X).
  split; [|split].
  - rewrite Hsize. cbn [Z.gtb Z.compare bind].
    eexists; split; reflexivity.
  - destruct (Z.gtb_spec (batch X) 0) as [Hpos|].
    + unfold int_div. destruct (Z.eqb_spec (batch X) 0); [lia|].
      cbn [bind]. eexists; split; reflexivity.
    + cbn [bind]. eexists; split; reflexivity.
  - eexists; eexists; split; reflexivity.
Qed.

(** *** Symmetry *)

Lemma thread_sum_ext D (term term' : Z -> F32.float) tid :
  (forall j, term j = term' j) ->
  thread_sum CAFFE_HIP_NUM_THREADS D term tid
  = thread_sum CAFFE_HIP_NUM_THREADS D term' tid.
Proof.
  intros E. unfold thread_sum. apply fold_left_ext.
  intros acc j _. now rewrite E.
Qed.

Lemma block_sum_ext D (term term' : Z -> F32.float) :
  (forall j, term j = term' j) ->
  block_sum CAFFE_HIP_NUM_THREADS BlockReduce_Sum D term
  = block_sum CAFFE_HIP_NUM_THREADS BlockReduce_Sum D term'.
Proof.
  intros E. unfold block_sum. f_equal.
  apply map_ext; intros tid. now apply thread_sum_ext.
Qed.

Lemma block_rows_ext {S} rows N (body body' : Z -> S -> S) s :
  (forall i st, body i st = body' i st) ->
  block_rows rows N body s = block_rows rows N body' s.
Proof.
  intros E. unfold block_rows, run_iterations.
  apply fold_left_ext. intros st i _. apply E.
Qed.

Lemma L1DistanceKernel_sym rows N D X Y distance :
  L1DistanceKernel CAFFE_HIP_NUM_THREADS BlockReduce_Sum rows N D X Y distance
  = L1DistanceKernel CAFFE_HIP_NUM_THREADS BlockReduce_Sum rows N D Y X
      distance.
Proof.
  unfold L1DistanceKernel. apply block_rows_ext. intros i st. cbv zeta.
  f_equal. apply block_sum_ext. intros j. apply F32Algebra.abs_sub_sym.
Qed.

Lemma SquaredL2DistanceKernel_sym rows N D X Y distance :
  SquaredL2DistanceKernel CAFFE_HIP_NUM_THREADS BlockReduce_Sum rows N D X Y
    distance
  = SquaredL2DistanceKernel CAFFE_HIP_NUM_THREADS BlockReduce_Sum rows N D
      Y X distance.
Proof.
  unfold SquaredL2DistanceKernel. apply block_rows_ext. intros i st.
  cbv zeta. do 2 f_equal. apply block_sum_ext. intros j.
  apply F32Algebra.sq_sub_sym.
Qed.

Lemma DotProductKernel_row_sym D X Y i :
  DotProductKernel_row CAFFE_HIP_NUM_THREADS BlockReduce_Sum D X Y i
  = DotProductKernel_row CAFFE_HIP_NUM_THREADS BlockReduce_Sum D Y X i.
Proof.
  unfold DotProductKernel_row. cbv zeta. apply block_sum_ext. intros j.
  apply F32Algebra.mul_comm.
Qed.

Lemma DotProductKernel_sym rows N D X Y result :
  DotProductKernel CAFFE_HIP_NUM_THREADS BlockReduce_Sum rows N D X Y result
  = DotProductKernel CAFFE_HIP_NUM_THREADS BlockReduce_Sum rows N D Y X
      result.
Proof.
  unfold DotProductKernel. apply block_rows_ext. intros i st.
  f_equal. apply DotProductKernel_row_sym.
Qed.

(** X5. The L1 distance does not depend on the order of its two inputs:
    the operator returns the same result, or the same error, for
    [(X, Y)] and for [(Y, X)], whatever the values, NaN and infinities
    included. *)
Theorem l1_distance_symmetric (rows : list Z) (X Y : Tensor F32.float)
    (distance : ptr F32.float) :
  l1 rows X Y distance = l1 rows Y X distance.
Proof.
  unfold L1DistanceOp_RunOnDevice.
  destruct (list_eq_dec Z.eq_dec (dims X) (dims Y)) as [E|Hne].
  - rewrite !eq_checks_pass by (assumption || now symmetry).
    fold (batch X) (batch Y).
    rewrite <- (batch_eq X Y E), <- (size_eq X Y E).
    destruct (if batch X >? 0 then int_div (size X) (batch X) else Ok 0)
      as [D|e]; cbn [bind]; [|reflexivity].
    now rewrite L1DistanceKernel_sym.
  - rewrite !eq_checks_fail by (assumption || now apply not_eq_sym).
    now rewrite (Z.eqb_sym (ndim Y)).
Qed.

(** X6. The squared L2 distance does not depend on the order of its two
    inputs either: the operator returns the same result, or the same
    failure, for [(X, Y)] and for [(Y, X)], the division fault on an
    empty batch included. *)
Theorem squared_l2_distance_symmetric (rows : list Z)
    (X Y : Tensor F32.float) (distance : ptr F32.float) :
  squared_l2 rows X Y distance = squared_l2 rows Y X distance.
Proof.
  unfold SquaredL2DistanceOp_RunOnDevice.
  destruct (list_eq_dec Z.eq_dec (dims X) (dims Y)) as [E|Hne].
  - rewrite !eq_checks_pass by (assumption || now symmetry).
    fold (batch X) (batch Y).
    rewrite <- (batch_eq X Y E), <- (size_eq X Y E).
    destruct (int_div (size X) (batch X)) as [D|e]; cbn [bind];
      [|reflexivity].
    now rewrite SquaredL2DistanceKernel_sym.
  - rewrite !eq_checks_fail by (assumption || now apply not_eq_sym).
    now rewrite (Z.eqb_sym (ndim Y)).
Qed.

(** X7. The dot product is symmetric: the operator returns the same
    result, or the same error, for [(X, Y)] and for [(Y, X)]. *)
Theorem dot_product_symmetric (rows : list Z) (X Y : Tensor F32.float)
    (result_data : ptr F32.float) :
  dot_product rows X Y result_data = dot_product rows Y X result_data.
Proof.
  unfold DotProductOp_RunOnDevice.
  destruct (list_eq_dec Z.eq_dec (dims X) (dims Y)) as [E|Hne].
  - rewrite !eq_checks_pass by (assumption || now symmetry).
    fold (batch X) (batch Y).
    rewrite <- (batch_eq X Y E), <- (size_eq X Y E).
    destruct (if size X >? 0 then _ else _) as [[N D]|e]; cbn [bind];
      [|reflexivity].
    now rewrite DotProductKernel_sym.
  - rewrite !eq_checks_fail by (assumption || now apply not_eq_sym).
    now rewrite (Z.eqb_sym (ndim Y)).
Qed.

(** The rows of the cosine similarity, as the operator leaves them. *)
Lemma cosine_op_at rows1 rows2 rows3 X Y result_buf aux_buf i :
  dims X = dims Y ->
  is_schedule (batch X) rows1 -> is_schedule (batch X) rows2 ->
  is_schedule (batch X) rows3 ->
  0 <= i < batch X ->
  exists out aux,
    cosine rows1 rows2 rows3 X Y result_buf aux_buf = Ok (out, aux) /\
    dims out = [batch X] /\
    data out i
    = DistanceProofs.cosine_row CAFFE_HIP_NUM_THREADS BlockReduce_Sum
        (size_from_dim 1 X) (data X) (data Y) i.
Proof.
  intros Hdims Hs1 Hs2 Hs3 Hi.
  unfold CosineSimilarityOp_RunOnDevice.
  rewrite eq_checks_pass by assumption. fold (batch X).
  eexists; eexists. split; [reflexivity|]. split; [reflexivity|].
  cbn [data].
  unfold DistanceProofs.cosine_row, math_Mul, math_InvSqrt, math_Maximum,
    at_offset, offset.
  repeat first [in_range_true | in_range_false].
  rewrite !DistanceProofs.DotProductKernel_at by assumption.
  repeat first [in_range_true | in_range_false].
  repeat (f_equal; try lia).
Qed.

(** X8. The cosine similarity of [(X, Y)] and of [(Y, X)] agree on every
    row, whatever the schedules of the two runs. *)
Theorem cosine_similarity_symmetric
    (rows1 rows2 rows3 rows1' rows2' rows3' : list Z)
    (X Y : Tensor F32.float)
    (result_buf aux_buf result_buf' aux_buf' : ptr F32.float) (i : Z) :
  dims X = dims Y ->
  is_schedule (batch X) rows1 -> is_schedule (batch X) rows2 ->
  is_schedule (batch X) rows3 ->
  is_schedule (batch X) rows1' -> is_schedule (batch X) rows2' ->
  is_schedule (batch X) rows3' ->
  0 <= i < batch X ->
  exists out aux out' aux',
    cosine rows1 rows2 rows3 X Y result_buf aux_buf = Ok (out, aux) /\
    cosine rows1' rows2' rows3' Y X result_buf' aux_buf' = Ok (out', aux') /\
    dims out = dims out' /\
    data out i = data out' i.
Proof.
  intros E Hs1 Hs2 Hs3 Hs1' Hs2' Hs3' Hi.
  destruct (cosine_op_at rows1 rows2 rows3 X Y result_buf aux_buf i)
    as (out & aux & Hrun & Hd & Hv); try assumption.
  rewrite (batch_eq X Y E) in Hs1', Hs2', Hs3'.
  destruct (cosine_op_at rows1' rows2' rows3' Y X result_buf' aux_buf' i)
    as (out' & aux' & Hrun' & Hd' & Hv');
    try assumption; try (now symmetry);
    try (rewrite <- (batch_eq X Y E); assumption).
  exists out, aux, out', aux'.
  split; [assumption|]. split; [assumption|]. split.
  - now rewrite Hd, Hd', (batch_eq X Y E).
  - rewrite Hv, Hv', <- (size_from_dim_eq 1 X Y E).
    unfold DistanceProofs.cosine_row.
    rewrite (DotProductKernel_row_sym _ (data Y) (data X)).
    f_equal. f_equal. apply F32Algebra.mul_comm.
Qed.

(** *** The distance of an input to itself *)

Lemma in_strided start stop step j :
  0 < step -> In j (strided start stop step) -> start <= j < stop.
Proof.
  intros Hstep Hin. unfold strided in Hin.
  apply in_map_iff in Hin. destruct Hin as (q & <- & Hq).
  apply in_iota in Hq.
  assert (q * step <= stop - start + step - 1 - step); [|nia].
  assert (q + 1 <= (stop - start + step - 1) / step) by lia.
  pose proof (Z.mul_div_le (stop - start + step - 1) step Hstep). nia.
Qed.

Lemma thread_sum_zero D term tid :
  0 < CAFFE_HIP_NUM_THREADS -> 0 <= tid ->
  (forall j, 0 <= j < D -> term j = F32.zero) ->
  thread_sum CAFFE_HIP_NUM_THREADS D term tid = F32.zero.
Proof.
  intros HT Htid Hz. unfold thread_sum.
  assert (Hin : forall j, In j (strided tid D CAFFE_HIP_NUM_THREADS) ->
                          term j = F32.zero).
  { intros j Hj. apply in_strided in Hj; [|assumption]. apply Hz; lia. }
  induction (strided tid D CAFFE_HIP_NUM_THREADS) as [|j l IH]; simpl;
    [reflexivity|].
  rewrite (Hin j) by (simpl; auto).
  change (F32.add F32.zero F32.zero) with F32.zero.
  apply IH. intros; apply Hin; simpl; auto.
Qed.

(** The zeros the threads of a block hand to the block-wide sum. *)
Definition zero_partial_sums : list F32.float :=
  map (fun _ => F32.zero) (iota CAFFE_HIP_NUM_THREADS).

(** X9. The squared L2 distance of an input to itself: when every
    element is finite, every thread of a block accumulates [+0], and a
    block-wide sum that maps zeros to zero leaves the distance [+0] in
    every row. *)
Theorem squared_l2_self_distance (rows : list Z) (X : Tensor F32.float)
    (distance : ptr F32.float) (N : Z) (rest : list Z) (i : Z) :
  0 < CAFFE_HIP_NUM_THREADS ->
  BlockReduce_Sum zero_partial_sums = F32.zero ->
  dims X = N :: rest -> 0 < N ->
  (forall k, 0 <= k < size X -> F32Algebra.finite (data X k) = true) ->
  is_schedule N rows ->
  0 <= i < N ->
  exists out,
    squared_l2 rows X X distance = Ok out /\ dims out = [N] /\
    data out i = F32.zero.
Proof.
  intros HT Hsum Hd HN Hfin Hs Hi.
  assert (EN : batch X = N).
  { unfold batch, ndim, dim32. rewrite Hd. cbn [length nth Z.to_nat].
    destruct (Z.gtb_spec (Z.of_nat (S (length rest))) 0); [reflexivity|lia]. }
  assert (Esize : size X = N * fold_right Z.mul 1 rest)
    by (unfold size; now rewrite Hd).
  unfold SquaredL2DistanceOp_RunOnDevice.
  rewrite eq_checks_pass by reflexivity. fold (batch X). rewrite EN.
  unfold int_div. destruct (Z.eqb_spec N 0); [lia|]. cbn [bind].
  eexists. split; [reflexivity|]. split; [reflexivity|]. cbn [data].
  set (D := CInt.div (size X) N).
  assert (ED : D = fold_right Z.mul 1 rest).
  { unfold D, CInt.div. rewrite Esize, Z.mul_comm. apply Z.quot_mul. lia. }
  unfold SquaredL2DistanceKernel.
  change (block_rows rows N) with (@HIP_1D_KERNEL_LOOP (ptr F32.float) rows N).
  rewrite kernel_loop_schedule by assumption.
  rewrite (loop_gather (fun (s : ptr F32.float) j => s j)
             (fun r => F32.fdiv
                (block_sum CAFFE_HIP_NUM_THREADS BlockReduce_Sum D
                   (fun j => let diff := F32.sub (data X (r * D + j))
                                           (data X (r * D + j)) in
                             F32.mul diff diff))
                (F32.add F32.one F32.one)))
    by (intros r s j; unfold store; reflexivity).
  rewrite (existsb_schedule N rows i Hs).
  in_range_true.
  unfold block_sum.
  rewrite (map_ext_in _ (fun _ => F32.zero)).
  - fold zero_partial_sums. rewrite Hsum. reflexivity.
  - intros tid Htid. apply in_iota in Htid.
    apply thread_sum_zero; [assumption | lia|].
    intros j Hj. cbv zeta.
    rewrite F32Algebra.sub_self; [reflexivity|].
    apply Hfin. rewrite Esize, <- ED. nia.
Qed.

End Forward.

End DistanceShapes.

(** ** Distance operators: the gradients *)

Module DistanceGradients.
Import Device Framework KernelLemmas LoopFacts Distance DistanceShapes.

(** *** What the gradient operators accept *)

Lemma guarded_div s N :
  (if N >? 0 then int_div s N else Ok 0)
  = Ok (if N >? 0 then CInt.div s N else 0).
Proof.
  destruct (Z.gtb_spec N 0); [|reflexivity].
  unfold int_div. destruct (Z.eqb_spec N 0); [lia | reflexivity].
Qed.

Lemma guarded_batch {T} (X : Tensor T) :
  (if size X >? 0
   then D <- int_div (size X) (batch X) ;; Ok (batch X, D)
   else Ok (0, 0))
  = Ok (if size X >? 0 then (batch X, CInt.div (size X) (batch X))
        else (0, 0)).
Proof.
  destruct (Z.gtb_spec (size X) 0) as [Hpos|]; [|reflexivity].
  unfold int_div. destruct (Z.eqb_spec (batch X) 0) as [E|]; [|reflexivity].
  exfalso. apply (batch_of_nonempty X); [lia | assumption].
Qed.

Lemma dims_singleton {T} (t : Tensor T) N :
  dims t = [N] <-> ndim t = 1 /\ dim32 t 0 = N.
Proof.
  unfold ndim, dim32. split.
  - intros ->. split; reflexivity.
  - destruct (dims t) as [|x [|y l]]; simpl; intros [Hl Hx];
      [lia | now rewrite Hx | lia].
Qed.

Lemma upstream_pass {T A} (dD : Tensor T) N m1 m2 (k : result A) :
  dims dD = [N] ->
  (CAFFE_ENFORCE (ndim dD =? 1) m1 ;;;
   CAFFE_ENFORCE (dim32 dD 0 =? N) m2 ;;; k) = k.
Proof.
  intros E. apply dims_singleton in E. destruct E as [E1 E2].
  unfold CAFFE_ENFORCE. rewrite E1, E2, !Z.eqb_refl. reflexivity.
Qed.

Lemma upstream_fail {T A} (dD : Tensor T) N m1 m2 (k : result A) :
  dims dD <> [N] ->
  exists msg,
    (CAFFE_ENFORCE (ndim dD =? 1) m1 ;;;
     CAFFE_ENFORCE (dim32 dD 0 =? N) m2 ;;; k) = Err (EnforceNotMet msg).
Proof.
  intros Hne. unfold CAFFE_ENFORCE.
  destruct (Z.eqb_spec (ndim dD) 1) as [E1|]; [|now exists m1].
  destruct (Z.eqb_spec (dim32 dD 0) N) as [E2|]; [|now exists m2].
  exfalso; apply Hne. now apply dims_singleton.
Qed.

(** The outcome of a gradient operator on inputs [X], [Y] and an
    upstream gradient [dD], for the batch size [N] it derives from [X]:
    it completes exactly when [X] and [Y] have the same shape and [dD]
    is a vector of length [N], the gradients then taking the shapes of
    [X] and [Y]; otherwise it stops at a failed enforcement, never at a
    division. *)
Definition gradient_outcome (X Y dD : Tensor F32.float) (N : Z)
    (r : result (Tensor F32.float * Tensor F32.float)) : Prop :=
  match r with
  | Ok (dX, dY) =>
      dims X = dims Y /\ dims dD = [N] /\
      dims dX = dims X /\ dims dY = dims Y
  | Err e =>
      (dims X <> dims Y \/ dims dD <> [N]) /\ exists msg, e = EnforceNotMet msg
  end.

Lemma checked_outcome X Y dD N m1 m2 m3 m4 dX dY :
  gradient_outcome X Y dD N
    (CAFFE_ENFORCE (ndim X =? ndim Y) m1 ;;;
     enforce_same_dims (dims X) (dims Y) m2 ;;;
     CAFFE_ENFORCE (ndim dD =? 1) m3 ;;;
     CAFFE_ENFORCE (dim32 dD 0 =? N) m4 ;;;
     Ok (mkTensor (dims X) dX, mkTensor (dims Y) dY)).
Proof.
  destruct (list_eq_dec Z.eq_dec (dims X) (dims Y)) as [E|Hne].
  - rewrite checks_pass by assumption.
    destruct (list_eq_dec Z.eq_dec (dims dD) [N]) as [E'|Hne'].
    + rewrite upstream_pass by assumption. simpl. now repeat split.
    + destruct (upstream_fail dD N m3 m4
                  (Ok (mkTensor (dims X) dX, mkTensor (dims Y) dY)) Hne')
        as (msg & ->).
      simpl. split; [now right | now exists msg].
  - rewrite checks_fail by assumption. simpl.
    split; [now left | eexists; reflexivity].
Qed.

(** X10. The gradient operators of the squared L2 distance, the L1
    distance and the dot product complete exactly when [X] and [Y] have
    the same shape and the upstream gradient is a vector of length [N],
    the gradients then taking the shapes of [X] and [Y]; otherwise they
    stop at a failed enforcement, never at a division. The dot product
    takes [N] to be zero when [X] has no elements. *)
Theorem distance_gradients_validate (sched : list Z)
    (X Y dD : Tensor F32.float) (dX_buf dY_buf : ptr F32.float) :
  gradient_outcome X Y dD (batch X)
    (SquaredL2DistanceGradientOp_RunOnDevice sched X Y dD dX_buf dY_buf) /\
  gradient_outcome X Y dD (batch X)
    (L1DistanceGradientOp_RunOnDevice sched X Y dD dX_buf dY_buf) /\
  gradient_outcome X Y dD (if size X >? 0 then batch X else 0)
    (DotProductGradientOp_RunOnDevice sched X Y dD dX_buf dY_buf).
Proof.
  split; [|split].
  - unfold SquaredL2DistanceGradientOp_RunOnDevice. fold (batch X).
    rewrite guarded_div. cbn [bind]. apply checked_outcome.
  - unfold L1DistanceGradientOp_RunOnDevice. fold (batch X).
    rewrite guarded_div. cbn [bind].
    destruct (L1DistanceGradientKernel _ _ _ _ _ _ _) as [dX dY].
    apply checked_outcome.
  - unfold DotProductGradientOp_RunOnDevice. fold (batch X).
    rewrite guarded_batch. cbn [bind].
    destruct (Z.gtb_spec (size X) 0);
      destruct (DotProductGradientKernel _ _ _ _ _ _ _) as [dX dY];
      apply checked_outcome.
Qed.

(** *** The dot product *)

Lemma flat_div n d D : 0 <= n -> 0 <= d < D -> CInt.div (n * D + d) D = n.
Proof. intros; now apply CIntFacts.div_flat. Qed.

Lemma leading_batch {T} (X : Tensor T) N rest :
  dims X = N :: rest ->
  batch X = N /\ size X = N * fold_right Z.mul 1 rest /\
  size_from_dim 1 X = fold_right Z.mul 1 rest.
Proof.
  intros E. unfold batch, ndim, dim32, size, size_from_dim. rewrite E.
  cbn [length nth Z.to_nat skipn fold_right].
  destruct (Z.gtb_spec (Z.of_nat (S (length rest))) 0); [|lia].
  repeat split.
Qed.

Lemma leading_quotient N P : 0 < N -> CInt.div (N * P) N = P.
Proof.
  intros HN. unfold CInt.div. rewrite Z.mul_comm. apply Z.quot_mul. lia.
Qed.

Lemma DotProductGradientKernel_at sched N D X Y dDot st i :
  is_schedule (N * D) sched -> 0 <= i < N * D ->
  let out := DotProductGradientKernel sched N D X Y dDot st in
  fst out i = F32.mul (Y i) (dDot (CInt.div i D)) /\
  snd out i = F32.mul (X i) (dDot (CInt.div i D)).
Proof.
  intros Hs Hi out.
  assert (Hbody : forall k (s : ptr F32.float * ptr F32.float) j,
    (fun (s : ptr F32.float * ptr F32.float) a => (fst s a, snd s a))
      ((fun i '(dX, dY) =>
          let scale := dDot (CInt.div i D) in
          (store dX i (F32.mul (Y i) scale),
           store dY i (F32.mul (X i) scale))) k s) j
    = if j =? k
      then (F32.mul (Y k) (dDot (CInt.div k D)),
            F32.mul (X k) (dDot (CInt.div k D)))
      else (fst s j, snd s j)).
  { intros k [p q] j. cbv beta zeta. simpl. unfold store.
    now destruct (j =? k). }
  pose proof (loop_gather_schedule _ _ _ (N * D) sched st i Hbody Hs Hi)
    as Hg.
  cbv beta in Hg.
  change (HIP_1D_KERNEL_LOOP sched (N * D) _ st) with out in Hg.
  injection Hg as H1 H2. now split.
Qed.

(** X11. Every element of the dot product's gradients is the element of
    the other input times the upstream gradient of its row, for every
    schedule. *)
Theorem dot_product_gradient_elements (sched : list Z)
    (X Y dDot : Tensor F32.float) (dX_buf dY_buf : ptr F32.float)
    (N : Z) (rest : list Z) (n d : Z) :
  let D := fold_right Z.mul 1 rest in
  dims X = N :: rest -> dims Y = dims X -> dims dDot = [N] ->
  is_schedule (N * D) sched ->
  0 <= n < N -> 0 <= d < D ->
  let i := n * D + d in
  exists dX dY,
    DotProductGradientOp_RunOnDevice sched X Y dDot dX_buf dY_buf
    = Ok (dX, dY) /\
    data dX i = F32.mul (data Y i) (data dDot n) /\
    data dY i = F32.mul (data X i) (data dDot n).
Proof.
  intros D HX HY HdD Hs Hn Hd i.
  destruct (leading_batch X N rest HX) as (EN & Esize & _).
  unfold DotProductGradientOp_RunOnDevice. fold (batch X).
  rewrite guarded_batch. cbn [bind].
  destruct (Z.gtb_spec (size X) 0) as [_|Hle]; [|fold D in Esize; nia].
  rewrite EN, Esize, leading_quotient by lia. fold D.
  rewrite checks_pass, upstream_pass by (assumption || now symmetry).
  assert (Hi : 0 <= i < N * D) by (unfold i; nia).
  destruct (DotProductGradientKernel_at sched N D (data X) (data Y)
              (data dDot) (dX_buf, dY_buf) i Hs Hi) as [H1 H2].
  destruct (DotProductGradientKernel _ _ _ _ _ _ _) as [dX dY].
  eexists; eexists. split; [reflexivity|]. cbn [data fst snd] in *.
  unfold i in H1, H2. rewrite flat_div in H1, H2 by lia.
  now split.
Qed.

(** *** The squared L2 distance *)

(** X12. [StripedScaleKernel] may run in place. When its input and its
    output are the same cells, or do not overlap at all, every output
    cell ends up with its input cell times the factor of its row, for
    every schedule, and no other cell of the buffer is changed. *)
Theorem striped_scale_in_place (sched : list Z) (N D : Z)
    (alpha : ptr F32.float) (x y : Z) (mem : ptr F32.float) :
  is_schedule (N * D) sched ->
  x = y \/ x + N * D <= y \/ y + N * D <= x ->
  (forall n d, 0 <= n < N -> 0 <= d < D ->
     StripedScaleKernel sched N D alpha x y mem (y + (n * D + d))
     = F32.mul (mem (x + (n * D + d))) (alpha n)) /\
  (forall address, ~ (y <= address < y + N * D) ->
     StripedScaleKernel sched N D alpha x y mem address = mem address).
Proof.
  intros Hs Halias.
  assert (Hat : forall address,
    StripedScaleKernel sched N D alpha x y mem address
    = if (y <=? address) && (address <? y + N * D)
      then F32.mul (mem (x + (address - y)))
             (alpha (CInt.div (address - y) D))
      else mem address).
  { intros address. unfold StripedScaleKernel.
    apply (OwnCell.kernel_own_cell y
             (fun i m => F32.mul (m (x + i)) (alpha (CInt.div i D))));
      [assumption|].
    intros i m m' Hi Hag. f_equal. apply Hag.
    destruct Halias as [->|Hdis]; [now left | right; lia]. }
  split.
  - intros n d Hn Hd. rewrite Hat.
    replace ((y <=? y + (n * D + d)) && (y + (n * D + d) <? y + N * D))
      with true
      by (symmetry; apply andb_true_iff; split;
          [apply Z.leb_le | apply Z.ltb_lt]; nia).
    replace (y + (n * D + d) - y) with (n * D + d) by lia.
    now rewrite flat_div by lia.
  - intros address Hout. rewrite Hat.
    replace ((y <=? address) && (address <? y + N * D)) with false;
      [reflexivity|].
    symmetry; apply andb_false_iff.
    destruct (Z.leb_spec y address); [right; apply Z.ltb_ge; lia | now left].
Qed.

Lemma StripedScaleKernel_at sched N D alpha mem n d :
  is_schedule (N * D) sched -> 0 <= n < N -> 0 <= d < D ->
  StripedScaleKernel sched N D alpha 0 0 mem (n * D + d)
  = F32.mul (mem (n * D + d)) (alpha n).
Proof.
  intros Hs Hn Hd. unfold StripedScaleKernel.
  rewrite (OwnCell.kernel_own_cell 0
             (fun i m => F32.mul (m (0 + i)) (alpha (CInt.div i D))))
    by (try assumption; intros i m m' Hi Hag; f_equal; apply Hag; now left).
  replace ((0 <=? n * D + d) && (n * D + d <? 0 + N * D)) with true
    by (symmetry; apply andb_true_iff; split;
        [apply Z.leb_le | apply Z.ltb_lt]; nia).
  rewrite Z.sub_0_r, Z.add_0_l. now rewrite flat_div by lia.
Qed.

(** X13. Every element of the squared L2 distance's gradient for [X] is
    the difference of the inputs times the upstream gradient of its row,
    and the gradient for [Y] is that value times [-1], for every
    schedule of the scaling that runs in place. *)
Theorem squared_l2_gradient_elements (sched : list Z)
    (X Y dDistance : Tensor F32.float) (dX_buf dY_buf : ptr F32.float)
    (N : Z) (rest : list Z) (n d : Z) :
  let D := fold_right Z.mul 1 rest in
  dims X = N :: rest -> dims Y = dims X -> dims dDistance = [N] ->
  is_schedule (N * D) sched ->
  0 <= n < N -> 0 <= d < D ->
  let i := n * D + d in
  exists dX dY,
    SquaredL2DistanceGradientOp_RunOnDevice sched X Y dDistance dX_buf dY_buf
    = Ok (dX, dY) /\
    data dX i = F32.mul (F32.sub (data X i) (data Y i)) (data dDistance n) /\
    data dY i = F32.mul (data dX i) (F32.of_Z (-1)).
Proof.
  intros D HX HY HdD Hs Hn Hd i.
  destruct (leading_batch X N rest HX) as (EN & Esize & _).
  fold D in Esize.
  unfold SquaredL2DistanceGradientOp_RunOnDevice. fold (batch X).
  rewrite guarded_div. cbn [bind]. rewrite EN.
  destruct (Z.gtb_spec N 0) as [_|]; [|lia].
  rewrite Esize, leading_quotient by lia.
  rewrite checks_pass by now symmetry.
  unfold CAFFE_ENFORCE_EQ. rewrite upstream_pass by assumption.
  eexists; eexists. split; [reflexivity|]. cbn [data].
  assert (Hi : 0 <= i < N * D) by (unfold i; nia).
  unfold math_Scale. in_range_true.
  split; [|reflexivity].
  unfold i. rewrite StripedScaleKernel_at by assumption.
  unfold math_Sub. fold i. in_range_true. reflexivity.
Qed.

(** *** The cosine similarity *)





Section CosineGradient.
Variable CAFFE_HIP_NUM_THREADS : Z.
Variable BlockReduce_Sum : list F32.float -> F32.float.
Variable fp_contract : bool.

Local Notation "'dot_row'" :=
  (DotProductKernel_row CAFFE_HIP_NUM_THREADS BlockReduce_Sum).
Local Notation "'dot'" :=
  (DotProductKernel CAFFE_HIP_NUM_THREADS BlockReduce_Sum).
Local Notation "'cosine_gradient'" :=
  (CosineSimilarityGradientOp_RunOnDevice CAFFE_HIP_NUM_THREADS
     BlockReduce_Sum fp_contract).

Variables (s : CosineGradientSchedules) (X Y dCos : Tensor F32.float).

Let N := batch X.
Let D := size_from_dim 1 X.








(** X15. The gradient operator of the cosine similarity completes
    exactly on inputs of equal shape with an upstream gradient of length
    [N], the gradients then taking the shapes of [X] and [Y], and stops
    at a failed enforcement otherwise. *)
Theorem cosine_gradient_validates (dX_buf dY_buf aux_buf : ptr F32.float) :
  match cosine_gradient s X Y dCos dX_buf dY_buf aux_buf with
  | Ok (dX, dY, _) =>
      dims X = dims Y /\ dims dCos = [N] /\
      dims dX = dims X /\ dims dY = dims Y
  | Err e =>
      (dims X <> dims Y \/ dims dCos <> [N]) /\
      exists msg, e = EnforceNotMet msg
  end.
Proof.
  unfold CosineSimilarityGradientOp_RunOnDevice. fold (batch X). fold N.
  destruct (list_eq_dec Z.eq_dec (dims X) (dims Y)) as [E|Hne].
  - rewrite checks_pass by assumption.
    destruct (list_eq_dec Z.eq_dec (dims dCos) [N]) as [E'|Hne'].
    + rewrite upstream_pass by assumption. cbv zeta. now repeat split.
    + match goal with
      | |- match (_ ;;; _ ;;; ?k) with _ => _ end =>
          destruct (upstream_fail dCos N "dCos.ndim() == 1"
                      "dCos.dim32(0) == N" k Hne') as (msg & ->)
      end.
      split; [now right | now exists msg].
  - rewrite checks_fail by assumption.
    split; [now left | eexists; reflexivity].
Qed.

End CosineGradient.

End DistanceGradients.

(** ** Max pooling: the values and indices the forward kernel can write *)

Module MaxPoolRange.
Import Device Framework KernelLemmas LoopFacts MaxPool MaxPoolProofs.

(** The running maximum never falls below its initial value. *)
Lemma scan_lower_bound {A} (val : A -> F32.float) (idx : A -> Z) cells m0 i0 :
  F32.le m0 m0 = true ->
  F32.le m0 (fst (fold_left (step val idx) cells (m0, i0))) = true.
Proof.
  intros Hrefl.
  destruct (scan_spec val idx cells m0 i0) as [[-> _]|(c & -> & Hc & _)];
    [assumption|].
  apply F32Algebra.lt_le. exact Hc.
Qed.

(** A cell that holds a NaN, or any value that is not above [-FLT_MAX],
    never changes the state of the scan. *)
Lemma scan_skips {A} (val val' : A -> F32.float) (idx : A -> Z) cells m0 i0 :
  F32.le (F32.neg F32.FLT_MAX) m0 = true ->
  (forall c, In c cells ->
     val' c = val c \/
     (F32Algebra.is_nan (val c) = true /\
      F32.gt (val' c) (F32.neg F32.FLT_MAX) = false)) ->
  fold_left (step val' idx) cells (m0, i0)
  = fold_left (step val idx) cells (m0, i0).
Proof.
  revert m0 i0; induction cells as [|x cells IH]; intros m0 i0 Hm Hv;
    [reflexivity|].
  cbn [fold_left].
  assert (Hx : step val' idx (m0, i0) x = step val idx (m0, i0) x).
  { unfold step; cbn [fst].
    destruct (Hv x (or_introl eq_refl)) as [->|[Hnan Hlow]]; [reflexivity|].
    rewrite (F32Algebra.nan_not_gt _ m0 Hnan).
    destruct (F32.gt (val' x) m0) eqn:Hgt; [|reflexivity].
    unfold F32.gt in *.
    pose proof (F32Facts.le_lt_trans _ _ _ Hm Hgt). congruence. }
  rewrite Hx.
  assert (Hm' : F32.le (F32.neg F32.FLT_MAX)
                  (fst (step val idx (m0, i0) x)) = true).
  { unfold step; cbn [fst].
    destruct (F32.gt (val x) m0) eqn:Hgt; [|assumption].
    apply F32Algebra.lt_le. unfold F32.gt in Hgt.
    eapply F32Facts.le_lt_trans; eassumption. }
  destruct (step val idx (m0, i0) x) as [m1 i1].
  apply IH; [assumption|]. intros c Hc; apply Hv; now right.
Qed.

Section Forward.
Variables (num channels height width pooled_height pooled_width : Z).
Variables (kernel_h kernel_w stride_h stride_w pad_h pad_w : Z).

(** The forward kernel on [float] data. *)
Definition pool (sched : list Z) (X top0 : ptr F32.float) (mask0 : ptr Z)
    : ptr F32.float * ptr Z :=
  MaxPoolForward sched (num * channels * pooled_height * pooled_width)
    X num channels height width pooled_height pooled_width
    kernel_h kernel_w stride_h stride_w pad_h pad_w top0 mask0.

(** X16. Whatever the input holds, NaN and infinities included, an
    output cell of the [float] kernel is in one of two states: the mask
    entry is [-1] and the value is [-FLT_MAX]; or the mask entry is a
    flat index inside the image and the value is greater than
    [-FLT_MAX]. In both the value is at least [-FLT_MAX]: the kernel
    writes neither a NaN nor minus infinity. *)
Theorem max_pool_output_range (sched : list Z) (X top0 : ptr F32.float)
    (mask0 : ptr Z) (n c ph pw : Z) :
  is_schedule (num * channels * pooled_height * pooled_width) sched ->
  0 <= n < num -> 0 <= c < channels ->
  0 <= ph < pooled_height -> 0 <= pw < pooled_width ->
  let index := ((n * channels + c) * pooled_height + ph) * pooled_width + pw in
  let y := fst (pool sched X top0 mask0) index in
  let m := snd (pool sched X top0 mask0) index in
  ((m = -1 /\ y = F32.neg F32.FLT_MAX) \/
   (0 <= m < height * width /\ F32.gt y (F32.neg F32.FLT_MAX) = true)) /\
  F32.le (F32.neg F32.FLT_MAX) y = true.
Proof.
  intros Hs Hn Hc Hph Hpw index y m.
  destruct (forward_at X num channels height width pooled_height
              pooled_width kernel_h kernel_w stride_h stride_w pad_h pad_w
              sched top0 mask0 n c ph pw Hs Hn Hc Hph Hpw) as [Htop Hmask].
  cbn [of_float Dtype_float] in Htop.
  unfold y, m, pool. fold index in Htop, Hmask. rewrite Htop, Hmask.
  split.
  - destruct (scan_spec (value X channels height width n c) (flat width)
                (int_window height width kernel_h kernel_w stride_h stride_w
                   pad_h pad_w ph pw)
                (F32.neg F32.FLT_MAX) (-1))
      as [[-> _]|([h w] & -> & Hgt & Hf)].
    + left; split; reflexivity.
    + right. split; [|exact Hgt].
      destruct Hf as (before & after & Hcells & _).
      assert (Hin : In (h, w)
                      (int_window height width kernel_h kernel_w stride_h
                         stride_w pad_h pad_w ph pw))
        by (rewrite Hcells; apply in_or_app; right; now left).
      apply in_int_window in Hin. unfold flat; cbn [fst snd]. nia.
  - now apply scan_lower_bound.
Qed.

(** X17. The forward kernel does not see NaNs: replacing every NaN of
    the input by any value that is not above [-FLT_MAX] changes neither
    the values nor the mask it writes. *)
Theorem max_pool_ignores_nan (sched : list Z) (X top0 : ptr F32.float)
    (mask0 : ptr Z) (fill : F32.float) (n c ph pw : Z) :
  F32.gt fill (F32.neg F32.FLT_MAX) = false ->
  is_schedule (num * channels * pooled_height * pooled_width) sched ->
  0 <= n < num -> 0 <= c < channels ->
  0 <= ph < pooled_height -> 0 <= pw < pooled_width ->
  let X' : ptr F32.float :=
    fun j => if F32Algebra.is_nan (X j) then fill else X j in
  let index := ((n * channels + c) * pooled_height + ph) * pooled_width + pw in
  fst (pool sched X' top0 mask0) index = fst (pool sched X top0 mask0) index /\
  snd (pool sched X' top0 mask0) index = snd (pool sched X top0 mask0) index.
Proof.
  intros Hfill Hs Hn Hc Hph Hpw X' index.
  destruct (forward_at X num channels height width pooled_height
              pooled_width kernel_h kernel_w stride_h stride_w pad_h pad_w
              sched top0 mask0 n c ph pw Hs Hn Hc Hph Hpw) as [Htop Hmask].
  destruct (forward_at X' num channels height width pooled_height
              pooled_width kernel_h kernel_w stride_h stride_w pad_h pad_w
              sched top0 mask0 n c ph pw Hs Hn Hc Hph Hpw) as [Htop' Hmask'].
  unfold pool. fold index in Htop, Hmask, Htop', Hmask'.
  rewrite Htop, Hmask, Htop', Hmask'.
  rewrite (scan_skips (value X channels height width n c)
             (value X' channels height width n c)).
  - split; reflexivity.
  - reflexivity.
  - intros [h w] _. unfold value, X'; cbn [to_float Dtype_float].
    destruct (F32Algebra.is_nan (X _)) eqn:Hnan; [right | left; reflexivity].
    split; [reflexivity | assumption].
Qed.

End Forward.

End MaxPoolRange.

(** ** Examples: distances and pooling on small inputs *)

Module DistanceExamples.
Import Device Framework KernelLemmas Distance DistanceProofs.
Import DistanceShapes DistanceGradients.

(** Two rows of two elements each, and an upstream gradient for the
    two rows; a block of 512 threads whose sum takes the partial sums
    in thread order. *)
Definition rows_X : Tensor F32.float := vec [2; 2] [3; 4; 1; 0].
Definition rows_Y : Tensor F32.float := vec [2; 2] [3; 4; 0; 1].
Definition upstream : Tensor F32.float := vec [2] [5; 7].

(** A 2x3 and a 3x2 input are turned away. *)
Lemma distance_ops_reject_mismatch_witness :
  exists msg,
    L1DistanceOp_RunOnDevice 512 sequential_sum []
      (vec [2; 3] []) (vec [3; 2] []) blank = Err (EnforceNotMet msg).
Proof.
  destruct (distance_ops_reject_mismatch 512 sequential_sum
              (vec [2; 3] []) (vec [3; 2] []) [] [] [] blank blank)
    as (_ & Hl1 & _); [simpl; discriminate|].
  exact Hl1.
Defined.

(** Three rows of no elements: the dot product returns no entry, the
    L1 distance three. *)
Lemma empty_input_output_shapes_witness :
  (exists r,
     DotProductOp_RunOnDevice 512 sequential_sum (iota 3)
       (vec [3; 0] []) (vec [3; 0] []) blank = Ok r /\ dims r = [0]) /\
  (exists r,
     L1DistanceOp_RunOnDevice 512 sequential_sum (iota 3)
       (vec [3; 0] []) (vec [3; 0] []) blank = Ok r /\ dims r = [3]).
Proof.
  destruct (empty_input_output_shapes 512 sequential_sum
              (vec [3; 0] []) (vec [3; 0] []) (iota 3) [] [] blank blank)
    as (Hdot & Hl1 & _); [reflexivity | reflexivity |].
  split; [exact Hdot | exact Hl1].
Defined.

Lemma cosine_similarity_symmetric_witness :
  exists out aux out' aux',
    CosineSimilarityOp_RunOnDevice 512 sequential_sum [1; 0] [0; 1] [1; 0]
      rows_X rows_Y blank blank = Ok (out, aux) /\
    CosineSimilarityOp_RunOnDevice 512 sequential_sum [0; 1] [1; 0] [0; 1]
      rows_Y rows_X blank blank = Ok (out', aux') /\
    dims out = dims out' /\
    data out 1 = data out' 1.
Proof.
  apply (cosine_similarity_symmetric 512 sequential_sum
           [1; 0] [0; 1] [1; 0] [0; 1] [1; 0] [0; 1]
           rows_X rows_Y blank blank blank blank 1).
  - reflexivity.
  - apply (rev_iota_schedule 2).
  - apply (iota_schedule 2).
  - apply (rev_iota_schedule 2).
  - apply (iota_schedule 2).
  - apply (rev_iota_schedule 2).
  - apply (iota_schedule 2).
  - vm_compute; split; [discriminate | reflexivity].
Defined.

Lemma squared_l2_self_distance_witness :
  exists out,
    SquaredL2DistanceOp_RunOnDevice 512 sequential_sum [1; 0]
      rows_X rows_X blank = Ok out /\
    dims out = [2] /\ data out 1 = F32.zero.
Proof.
  apply (squared_l2_self_distance 512 sequential_sum [1; 0] rows_X blank
           2 [2] 1).
  - lia.
  - vm_compute; reflexivity.
  - reflexivity.
  - lia.
  - intros k Hk.
    assert (k = 0 \/ k = 1 \/ k = 2 \/ k = 3) as [->|[->|[->| ->]]]
      by (unfold size in Hk; simpl in Hk; lia);
      reflexivity.
  - apply (rev_iota_schedule 2).
  - lia.
Defined.

Lemma dot_product_gradient_elements_witness :
  exists dX dY,
    DotProductGradientOp_RunOnDevice (rev (iota 4)) rows_X rows_Y upstream
      blank blank = Ok (dX, dY) /\
    data dX 2 = F32.mul (data rows_Y 2) (data upstream 1) /\
    data dY 2 = F32.mul (data rows_X 2) (data upstream 1).
Proof.
  apply (dot_product_gradient_elements (rev (iota 4)) rows_X rows_Y upstream
           blank blank 2 [2] 1 0).
  - reflexivity.
  - reflexivity.
  - reflexivity.
  - apply (rev_iota_schedule 4).
  - lia.
  - simpl; lia.
Defined.

(** Six cells at offset 10 of a buffer, scaled in place, the threads
    retiring in reverse order. *)
Lemma striped_scale_in_place_witness :
  let alpha : ptr F32.float := fun k => F32.of_Z (k + 2) in
  let mem : ptr F32.float := fun a => F32.of_Z a in
  StripedScaleKernel (rev (iota 6)) 2 3 alpha 10 10 mem (10 + (1 * 3 + 2))
  = F32.mul (mem (10 + (1 * 3 + 2))) (alpha 1).
Proof.
  intros alpha mem.
  destruct (striped_scale_in_place (rev (iota 6)) 2 3 alpha 10 10 mem
              (rev_iota_schedule 6) (or_introl eq_refl)) as [Hin _].
  apply Hin; lia.
Defined.

Lemma squared_l2_gradient_elements_witness :
  exists dX dY,
    SquaredL2DistanceGradientOp_RunOnDevice (rev (iota 4))
      rows_X rows_Y upstream blank blank = Ok (dX, dY) /\
    data dX 2
    = F32.mul (F32.sub (data rows_X 2) (data rows_Y 2)) (data upstream 1) /\
    data dY 2 = F32.mul (data dX 2) (F32.of_Z (-1)).
Proof.
  apply (squared_l2_gradient_elements (rev (iota 4)) rows_X rows_Y upstream
           blank blank 2 [2] 1 0).
  - reflexivity.
  - reflexivity.
  - reflexivity.
  - apply (rev_iota_schedule 4).
  - lia.
  - simpl; lia.
Defined.

Definition mixed_schedules : CosineGradientSchedules :=
  mkCosineGradientSchedules [1; 0] [0; 1] [1; 0]
    (rev (iota 4)) [1; 0] (iota 4)
    (iota 4) [0; 1] (rev (iota 4)).



(** On that input the gradients of the second row, whose vectors are
    orthogonal, are the other vector times the upstream gradient. *)
Example cosine_gradient_orthogonal :
  match CosineSimilarityGradientOp_RunOnDevice 512 sequential_sum true
          mixed_schedules rows_X rows_Y upstream blank blank blank with
  | Ok (dX, dY, _) =>
      map (data dX) [2; 3] = map F32.of_Z [0; 7] /\
      map (data dY) [2; 3] = map F32.of_Z [7; 0]
  | Err _ => False
  end.
Proof. vm_compute. split; reflexivity. Qed.

(** Where contraction shows: for [X = Y = [3]] the two terms of the
    gradient cancel when the product is rounded before the sum, and
    leave the rounding error of the first term, [2^-27], when the
    multiply-add is fused. *)
Definition single_schedules : CosineGradientSchedules :=
  mkCosineGradientSchedules [0] [0] [0] [0] [0] [0] [0] [0] [0].

Example cosine_gradient_contraction :
  let three : Tensor F32.float := vec [1; 1] [3] in
  let one : Tensor F32.float := vec [1] [1] in
  let dX contract :=
    match CosineSimilarityGradientOp_RunOnDevice 512 sequential_sum contract
            single_schedules three three one blank blank blank with
    | Ok (dX, _, _) => data dX 0
    | Err _ => S754_nan
    end in
  dX true = S754_finite false 8388608 (-50) /\ dX false = F32.zero.
Proof. split; vm_compute; reflexivity. Qed.

End DistanceExamples.

Module MaxPoolExamples.
Import Device KernelLemmas MaxPool MaxPoolProofs MaxPoolRange.

Lemma max_pool_output_range_witness :
  F32.le (F32.neg F32.FLT_MAX)
    (fst (pool 1 1 4 4 2 2 2 2 2 2 0 0 (rev (iota 4)) image4x4
            blank blank_mask)
       (((0 * 1 + 0) * 2 + 1) * 2 + 1)) = true.
Proof.
  destruct (max_pool_output_range 1 1 4 4 2 2 2 2 2 2 0 0 (rev (iota 4))
              image4x4 blank blank_mask 0 0 1 1) as [_ Hle].
  - apply rev_iota_schedule.
  - lia.
  - lia.
  - lia.
  - lia.
  - exact Hle.
Defined.

(** The 4x4 image with a NaN in its first quadrant. *)
Definition image_with_nan : ptr F32.float :=
  fun j => if j =? 1 then S754_nan else image4x4 j.

Lemma max_pool_ignores_nan_witness :
  let cleaned : ptr F32.float :=
    fun j => if F32Algebra.is_nan (image_with_nan j)
             then S754_infinity true else image_with_nan j in
  snd (pool 1 1 4 4 2 2 2 2 2 2 0 0 (rev (iota 4)) cleaned
         blank blank_mask) (((0 * 1 + 0) * 2 + 0) * 2 + 0)
  = snd (pool 1 1 4 4 2 2 2 2 2 2 0 0 (rev (iota 4)) image_with_nan
           blank blank_mask) (((0 * 1 + 0) * 2 + 0) * 2 + 0).
Proof.
  intros cleaned.
  destruct (max_pool_ignores_nan 1 1 4 4 2 2 2 2 2 2 0 0 (rev (iota 4))
              image_with_nan blank blank_mask (S754_infinity true) 0 0 0 0)
    as [_ Hmask].
  - reflexivity.
  - apply rev_iota_schedule.
  - lia.
  - lia.
  - lia.
  - lia.
  - exact Hmask.
Defined.

(** With the NaN in place of its maximum, the first quadrant yields
    the next value and its position. *)
Example pooled_with_nan :
  let out := pool 1 1 4 4 2 2 2 2 2 2 0 0 (iota 4) image_with_nan
               blank blank_mask in
  fst out 0 = F32.of_Z 5 /\ snd out 0 = 5.
Proof. split; vm_compute; reflexivity. Qed.

End MaxPoolExamples.

(** ** Image padding: the three modes, forward and backward *)

Module PadModes.
Import Device Framework KernelLemmas LoopFacts PadOp PadProofs.

(** *** The range of the reflection *)

Lemma reflect_coord_abs h height :
  reflect_coord h height = Z.min (Z.abs h) (2 * height - Z.abs h - 2).
Proof.
  unfold reflect_coord. rewrite CIntFacts.min_spec, CIntFacts.max_spec. lia.
Qed.

(** *** The forward operator *)

Section Forward.
Variables (a : PadArgs) (value_ : F32.float) (N C H W : Z).
Variables (out_nchw out_nhwc : list Z -> Z -> list Z).

Let PH := H + pad_t a + pad_b a.
Let PW := W + pad_l a + pad_r a.

(** The shapes [SetOutputSize] gives the padded output in the two
    layouts. *)
Hypothesis Hout_nchw : out_nchw [N; C; H; W] C = [N; C; PH; PW].
Hypothesis Hout_nhwc : out_nhwc [N; H; W; C] C = [N; PH; PW; C].

Definition forward_nchw (sched : list Z) (Xdata Y_buf : ptr F32.float)
    : Tensor F32.float :=
  PadImageOp_RunOnDeviceWithOrderNCHW out_nchw a value_ sched
    (mkTensor [N; C; H; W] Xdata) Y_buf.

Definition forward_nhwc (sched : list Z) (Xdata Y_buf : ptr F32.float)
    : Tensor F32.float :=
  PadImageOp_RunOnDeviceWithOrderNHWC out_nhwc a value_ sched
    (mkTensor [N; H; W; C] Xdata) Y_buf.

Lemma forward_nchw_unfold sched Xdata Y_buf :
  forward_nchw sched Xdata Y_buf
  = mkTensor [N; C; PH; PW]
      match mode_ a with
      | CONSTANT =>
          PadImageConstNCHW sched (N * C * PH * PW) Xdata N C H W PH PW
            (pad_t a) (pad_l a) value_ Y_buf
      | REFLECT =>
          PadImageReflectNCHW sched (N * C * PH * PW) Xdata N C H W PH PW
            (pad_t a) (pad_l a) Y_buf
      | EDGE =>
          PadImageEdgeNCHW sched (N * C * PH * PW) Xdata N C H W PH PW
            (pad_t a) (pad_l a) Y_buf
      end.
Proof.
  unfold forward_nchw, PadImageOp_RunOnDeviceWithOrderNCHW.
  cbv [dims data dim32 nth Z.to_nat Pos.to_nat PosDef.Pos.to_nat
       Pos.iter_op PosDef.Pos.iter_op Nat.add].
  rewrite Hout_nchw.
  cbv [nth fold_right].
  replace (N * (C * (PH * (PW * 1)))) with (N * C * PH * PW) by ring.
  reflexivity.
Qed.

Lemma forward_nhwc_unfold sched Xdata Y_buf :
  forward_nhwc sched Xdata Y_buf
  = mkTensor [N; PH; PW; C]
      match mode_ a with
      | CONSTANT =>
          PadImageConstNHWC sched (N * PH * PW * C) Xdata N H W C PH PW
            (pad_t a) (pad_l a) value_ Y_buf
      | REFLECT =>
          PadImageReflectNHWC sched (N * PH * PW * C) Xdata N H W C PH PW
            (pad_t a) (pad_l a) Y_buf
      | EDGE =>
          PadImageEdgeNHWC sched (N * PH * PW * C) Xdata N H W C PH PW
            (pad_t a) (pad_l a) Y_buf
      end.
Proof.
  unfold forward_nhwc, PadImageOp_RunOnDeviceWithOrderNHWC.
  cbv [dims data dim32 nth Z.to_nat Pos.to_nat PosDef.Pos.to_nat
       Pos.iter_op PosDef.Pos.iter_op Nat.add].
  rewrite Hout_nhwc.
  cbv [nth fold_right].
  replace (N * (PH * (PW * (C * 1)))) with (N * PH * PW * C) by ring.
  reflexivity.
Qed.

(** The flat indices of a padded cell in the two layouts. *)
Definition at_nchw (n c ph pw : Z) : Z := ((n * C + c) * PH + ph) * PW + pw.
Definition at_nhwc (n c ph pw : Z) : Z := ((n * PH + ph) * PW + pw) * C + c.

Lemma at_nchw_bound n c ph pw :
  0 <= n < N -> 0 <= c < C -> 0 <= ph < PH -> 0 <= pw < PW ->
  0 <= at_nchw n c ph pw < N * C * PH * PW.
Proof. intros; now apply CIntFacts.flat_bound. Qed.

Lemma at_nhwc_bound n c ph pw :
  0 <= n < N -> 0 <= c < C -> 0 <= ph < PH -> 0 <= pw < PW ->
  0 <= at_nhwc n c ph pw < N * PH * PW * C.
Proof. intros; now apply CIntFacts.flat_bound. Qed.

(** What the forward operator leaves in a padded cell: the value its
    thread computes from the cell's coordinates. *)
Definition source_nchw (Xdata : ptr F32.float) (n c ph pw : Z) : F32.float :=
  let h := ph - pad_t a in
  let w := pw - pad_l a in
  match mode_ a with
  | CONSTANT =>
      if (h <? 0) || (w <? 0) || (h >=? H) || (w >=? W) then value_
      else Xdata (((n * C + c) * H + h) * W + w)
  | REFLECT =>
      Xdata (((n * C + c) * H + reflect_coord h H) * W + reflect_coord w W)
  | EDGE =>
      Xdata (((n * C + c) * H + edge_coord h H) * W + edge_coord w W)
  end.

Definition source_nhwc (Xdata : ptr F32.float) (n c ph pw : Z) : F32.float :=
  let h := ph - pad_t a in
  let w := pw - pad_l a in
  match mode_ a with
  | CONSTANT =>
      if (h <? 0) || (w <? 0) || (h >=? H) || (w >=? W) then value_
      else Xdata (((n * H + h) * W + w) * C + c)
  | REFLECT =>
      Xdata (((n * H + reflect_coord h H) * W + reflect_coord w W) * C + c)
  | EDGE =>
      Xdata (((n * H + edge_coord h H) * W + edge_coord w W) * C + c)
  end.

Lemma forward_nchw_at sched Xdata Y_buf n c ph pw :
  is_schedule (N * C * PH * PW) sched ->
  0 <= n < N -> 0 <= c < C -> 0 <= ph < PH -> 0 <= pw < PW ->
  data (forward_nchw sched Xdata Y_buf) (at_nchw n c ph pw)
  = source_nchw Xdata n c ph pw.
Proof.
  intros Hs Hn Hc Hph Hpw.
  pose proof (at_nchw_bound n c ph pw Hn Hc Hph Hpw) as Hi.
  assert (Hnc : 0 <= n * C + c) by nia.
  rewrite forward_nchw_unfold. unfold source_nchw, at_nchw in *.
  destruct (mode_ a); cbn [data];
    unfold PadImageConstNCHW, PadImageReflectNCHW, PadImageEdgeNCHW;
    rewrite forward_kernel_at by assumption;
    unfold PadImageConstNCHW_cell, PadImageReflectNCHW_cell,
      PadImageEdgeNCHW_cell;
    destruct (CIntFacts.decompose3 (n * C + c) ph pw PH PW Hnc Hph Hpw)
      as (-> & -> & ->); reflexivity.
Qed.

Lemma forward_nhwc_at sched Xdata Y_buf n c ph pw :
  is_schedule (N * PH * PW * C) sched ->
  0 <= n < N -> 0 <= c < C -> 0 <= ph < PH -> 0 <= pw < PW ->
  data (forward_nhwc sched Xdata Y_buf) (at_nhwc n c ph pw)
  = source_nhwc Xdata n c ph pw.
Proof.
  intros Hs Hn Hc Hph Hpw.
  pose proof (at_nhwc_bound n c ph pw Hn Hc Hph Hpw) as Hi.
  assert (Hn0 : 0 <= n) by lia.
  rewrite forward_nhwc_unfold. unfold source_nhwc, at_nhwc in *.
  destruct (mode_ a); cbn [data];
    unfold PadImageConstNHWC, PadImageReflectNHWC, PadImageEdgeNHWC;
    rewrite forward_kernel_at by assumption;
    unfold PadImageConstNHWC_cell, PadImageReflectNHWC_cell,
      PadImageEdgeNHWC_cell;
    destruct (CIntFacts.decompose4 n ph pw c PH PW C Hn0 Hph Hpw Hc)
      as (-> & -> & -> & ->); reflexivity.
Qed.

(** X18. In constant mode a padded cell holds the input cell under it,
    and the fill value when there is none, in both layouts. *)
Theorem pad_constant_forward (sched : list Z) (Xdata Y_buf : ptr F32.float)
    (n c ph pw : Z) :
  mode_ a = CONSTANT ->
  is_schedule (N * C * PH * PW) sched ->
  0 <= n < N -> 0 <= c < C -> 0 <= ph < PH -> 0 <= pw < PW ->
  let h := ph - pad_t a in
  let w := pw - pad_l a in
  let y_nchw := data (forward_nchw sched Xdata Y_buf) (at_nchw n c ph pw) in
  let y_nhwc := data (forward_nhwc sched Xdata Y_buf) (at_nhwc n c ph pw) in
  (0 <= h < H /\ 0 <= w < W ->
     y_nchw = Xdata (((n * C + c) * H + h) * W + w) /\
     y_nhwc = Xdata (((n * H + h) * W + w) * C + c)) /\
  (~ (0 <= h < H /\ 0 <= w < W) -> y_nchw = value_ /\ y_nhwc = value_).
Proof.
  intros Hm Hs Hn Hc Hph Hpw h w y_nchw y_nhwc.
  assert (Hs' : is_schedule (N * PH * PW * C) sched)
    by (replace (N * PH * PW * C) with (N * C * PH * PW) by ring;
        assumption).
  unfold y_nchw, y_nhwc.
  rewrite forward_nchw_at, forward_nhwc_at by assumption.
  unfold source_nchw, source_nhwc. rewrite Hm. fold h w.
  split; intros Hin.
  - replace ((h <? 0) || (w <? 0) || (h >=? H) || (w >=? W)) with false;
      [now split|].
    symmetry. rewrite !orb_false_iff, !Z.ltb_ge, !Z.geb_leb, !Z.leb_gt. lia.
  - replace ((h <? 0) || (w <? 0) || (h >=? H) || (w >=? W)) with true;
      [now split|].
    symmetry. rewrite !orb_true_iff, !Z.ltb_lt, !Z.geb_leb, !Z.leb_le. lia.
Qed.


(** X20. Every mode leaves the image itself in place: with pad amounts
    that are not negative, the padded cell over an input cell holds that
    input cell, in both layouts. *)
Theorem pad_forward_interior (sched : list Z) (Xdata Y_buf : ptr F32.float)
    (n c h w : Z) :
  0 <= pad_t a -> 0 <= pad_l a -> 0 <= pad_b a -> 0 <= pad_r a ->
  is_schedule (N * C * PH * PW) sched ->
  0 <= n < N -> 0 <= c < C -> 0 <= h < H -> 0 <= w < W ->
  data (forward_nchw sched Xdata Y_buf)
    (at_nchw n c (h + pad_t a) (w + pad_l a))
  = Xdata (((n * C + c) * H + h) * W + w) /\
  data (forward_nhwc sched Xdata Y_buf)
    (at_nhwc n c (h + pad_t a) (w + pad_l a))
  = Xdata (((n * H + h) * W + w) * C + c).
Proof.
  intros Hpt Hpl Hpb Hpr Hs Hn Hc Hh Hw.
  assert (Hs' : is_schedule (N * PH * PW * C) sched)
    by (replace (N * PH * PW * C) with (N * C * PH * PW) by ring;
        assumption).
  rewrite forward_nchw_at, forward_nhwc_at
    by (try assumption; unfold PH, PW; lia).
  unfold source_nchw, source_nhwc.
  replace (h + pad_t a - pad_t a) with h by lia.
  replace (w + pad_l a - pad_l a) with w by lia.
  destruct (mode_ a).
  - replace ((h <? 0) || (w <? 0) || (h >=? H) || (w >=? W)) with false;
      [now split|].
    symmetry. rewrite !orb_false_iff, !Z.ltb_ge, !Z.geb_leb, !Z.leb_gt. lia.
  - rewrite !reflect_coord_inside by assumption. now split.
  - rewrite !edge_coord_inside by assumption. now split.
Qed.

(** X21. Reflect mode does not check its pad amounts. When the bottom
    pad is as large as the image is high, the last padded row is taken
    from above the image: for the first image of the batch, from before
    the start of the input buffer. *)
Theorem pad_reflect_reads_before_buffer (sched : list Z) (pw : Z) :
  mode_ a = REFLECT -> 0 < N -> 0 < C -> 0 < H -> 0 < W ->
  0 <= pad_t a -> H <= pad_b a -> 0 <= pad_l a < W -> 0 <= pad_r a < W ->
  is_schedule (N * C * PH * PW) sched ->
  0 <= pw < PW ->
  exists address, address < 0 /\
    forall Xdata Y_buf,
      data (forward_nchw sched Xdata Y_buf) (at_nchw 0 0 (PH - 1) pw)
      = Xdata address.
Proof.
  intros Hm HN HC HH HW Hpt Hpb Hpl Hpr Hs Hpw.
  exists (((0 * C + 0) * H + reflect_coord (PH - 1 - pad_t a) H) * W
          + reflect_coord (pw - pad_l a) W).
  split.
  - rewrite !reflect_coord_abs. unfold PH, PW in *. nia.
  - intros Xdata Y_buf.
    rewrite forward_nchw_at by (try assumption; unfold PH; lia).
    unfold source_nchw. now rewrite Hm.
Qed.

End Forward.

(** X22. The reflection [h = max(h, -h); h = min(h, 2 * height - h - 2)]
    lands inside the image exactly for the coordinates whose absolute
    value is at most [2 * height - 2]. *)
Theorem reflect_coord_in_bounds (h height : Z) :
  0 < height ->
  (0 <= reflect_coord h height < height <-> Z.abs h <= 2 * height - 2).
Proof. intros Hh. rewrite reflect_coord_abs. lia. Qed.

(** *** The gradient operator *)

(** Atomic additions: an address ends up with the values of the
    threads that target it added to it one by one, in the order in
    which the threads take effect. *)
Lemma loop_atomic_add {T} (add : T -> T -> T) (t : Z -> Z) (top : ptr T)
    sched (p : ptr T) cell :
  run_iterations sched
    (fun index q => atomicAdd add q (t index) (top index)) p cell
  = fold_left add (map top (filter (fun i => t i =? cell) sched)) (p cell).
Proof.
  unfold run_iterations; revert p.
  induction sched as [|i sched IH]; intros p; simpl; [reflexivity|].
  rewrite IH. unfold atomicAdd, store.
  rewrite (Z.eqb_sym cell (t i)).
  destruct (Z.eqb_spec (t i) cell) as [E|]; simpl; [|reflexivity].
  now rewrite E.
Qed.

Section Backward.
Variables (a : PadArgs) (N C H W : Z).

Let PH := H + pad_t a + pad_b a.
Let PW := W + pad_l a + pad_r a.

Definition backward_nchw (sched : list Z) (dYdata dX_buf : ptr F32.float)
    : Tensor F32.float :=
  PadImageGradientOp_RunOnDeviceWithOrderNCHW a sched
    (mkTensor [N; C; PH; PW] dYdata) dX_buf.

Definition backward_nhwc (sched : list Z) (dYdata dX_buf : ptr F32.float)
    : Tensor F32.float :=
  PadImageGradientOp_RunOnDeviceWithOrderNHWC a sched
    (mkTensor [N; PH; PW; C] dYdata) dX_buf.

Lemma backward_nhwc_unfold sched dYdata dX_buf :
  backward_nhwc sched dYdata dX_buf
  = mkTensor [N; H; W; C]
      match mode_ a with
      | CONSTANT =>
          PadImageGradientConstNHWC sched (N * H * W * C) dYdata
            N H W C PH PW (pad_t a) (pad_l a)
            (math_Set (N * H * W * C) F32.zero dX_buf)
      | REFLECT =>
          PadImageGradientReflectNHWC F32.add sched (N * PH * PW * C) dYdata
            N H W C PH PW (pad_t a) (pad_l a)
            (math_Set (N * H * W * C) F32.zero dX_buf)
      | EDGE =>
          PadImageGradientEdgeNHWC F32.add sched (N * PH * PW * C) dYdata
            N H W C PH PW (pad_t a) (pad_l a)
            (math_Set (N * H * W * C) F32.zero dX_buf)
      end.
Proof.
  unfold backward_nhwc, PadImageGradientOp_RunOnDeviceWithOrderNHWC.
  cbv [dims data dim32 size nth Z.to_nat Pos.to_nat PosDef.Pos.to_nat
       Pos.iter_op PosDef.Pos.iter_op Nat.add fold_right].
  replace (PH - pad_t a - pad_b a) with H by (unfold PH; lia).
  replace (PW - pad_l a - pad_r a) with W by (unfold PW; lia).
  replace (N * (H * (W * (C * 1)))) with (N * H * W * C) by ring.
  replace (N * (PH * (PW * (C * 1)))) with (N * PH * PW * C) by ring.
  reflexivity.
Qed.

(** The padded cell over input cell [(h, w)]. *)
Definition over_nchw (n c h w : Z) : Z :=
  ((n * C + c) * PH + (h + pad_t a)) * PW + (w + pad_l a).

Definition over_nhwc (n c h w : Z) : Z :=
  ((n * PH + (h + pad_t a)) * PW + (w + pad_l a)) * C + c.

Lemma backward_constant_nchw_at sched dYdata dX_buf n c h w :
  mode_ a = CONSTANT ->
  is_schedule (N * C * H * W) sched ->
  0 <= n < N -> 0 <= c < C -> 0 <= h < H -> 0 <= w < W ->
  data (backward_nchw sched dYdata dX_buf) (((n * C + c) * H + h) * W + w)
  = dYdata (over_nchw n c h w).
Proof.
  intros Hm Hs Hn Hc Hh Hw.
  unfold backward_nchw. fold PH PW. unfold PH, PW.
  rewrite gradient_op_unfold, Hm. cbn [data].
  unfold PadImageGradientConstNCHW.
  rewrite (loop_gather_schedule (fun (s : ptr F32.float) i => s i)
             (PadImageGradientConstNCHW_cell dYdata N C H W
                (H + pad_t a + pad_b a) (W + pad_l a + pad_r a)
                (pad_t a) (pad_l a)) _ (N * C * H * W)).
  - unfold PadImageGradientConstNCHW_cell.
    destruct (CIntFacts.decompose3 (n * C + c) h w H W)
      as (-> & -> & ->); try lia; [nia|]. reflexivity.
  - intros i s j; unfold store; reflexivity.
  - assumption.
  - apply CIntFacts.flat_bound; assumption.
Qed.

Lemma backward_constant_nhwc_at sched dYdata dX_buf n c h w :
  mode_ a = CONSTANT ->
  is_schedule (N * H * W * C) sched ->
  0 <= n < N -> 0 <= c < C -> 0 <= h < H -> 0 <= w < W ->
  data (backward_nhwc sched dYdata dX_buf) (((n * H + h) * W + w) * C + c)
  = dYdata (over_nhwc n c h w).
Proof.
  intros Hm Hs Hn Hc Hh Hw.
  rewrite backward_nhwc_unfold, Hm. cbn [data].
  unfold PadImageGradientConstNHWC.
  rewrite (loop_gather_schedule (fun (s : ptr F32.float) i => s i)
             (PadImageGradientConstNHWC_cell dYdata N H W C PH PW
                (pad_t a) (pad_l a)) _ (N * H * W * C)).
  - unfold PadImageGradientConstNHWC_cell.
    destruct (CIntFacts.decompose4 n h w c H W C)
      as (-> & -> & -> & ->); try lia. reflexivity.
  - intros i s j; unfold store; reflexivity.
  - assumption.
  - apply CIntFacts.flat_bound; assumption.
Qed.

(** X23. In constant mode the gradient operator crops: an input cell
    receives the upstream gradient of the padded cell over it and
    nothing else, and the result has the un-padded shape, in both
    layouts. *)
Theorem pad_constant_gradient_crops (sched : list Z)
    (dYdata dX_buf : ptr F32.float) (n c h w : Z) :
  mode_ a = CONSTANT ->
  is_schedule (N * C * H * W) sched ->
  0 <= n < N -> 0 <= c < C -> 0 <= h < H -> 0 <= w < W ->
  dims (backward_nchw sched dYdata dX_buf) = [N; C; H; W] /\
  data (backward_nchw sched dYdata dX_buf) (((n * C + c) * H + h) * W + w)
  = dYdata (((n * C + c) * PH + (h + pad_t a)) * PW + (w + pad_l a)) /\
  dims (backward_nhwc sched dYdata dX_buf) = [N; H; W; C] /\
  data (backward_nhwc sched dYdata dX_buf) (((n * H + h) * W + w) * C + c)
  = dYdata (((n * PH + (h + pad_t a)) * PW + (w + pad_l a)) * C + c).
Proof.
  intros Hm Hs Hn Hc Hh Hw.
  assert (Hs' : is_schedule (N * H * W * C) sched)
    by (replace (N * H * W * C) with (N * C * H * W) by ring; assumption).
  split; [|split; [|split]].
  - unfold backward_nchw. fold PH PW. unfold PH, PW.
    now rewrite gradient_op_unfold.
  - now apply backward_constant_nchw_at.
  - now rewrite backward_nhwc_unfold.
  - now apply backward_constant_nhwc_at.
Qed.

(** The cell a thread of the padded gradient adds to, in reflect and
    in edge mode. *)
Definition target_nchw : Z -> Z :=
  match mode_ a with
  | REFLECT =>
      PadImageGradientReflectNCHW_target N C H W PH PW (pad_t a) (pad_l a)
  | _ => PadImageGradientEdgeNCHW_target N C H W PH PW (pad_t a) (pad_l a)
  end.

Definition target_nhwc : Z -> Z :=
  match mode_ a with
  | REFLECT =>
      PadImageGradientReflectNHWC_target N H W C PH PW (pad_t a) (pad_l a)
  | _ => PadImageGradientEdgeNHWC_target N H W C PH PW (pad_t a) (pad_l a)
  end.

(** The reflection or the clamp of the mode. *)
Definition mode_coord : Z -> Z -> Z :=
  match mode_ a with
  | REFLECT => reflect_coord
  | _ => edge_coord
  end.

Lemma target_nchw_at n c ph pw :
  0 <= n -> 0 <= c < C -> 0 <= ph < PH -> 0 <= pw < PW ->
  target_nchw (((n * C + c) * PH + ph) * PW + pw)
  = ((n * C + c) * H + mode_coord (ph - pad_t a) H) * W
    + mode_coord (pw - pad_l a) W.
Proof.
  intros Hn Hc Hph Hpw. assert (Hnc : 0 <= n * C + c) by nia.
  unfold target_nchw, mode_coord.
  destruct (mode_ a);
    unfold PadImageGradientReflectNCHW_target,
      PadImageGradientEdgeNCHW_target;
    destruct (CIntFacts.decompose3 (n * C + c) ph pw PH PW Hnc Hph Hpw)
      as (-> & -> & ->); reflexivity.
Qed.

Lemma target_nhwc_at n c ph pw :
  0 <= n -> 0 <= c < C -> 0 <= ph < PH -> 0 <= pw < PW ->
  target_nhwc (((n * PH + ph) * PW + pw) * C + c)
  = ((n * H + mode_coord (ph - pad_t a) H) * W
     + mode_coord (pw - pad_l a) W) * C + c.
Proof.
  intros Hn Hc Hph Hpw.
  unfold target_nhwc, mode_coord.
  destruct (mode_ a);
    unfold PadImageGradientReflectNHWC_target,
      PadImageGradientEdgeNHWC_target;
    destruct (CIntFacts.decompose4 n ph pw c PH PW C Hn Hph Hpw Hc)
      as (-> & -> & -> & ->); reflexivity.
Qed.

Lemma backward_scatter_nchw_at sched dYdata dX_buf cell :
  mode_ a <> CONSTANT ->
  is_schedule (N * C * PH * PW) sched ->
  0 <= cell < N * C * H * W ->
  data (backward_nchw sched dYdata dX_buf) cell
  = fold_left F32.add
      (map dYdata (filter (fun index => target_nchw index =? cell) sched))
      F32.zero.
Proof.
  intros Hm Hs Hcell.
  unfold backward_nchw. fold PH PW. unfold PH, PW.
  rewrite gradient_op_unfold. fold PH PW. cbn [data].
  unfold target_nchw.
  destruct (mode_ a); [congruence| |];
    unfold PadImageGradientReflectNCHW, PadImageGradientEdgeNCHW;
    rewrite kernel_loop_schedule by assumption;
    rewrite loop_atomic_add; unfold math_Set;
    replace ((0 <=? cell) && (cell <? N * C * H * W)) with true
      by (symmetry; apply andb_true_iff; split;
          [apply Z.leb_le | apply Z.ltb_lt]; lia);
    reflexivity.
Qed.

Lemma backward_scatter_nhwc_at sched dYdata dX_buf cell :
  mode_ a <> CONSTANT ->
  is_schedule (N * PH * PW * C) sched ->
  0 <= cell < N * H * W * C ->
  data (backward_nhwc sched dYdata dX_buf) cell
  = fold_left F32.add
      (map dYdata (filter (fun index => target_nhwc index =? cell) sched))
      F32.zero.
Proof.
  intros Hm Hs Hcell.
  rewrite backward_nhwc_unfold. cbn [data].
  unfold target_nhwc.
  destruct (mode_ a); [congruence| |];
    unfold PadImageGradientReflectNHWC, PadImageGradientEdgeNHWC;
    rewrite kernel_loop_schedule by assumption;
    rewrite loop_atomic_add; unfold math_Set;
    replace ((0 <=? cell) && (cell <? N * H * W * C)) with true
      by (symmetry; apply andb_true_iff; split;
          [apply Z.leb_le | apply Z.ltb_lt]; lia);
    reflexivity.
Qed.

(** The pad amounts under which the coordinates of every padded cell
    are mapped into the image: none is negative, and in reflect mode
    each is below the size of its dimension. *)
Definition pads_in_range : Prop :=
  0 < H /\ 0 < W /\
  0 <= pad_t a /\ 0 <= pad_l a /\ 0 <= pad_b a /\ 0 <= pad_r a /\
  (mode_ a = REFLECT ->
   pad_t a < H /\ pad_b a < H /\ pad_l a < W /\ pad_r a < W).

Lemma mode_coord_rows ph :
  pads_in_range -> 0 <= ph < PH -> 0 <= mode_coord (ph - pad_t a) H < H.
Proof.
  intros (HH & HW & Hpt & Hpl & Hpb & Hpr & Hrefl) Hph.
  unfold mode_coord. destruct (mode_ a) eqn:Hm.
  - now apply edge_coord_bounds.
  - destruct (Hrefl eq_refl) as (? & ? & ? & ?).
    apply reflect_coord_spec. unfold PH in Hph. lia.
  - now apply edge_coord_bounds.
Qed.

Lemma mode_coord_cols pw :
  pads_in_range -> 0 <= pw < PW -> 0 <= mode_coord (pw - pad_l a) W < W.
Proof.
  intros (HH & HW & Hpt & Hpl & Hpb & Hpr & Hrefl) Hpw.
  unfold mode_coord. destruct (mode_ a) eqn:Hm.
  - now apply edge_coord_bounds.
  - destruct (Hrefl eq_refl) as (? & ? & ? & ?).
    apply reflect_coord_spec. unfold PW in Hpw. lia.
  - now apply edge_coord_bounds.
Qed.

(** X24. In reflect and in edge mode, NCHW layout: an input cell
    receives the sum of the upstream gradients of the threads that add
    to it, added to zero one by one in the order in which they take
    effect; and the thread of padded cell [(n', c', ph, pw)] adds to
    input cell [(n, c, h, w)] exactly when it belongs to the same image
    and channel and its coordinates are mapped to [(h, w)]. *)
Theorem pad_gradient_accumulates_nchw (sched : list Z)
    (dYdata dX_buf : ptr F32.float) (n c h w : Z) :
  mode_ a <> CONSTANT -> pads_in_range ->
  is_schedule (N * C * PH * PW) sched ->
  0 <= n < N -> 0 <= c < C -> 0 <= h < H -> 0 <= w < W ->
  let cell := ((n * C + c) * H + h) * W + w in
  let threads := filter (fun index => target_nchw index =? cell) sched in
  data (backward_nchw sched dYdata dX_buf) cell
  = fold_left F32.add (map dYdata threads) F32.zero /\
  forall n' c' ph pw,
    0 <= n' < N -> 0 <= c' < C -> 0 <= ph < PH -> 0 <= pw < PW ->
    (In (((n' * C + c') * PH + ph) * PW + pw) threads <->
     n' = n /\ c' = c /\
     mode_coord (ph - pad_t a) H = h /\ mode_coord (pw - pad_l a) W = w).
Proof.
  intros Hm Hpads Hs Hn Hc Hh Hw cell threads. split.
  - apply backward_scatter_nchw_at; try assumption.
    apply CIntFacts.flat_bound; assumption.
  - intros n' c' ph pw Hn' Hc' Hph Hpw. unfold threads.
    rewrite filter_In, Z.eqb_eq, target_nchw_at by (try assumption; lia).
    pose proof (mode_coord_rows ph Hpads Hph) as Hr.
    pose proof (mode_coord_cols pw Hpads Hpw) as Hq.
    pose proof (CIntFacts.flat_bound n' c' ph pw N C PH PW Hn' Hc' Hph Hpw)
      as Hi.
    rewrite (in_schedule _ sched _ Hs). unfold cell. split.
    + intros [_ E].
      apply CIntFacts.flat_inj in E; [|lia|lia]. destruct E as [E Ew].
      apply CIntFacts.flat_inj in E; [|lia|lia]. destruct E as [E Eh].
      apply CIntFacts.flat_inj in E; [|lia|lia]. destruct E as [En Ec].
      now repeat split.
    + intros (-> & -> & -> & ->). split; [assumption | reflexivity].
Qed.

(** X25. In reflect and in edge mode, NHWC layout: an input cell
    receives the sum of the upstream gradients of the threads that add
    to it, added to zero one by one in the order in which they take
    effect; and the thread of padded cell [(n', ph, pw, c')] adds to
    input cell [(n, h, w, c)] exactly when it belongs to the same image
    and channel and its coordinates are mapped to [(h, w)]. *)
Theorem pad_gradient_accumulates_nhwc (sched : list Z)
    (dYdata dX_buf : ptr F32.float) (n c h w : Z) :
  mode_ a <> CONSTANT -> pads_in_range ->
  is_schedule (N * PH * PW * C) sched ->
  0 <= n < N -> 0 <= c < C -> 0 <= h < H -> 0 <= w < W ->
  let cell := ((n * H + h) * W + w) * C + c in
  let threads := filter (fun index => target_nhwc index =? cell) sched in
  data (backward_nhwc sched dYdata dX_buf) cell
  = fold_left F32.add (map dYdata threads) F32.zero /\
  forall n' c' ph pw,
    0 <= n' < N -> 0 <= c' < C -> 0 <= ph < PH -> 0 <= pw < PW ->
    (In (((n' * PH + ph) * PW + pw) * C + c') threads <->
     n' = n /\ c' = c /\
     mode_coord (ph - pad_t a) H = h /\ mode_coord (pw - pad_l a) W = w).
Proof.
  intros Hm Hpads Hs Hn Hc Hh Hw cell threads. split.
  - apply backward_scatter_nhwc_at; try assumption.
    apply CIntFacts.flat_bound; assumption.
  - intros n' c' ph pw Hn' Hc' Hph Hpw. unfold threads.
    rewrite filter_In, Z.eqb_eq, target_nhwc_at by (try assumption; lia).
    pose proof (mode_coord_rows ph Hpads Hph) as Hr.
    pose proof (mode_coord_cols pw Hpads Hpw) as Hq.
    pose proof (CIntFacts.flat_bound n' ph pw c' N PH PW C Hn' Hph Hpw Hc')
      as Hi.
    rewrite (in_schedule _ sched _ Hs). unfold cell. split.
    + intros [_ E].
      apply CIntFacts.flat_inj in E; [|lia|lia]. destruct E as [E Ec].
      apply CIntFacts.flat_inj in E; [|lia|lia]. destruct E as [E Ew].
      apply CIntFacts.flat_inj in E; [|lia|lia]. destruct E as [En Eh].
      now repeat split.
    + intros (-> & -> & -> & ->). split; [assumption | reflexivity].
Qed.

End Backward.


(** *** Padding, then cropping *)

(** X26. Constant-mode padding followed by the constant-mode gradient
    operator gives back the input: the gradient operator crops exactly
    what the forward operator added, whatever the fill value and the
    schedules of the two launches, in both layouts. *)
Theorem pad_constant_round_trip (a : PadArgs) (value_ : F32.float)
    (N C H W : Z) (out_nchw out_nhwc : list Z -> Z -> list Z)
    (schedF schedB : list Z) (Xdata Y_buf dX_buf : ptr F32.float)
    (n c h w : Z) :
  let PH := H + pad_t a + pad_b a in
  let PW := W + pad_l a + pad_r a in
  out_nchw [N; C; H; W] C = [N; C; PH; PW] ->
  out_nhwc [N; H; W; C] C = [N; PH; PW; C] ->
  mode_ a = CONSTANT ->
  0 <= pad_t a -> 0 <= pad_l a -> 0 <= pad_b a -> 0 <= pad_r a ->
  is_schedule (N * C * PH * PW) schedF ->
  is_schedule (N * C * H * W) schedB ->
  0 <= n < N -> 0 <= c < C -> 0 <= h < H -> 0 <= w < W ->
  let Y :=
    PadImageOp_RunOnDeviceWithOrderNCHW out_nchw a value_ schedF
      (mkTensor [N; C; H; W] Xdata) Y_buf in
  let dX := PadImageGradientOp_RunOnDeviceWithOrderNCHW a schedB Y dX_buf in
  let Y' :=
    PadImageOp_RunOnDeviceWithOrderNHWC out_nhwc a value_ schedF
      (mkTensor [N; H; W; C] Xdata) Y_buf in
  let dX' := PadImageGradientOp_RunOnDeviceWithOrderNHWC a schedB Y' dX_buf in
  dims dX = [N; C; H; W] /\
  data dX (((n * C + c) * H + h) * W + w)
  = Xdata (((n * C + c) * H + h) * W + w) /\
  dims dX' = [N; H; W; C] /\
  data dX' (((n * H + h) * W + w) * C + c)
  = Xdata (((n * H + h) * W + w) * C + c).
Proof.
  intros PH PW Ho1 Ho2 Hm Hpt Hpl Hpb Hpr HsF HsB Hn Hc Hh Hw Y dX Y' dX'.
  assert (HsF' : is_schedule (N * PH * PW * C) schedF)
    by (replace (N * PH * PW * C) with (N * C * PH * PW) by ring;
        assumption).
  assert (HsB' : is_schedule (N * H * W * C) schedB)
    by (replace (N * H * W * C) with (N * C * H * W) by ring; assumption).
  assert (Hin : (h <? 0) || (w <? 0) || (h >=? H) || (w >=? W) = false).
  { rewrite !orb_false_iff, !Z.ltb_ge, !Z.geb_leb, !Z.leb_gt. lia. }
  assert (EY : Y = mkTensor [N; C; PH; PW] (data Y)).
  { unfold Y. fold (forward_nchw a value_ N C H W out_nchw schedF Xdata Y_buf).
    now rewrite (forward_nchw_unfold a value_ N C H W out_nchw Ho1). }
  assert (EY' : Y' = mkTensor [N; PH; PW; C] (data Y')).
  { unfold Y'. fold (forward_nhwc a value_ N C H W out_nhwc schedF Xdata Y_buf).
    now rewrite (forward_nhwc_unfold a value_ N C H W out_nhwc Ho2). }
  assert (Ev : data Y (over_nchw a C H W n c h w)
               = Xdata (((n * C + c) * H + h) * W + w)).
  { change (data (forward_nchw a value_ N C H W out_nchw schedF Xdata Y_buf)
              (at_nchw a C H W n c (h + pad_t a) (w + pad_l a))
            = Xdata (((n * C + c) * H + h) * W + w)).
    rewrite (forward_nchw_at a value_ N C H W out_nchw Ho1)
      by (try assumption; lia).
    unfold source_nchw. rewrite Hm.
    replace (h + pad_t a - pad_t a) with h by lia.
    replace (w + pad_l a - pad_l a) with w by lia.
    now rewrite Hin. }
  assert (Ev' : data Y' (over_nhwc a C H W n c h w)
                = Xdata (((n * H + h) * W + w) * C + c)).
  { change (data (forward_nhwc a value_ N C H W out_nhwc schedF Xdata Y_buf)
              (at_nhwc a C H W n c (h + pad_t a) (w + pad_l a))
            = Xdata (((n * H + h) * W + w) * C + c)).
    rewrite (forward_nhwc_at a value_ N C H W out_nhwc Ho2)
      by (try assumption; lia).
    unfold source_nhwc. rewrite Hm.
    replace (h + pad_t a - pad_t a) with h by lia.
    replace (w + pad_l a - pad_l a) with w by lia.
    now rewrite Hin. }
  unfold dX, dX'. rewrite EY, EY'.
  change (PadImageGradientOp_RunOnDeviceWithOrderNCHW a schedB
            (mkTensor [N; C; PH; PW] (data Y)) dX_buf)
    with (backward_nchw a N C H W schedB (data Y) dX_buf).
  change (PadImageGradientOp_RunOnDeviceWithOrderNHWC a schedB
            (mkTensor [N; PH; PW; C] (data Y')) dX_buf)
    with (backward_nhwc a N C H W schedB (data Y') dX_buf).
  rewrite backward_constant_nchw_at, backward_constant_nhwc_at
    by assumption.
  split; [|split; [exact Ev|split; [|exact Ev']]].
  - unfold backward_nchw. now rewrite gradient_op_unfold.
  - now rewrite backward_nhwc_unfold.
Qed.

(** *** Edge mode: cells strictly inside the image *)

Lemma filter_perm {A} (P : A -> bool) l l' :
  Permutation l l' -> Permutation (filter P l) (filter P l').
Proof.
  induction 1 as [|x l l' _ IH|x y l|l l' l'' _ IH1 _ IH2]; simpl.
  - constructor.
  - destruct (P x); [now constructor | assumption].
  - destruct (P x), (P y); try apply Permutation_refl. constructor.
  - eapply Permutation_trans; eassumption.
Qed.

Lemma singleton_filter {A} (P : A -> bool) l x :
  length (filter P l) = 1%nat -> In x l -> P x = true -> filter P l = [x].
Proof.
  intros Hlen Hin HP.
  assert (Hx : In x (filter P l)) by (apply filter_In; now split).
  destruct (filter P l) as [|y [|z r]]; try discriminate.
  destruct Hx as [->|[]]. reflexivity.
Qed.

(** X27. In edge mode only the border cells accumulate: a cell strictly
    inside the image receives one addition, that of the upstream
    gradient of the padded cell over it, for every schedule. *)
Theorem pad_edge_gradient_interior (a : PadArgs) (N C H W : Z)
    (sched : list Z) (dYdata dX_buf : ptr F32.float) (n c h w : Z) :
  let PH := H + pad_t a + pad_b a in
  let PW := W + pad_l a + pad_r a in
  mode_ a = EDGE ->
  0 <= pad_t a -> 0 <= pad_l a -> 0 <= pad_b a -> 0 <= pad_r a ->
  is_schedule (N * C * PH * PW) sched ->
  0 <= n < N -> 0 <= c < C -> 0 < h < H - 1 -> 0 < w < W - 1 ->
  data (PadImageGradientOp_RunOnDeviceWithOrderNCHW a sched
          (mkTensor [N; C; PH; PW] dYdata) dX_buf)
    (((n * C + c) * H + h) * W + w)
  = F32.add F32.zero
      (dYdata (((n * C + c) * PH + (h + pad_t a)) * PW + (w + pad_l a))).
Proof.
  intros PH PW Hm Hpt Hpl Hpb Hpr Hs Hn Hc Hh Hw.
  assert (HH : 0 < H) by lia. assert (HW : 0 < W) by lia.
  assert (Hnc : 0 <= n * C + c < N * C) by nia.
  set (cell := ((n * C + c) * H + h) * W + w).
  set (over := ((n * C + c) * PH + (h + pad_t a)) * PW + (w + pad_l a)).
  assert (Hcell : 0 <= cell < N * C * H * W)
    by (apply CIntFacts.flat_bound; lia).
  change (data (backward_nchw a N C H W sched dYdata dX_buf) cell
          = F32.add F32.zero (dYdata over)).
  rewrite backward_scatter_nchw_at by (assumption || congruence).
  assert (Hover : 0 <= over < N * C * PH * PW)
    by (apply CIntFacts.flat_bound; unfold PH, PW; lia).
  assert (Htarget : target_nchw a N C H W over = cell).
  { unfold over, PH, PW.
    rewrite (target_nchw_at a N C H W n c (h + pad_t a) (w + pad_l a))
      by lia.
    unfold mode_coord. rewrite Hm.
    replace (h + pad_t a - pad_t a) with h by lia.
    replace (w + pad_l a - pad_l a) with w by lia.
    rewrite !edge_coord_inside by lia. reflexivity. }
  assert (Hone : filter (fun index => target_nchw a N C H W index =? cell)
                   (iota (N * C * PH * PW)) = [over]).
  { apply singleton_filter.
    - assert (E : target_nchw a N C H W = edge_target a N C H W)
        by (unfold target_nchw, edge_target; now rewrite Hm).
      rewrite E.
      change (multiplicity (edge_target a N C H W) (N * C * PH * PW) cell
              = 1%nat).
      unfold cell, PH, PW.
      rewrite (edge_multiplicity_product a N C H W HH HW Hpt Hpl Hpb Hpr)
        by lia.
      rewrite (edge_rows_interior a H W Hpt Hpb h Hh).
      rewrite (edge_cols_interior a H W Hpl Hpr w Hw). reflexivity.
    - now apply in_iota.
    - now apply Z.eqb_eq. }
  pose proof (filter_perm
                (fun index => target_nchw a N C H W index =? cell) _ _ Hs)
    as Hp.
  rewrite Hone in Hp. apply Permutation_sym in Hp.
  apply Permutation_length_1_inv in Hp. rewrite Hp. reflexivity.
Qed.

(** *** Examples *)

(** The output shape of the padding operator: every spatial extent
    grows by its two pad amounts. *)
Definition grow_nchw (a : PadArgs) (xdims : list Z) (channels : Z) : list Z :=
  [nth 0 xdims 0; nth 1 xdims 0;
   nth 2 xdims 0 + pad_t a + pad_b a; nth 3 xdims 0 + pad_l a + pad_r a].

Definition grow_nhwc (a : PadArgs) (xdims : list Z) (channels : Z) : list Z :=
  [nth 0 xdims 0; nth 1 xdims 0 + pad_t a + pad_b a;
   nth 2 xdims 0 + pad_l a + pad_r a; nth 3 xdims 0].

(** An image whose cells hold their own flat index, and a buffer that
    has not been written. *)
Definition ramp : ptr F32.float := fun i => F32.of_Z i.
Definition unset : ptr F32.float := fun _ => S754_nan.

Definition constant_args : PadArgs := mkPadArgs CONSTANT 2 1 0 1.
Definition reflect_args : PadArgs := mkPadArgs REFLECT 1 1 2 0.

Ltac side_condition :=
  first [ reflexivity
        | apply rev_iota_schedule
        | apply iota_schedule
        | discriminate
        | simpl; lia ].

(** Two channels of a 2x3 image padded by (2, 1, 0, 1): the cell at
    padded row 1 lies above the image and holds the fill value. *)
Lemma pad_constant_forward_witness :
  data (forward_nchw constant_args F32.one 1 2 2 3 (grow_nchw constant_args)
          (rev (iota 40)) ramp unset)
    (at_nchw constant_args 2 2 3 0 1 1 0) = F32.one /\
  data (forward_nhwc constant_args F32.one 1 2 2 3 (grow_nhwc constant_args)
          (rev (iota 40)) ramp unset)
    (at_nhwc constant_args 2 2 3 0 1 1 0) = F32.one.
Proof.
  destruct (pad_constant_forward constant_args F32.one 1 2 2 3
              (grow_nchw constant_args) (grow_nhwc constant_args)
              eq_refl eq_refl (rev (iota 40)) ramp unset 0 1 1 0)
    as [_ Hout]; [side_condition .. |].
  apply Hout. simpl. lia.
Defined.


Lemma pad_forward_interior_witness :
  data (forward_nchw reflect_args F32.one 1 2 2 3 (grow_nchw reflect_args)
          (rev (iota 40)) ramp unset)
    (at_nchw reflect_args 2 2 3 0 1 (1 + 1) (2 + 1))
  = ramp (((0 * 2 + 1) * 2 + 1) * 3 + 2).
Proof.
  destruct (pad_forward_interior reflect_args F32.one 1 2 2 3
              (grow_nchw reflect_args) (grow_nhwc reflect_args)
              eq_refl eq_refl (rev (iota 40)) ramp unset 0 1 1 2)
    as [Hout _]; [side_condition .. |].
  exact Hout.
Defined.

(** A 2x3 image with a bottom pad of 2 in reflect mode: the last padded
    row of the first image is read from before the buffer. *)
Lemma pad_reflect_reads_before_buffer_witness :
  exists address, address < 0 /\
    forall Xdata Y_buf,
      data (forward_nchw reflect_args F32.one 1 2 2 3 (grow_nchw reflect_args)
              (rev (iota 40)) Xdata Y_buf)
        (at_nchw reflect_args 2 2 3 0 0 (2 + 1 + 2 - 1) 0)
      = Xdata address.
Proof.
  apply (pad_reflect_reads_before_buffer reflect_args F32.one 1 2 2 3
           (grow_nchw reflect_args) eq_refl (rev (iota 40)) 0);
    side_condition.
Defined.

Lemma reflect_coord_in_bounds_witness :
  0 <= reflect_coord (-2) 3 < 3 <-> Z.abs (-2) <= 2 * 3 - 2.
Proof. apply reflect_coord_in_bounds. lia. Defined.

Lemma pad_constant_gradient_crops_witness :
  data (backward_nchw constant_args 1 2 2 3 (rev (iota 12)) ramp unset)
    (((0 * 2 + 1) * 2 + 1) * 3 + 2)
  = ramp (((0 * 2 + 1) * (2 + 2 + 0) + (1 + 2)) * (3 + 1 + 1) + (2 + 1)).
Proof.
  destruct (pad_constant_gradient_crops constant_args 1 2 2 3
              (rev (iota 12)) ramp unset 0 1 1 2)
    as (_ & Hout & _); [side_condition .. |].
  exact Hout.
Defined.

Lemma pads_in_range_edge : pads_in_range edge_args 2 3.
Proof.
  unfold pads_in_range; simpl. repeat split; try lia; discriminate.
Defined.

Lemma pad_gradient_accumulates_nchw_witness :
  let cell := ((0 * 2 + 1) * 2 + 0) * 3 + 0 in
  data (backward_nchw edge_args 1 2 2 3 (rev (iota 40)) ramp unset) cell
  = fold_left F32.add
      (map ramp
         (filter (fun index => target_nchw edge_args 1 2 2 3 index =? cell)
            (rev (iota 40))))
      F32.zero.
Proof.
  intros cell.
  destruct (pad_gradient_accumulates_nchw edge_args 1 2 2 3
              (rev (iota 40)) ramp unset 0 1 0 0)
    as [Hout _];
    [first [apply pads_in_range_edge | side_condition] .. |].
  exact Hout.
Defined.

Lemma pad_gradient_accumulates_nhwc_witness :
  let cell := ((0 * 2 + 0) * 3 + 0) * 2 + 1 in
  data (backward_nhwc edge_args 1 2 2 3 (rev (iota 40)) ramp unset) cell
  = fold_left F32.add
      (map ramp
         (filter (fun index => target_nhwc edge_args 1 2 2 3 index =? cell)
            (rev (iota 40))))
      F32.zero.
Proof.
  intros cell.
  destruct (pad_gradient_accumulates_nhwc edge_args 1 2 2 3
              (rev (iota 40)) ramp unset 0 1 0 0)
    as [Hout _];
    [first [apply pads_in_range_edge | side_condition] .. |].
  exact Hout.
Defined.

Lemma pad_constant_round_trip_witness :
  let Y :=
    PadImageOp_RunOnDeviceWithOrderNCHW (grow_nchw constant_args)
      constant_args F32.one (rev (iota 40))
      (mkTensor [1; 2; 2; 3] ramp) unset in
  let dX :=
    PadImageGradientOp_RunOnDeviceWithOrderNCHW constant_args
      (rev (iota 12)) Y unset in
  dims dX = [1; 2; 2; 3] /\
  data dX (((0 * 2 + 1) * 2 + 1) * 3 + 2)
  = ramp (((0 * 2 + 1) * 2 + 1) * 3 + 2).
Proof.
  intros Y dX.
  destruct (pad_constant_round_trip constant_args F32.one 1 2 2 3
              (grow_nchw constant_args) (grow_nhwc constant_args)
              (rev (iota 40)) (rev (iota 12)) ramp unset unset 0 1 1 2)
    as (Hd & Hv & _); [side_condition .. |].
  split; [exact Hd | exact Hv].
Defined.

(** A 4x4 image padded by one cell on every side in edge mode: the
    cell (1, 2) is strictly inside. *)
Lemma pad_edge_gradient_interior_witness :
  let a := mkPadArgs EDGE 1 1 1 1 in
  data (PadImageGradientOp_RunOnDeviceWithOrderNCHW a (rev (iota 36))
          (mkTensor [1; 1; 4 + 1 + 1; 4 + 1 + 1] ramp) unset)
    (((0 * 1 + 0) * 4 + 1) * 4 + 2)
  = F32.add F32.zero
      (ramp (((0 * 1 + 0) * (4 + 1 + 1) + (1 + 1)) * (4 + 1 + 1) + (2 + 1))).
Proof.
  intros a.
  apply (pad_edge_gradient_interior a 1 1 4 4 (rev (iota 36)) ramp unset
           0 0 1 2); side_condition.
Defined.

End PadModes.
